(** * A shallow embedding of the cfer bytecode interpreter (FERProject)

    The development follows the C sources under [src/]: the value
    representation of [value.h], the heap objects of [object.h] and
    [object.c], the chunk of [chunk.c], the scanner of [scanner.c], the
    virtual machine of [vm.c] and the collector of [memory.c].  The hash table of
    [table.h] has no implementation file in the repository; it is modelled
    from the design document (open addressing, linear probing, tombstones). *)

From Stdlib Require Import ZArith Lia Floats Ascii String.
From stdpp Require Import base list gmap strings pretty.

Open Scope Z_scope.

(** ** Values ([value.h], tagged-union branch) *)

Inductive Value : Type :=
| VAL_NIL
| VAL_BOOL (b : bool)
| VAL_NUMBER (n : float)
| VAL_OBJ (o : nat).

Definition IS_NIL (v : Value) : bool := match v with VAL_NIL => true | _ => false end.
Definition IS_BOOL (v : Value) : bool := match v with VAL_BOOL _ => true | _ => false end.
Definition IS_NUMBER (v : Value) : bool := match v with VAL_NUMBER _ => true | _ => false end.
Definition IS_OBJ (v : Value) : bool := match v with VAL_OBJ _ => true | _ => false end.

(** [AS_BOOL] and [AS_NUMBER] read the payload without checking the tag.
    Under the NaN-boxed encoding that [common.h] selects, a non-number value
    has all quiet-NaN bits set, so reading it as a double yields a NaN. *)
Definition AS_BOOL (v : Value) : bool := match v with VAL_BOOL b => b | _ => false end.
Definition AS_NUMBER (v : Value) : float := match v with VAL_NUMBER n => n | _ => nan end.

Definition NIL_VAL : Value := VAL_NIL.
Definition BOOL_VAL (b : bool) : Value := VAL_BOOL b.
Definition NUMBER_VAL (n : float) : Value := VAL_NUMBER n.
Definition OBJ_VAL (o : nat) : Value := VAL_OBJ o.

(** ** Strings as table keys ([object.h], [struct ObjString])

    A string object is immutable; a key of a table is a pointer to one, and
    pointer equality is equality of the object's address [sid]. *)

Module ObjStr.

Record ObjString : Type := mkObjString {
  sid : nat;
  length : Z;
  chars : string;
  hash : Z
}.

End ObjStr.
Import ObjStr (ObjString, mkObjString, sid, chars, hash).

(** ** The hash table ([table.h])

    [table.c] is not part of the repository; the operations below are
    modelled from the design document. *)

Module Tbl.

Record Entry : Type := mkEntry { key : option ObjString; value : Value }.

Record Table : Type := mkTable { count : Z; capacity : Z; entries : list Entry }.

Definition TABLE_MAX_LOAD_exceeded (count capacity : Z) : bool :=
  (* count + 1 > capacity * 0.75 *)
  3 * capacity <? 4 * (count + 1).

Definition GROW_CAPACITY (capacity : Z) : Z :=
  if capacity <? 8 then 8 else capacity * 2.

Definition empty_entry : Entry := mkEntry None NIL_VAL.
Definition tombstone_entry : Entry := mkEntry None (BOOL_VAL true).

Definition entry_at (es : list Entry) (i : Z) : Entry :=
  match es !! Z.to_nat i with Some e => e | None => empty_entry end.

(** Modelled from the spec: [table.c] is missing.  Open addressing with
    linear probing; a tombstone is an entry whose key is null and whose
    value is [true]; the first tombstone met is reused by an insertion.
    The C loop runs until it meets an empty entry; since the load factor
    stays below 0.75 one exists, so [capacity] iterations suffice. *)
Fixpoint findEntry_loop (fuel : nat) (es : list Entry) (capacity : Z)
    (k : ObjString) (index : Z) (tombstone : option Z) : Z :=
  match fuel with
  | O => match tombstone with Some t => t | None => index end
  | S fuel' =>
      let e := entry_at es index in
      match key e with
      | None =>
          if IS_NIL (value e) then
            match tombstone with Some t => t | None => index end
          else
            findEntry_loop fuel' es capacity k ((index + 1) mod capacity)
              (match tombstone with None => Some index | Some t => Some t end)
      | Some k' =>
          if Nat.eqb (sid k') (sid k) then index
          else findEntry_loop fuel' es capacity k ((index + 1) mod capacity) tombstone
      end
  end.

Definition findEntry (es : list Entry) (capacity : Z) (k : ObjString) : Z :=
  findEntry_loop (Z.to_nat capacity) es capacity k (hash k mod capacity) None.

(** Modelled from the spec: resizing re-inserts every non-tombstone entry
    into a fresh array and drops the tombstones. *)
Definition adjustCapacity (t : Table) (capacity : Z) : Table :=
  let es0 := repeat empty_entry (Z.to_nat capacity) in
  let '(es, cnt) :=
    fold_left (fun (acc : list Entry * Z) (e : Entry) =>
      let '(es, cnt) := acc in
      match key e with
      | None => (es, cnt)
      | Some k => (<[Z.to_nat (findEntry es capacity k) := e]> es, cnt + 1)
      end) (entries t) (es0, 0) in
  mkTable cnt capacity es.

(** Modelled from the spec: returns the updated table and whether the key
    was new. *)
Definition tableSet (t : Table) (k : ObjString) (v : Value) : Table * bool :=
  let t1 := if TABLE_MAX_LOAD_exceeded (count t) (capacity t)
            then adjustCapacity t (GROW_CAPACITY (capacity t)) else t in
  let i := findEntry (entries t1) (capacity t1) k in
  let e := entry_at (entries t1) i in
  let isNewKey := match key e with None => true | Some _ => false end in
  let cnt := if isNewKey && IS_NIL (value e) then count t1 + 1 else count t1 in
  (mkTable cnt (capacity t1) (<[Z.to_nat i := mkEntry (Some k) v]> (entries t1)), isNewKey).

(** Modelled from the spec: deletion leaves a tombstone and does not
    decrement the count (tombstones count toward the load). *)
Definition tableDelete (t : Table) (k : ObjString) : Table * bool :=
  if count t =? 0 then (t, false) else
  let i := findEntry (entries t) (capacity t) k in
  match key (entry_at (entries t) i) with
  | None => (t, false)
  | Some _ => (mkTable (count t) (capacity t) (<[Z.to_nat i := tombstone_entry]> (entries t)), true)
  end.

(** Modelled from the spec. *)
Definition tableGet (t : Table) (k : ObjString) : option Value :=
  if count t =? 0 then None else
  let i := findEntry (entries t) (capacity t) k in
  match key (entry_at (entries t) i) with
  | None => None
  | Some _ => Some (value (entry_at (entries t) i))
  end.

(** Modelled from the spec: the interner's lookup, deciding by hash and
    bytes rather than by pointer. *)
Fixpoint findString_loop (fuel : nat) (es : list Entry) (capacity : Z)
    (cs : string) (len h : Z) (index : Z) : option ObjString :=
  match fuel with
  | O => None
  | S fuel' =>
      let e := entry_at es index in
      match key e with
      | None =>
          if IS_NIL (value e) then None
          else findString_loop fuel' es capacity cs len h ((index + 1) mod capacity)
      | Some k' =>
          if (ObjStr.length k' =? len) && (hash k' =? h) && String.eqb (chars k') cs then Some k'
          else findString_loop fuel' es capacity cs len h ((index + 1) mod capacity)
      end
  end.

Definition tableFindString (t : Table) (cs : string) (len h : Z) : option ObjString :=
  if count t =? 0 then None
  else findString_loop (Z.to_nat (capacity t)) (entries t) (capacity t) cs len h (h mod capacity t).

Definition initTable : Table := mkTable 0 0 [].

End Tbl.

(** ** Chunks ([chunk.h], [chunk.c])

    [code] is the allocated byte array (its length is the capacity; bytes at
    and beyond [count] are uninitialised and read as 0 here); [lines] is the
    parallel line array declared in [chunk.h]. *)

Record Chunk : Type := mkChunk {
  count : Z;
  capacity : Z;
  code : list Z;
  lines : list Z;
  constants : list Value
}.

(** [memory.h] *)
Definition GROW_CAPACITY (capacity : Z) : Z :=
  if capacity <? 8 then 8 else capacity * 2.

(** [GROW_ARRAY]: [realloc] keeps the old contents; the new tail is
    uninitialised. *)
Definition GROW_ARRAY (a : list Z) (oldCount newCount : Z) : list Z :=
  take (Z.to_nat newCount) (a ++ repeat 0 (Z.to_nat (newCount - oldCount))).

(** [initChunk] sets [count], [capacity] and [code]; [lines] and
    [constants] are left as they were. *)
Definition initChunk (c : Chunk) : Chunk :=
  mkChunk 0 0 [] (lines c) (constants c).

(** [writeChunk] as defined in [chunk.c]: two parameters, [chunk] and
    [byte]. *)
Definition writeChunk (c : Chunk) (byte : Z) : Chunk :=
  let c1 :=
    if capacity c <? count c + 1 then
      let oldCapacity := capacity c in
      let newCapacity := GROW_CAPACITY oldCapacity in
      mkChunk (count c) newCapacity (GROW_ARRAY (code c) oldCapacity newCapacity)
              (lines c) (constants c)
    else c in
  mkChunk (count c1 + 1) (capacity c1) (<[Z.to_nat (count c1) := byte]> (code c1))
          (lines c1) (constants c1).

(** ** Heap objects ([object.h]) *)

Definition NativeFn : Type := Z -> list Value -> Value.

(** Where an upvalue's [location] points: a slot of the value stack (open)
    or its own [closed] field (closed). *)
Inductive UpLoc : Type :=
| LOC_STACK (slot : Z)
| LOC_CLOSED.

Record ObjFunction : Type := mkFunction {
  arity : Z;
  upvalueCount : Z;
  chunk : Chunk;
  name : option nat
}.

Inductive ObjBody : Type :=
| OBJ_BOUND_METHOD (receiver : Value) (method : nat)
| OBJ_CLASS (cname : nat) (methods : Tbl.Table)
| OBJ_CLOSURE (cfunction : nat) (cupvalues : list (option nat)) (cupvalueCount : Z)
| OBJ_FUNCTION (f : ObjFunction)
| OBJ_INSTANCE (cls : nat) (fields : Tbl.Table)
| OBJ_NATIVE (fn : NativeFn)
| OBJ_STRING (s : ObjString)
| OBJ_LIST (lvalues : list Value)
| OBJ_UPVALUE (location : UpLoc) (closed : Value).

(** The object header: the mark bit; the [next] link of the allocation
    list is kept in [VM.objects]. *)
Record Obj : Type := mkObj { isMarked : bool; body : ObjBody }.

(** ** The virtual machine state ([vm.h]) *)

Definition FRAMES_MAX : Z := 64.
Definition STACK_MAX : Z := FRAMES_MAX * 256.

Record CallFrame : Type := mkFrame { closure : nat; ip : Z; slots : Z }.

(** What the VM writes: [print] output, runtime errors and their stack
    trace on [stderr], and the lines [common.h]'s [DEBUG_LOG_GC] makes the
    allocator and the collector print ([%p allocate %zu for %d],
    [%p mark <value>], [-- gc begin], [-- gc end]), an object's address
    standing for its [%p]. *)
Inductive Output : Type :=
| OUT_PRINT (v : Value)
| OUT_ERROR (msg : string)
| OUT_TRACE (line : option Z) (fname : string)
| OUT_GC_ALLOCATE (obj : nat) (size : Z) (type : Z)
| OUT_GC_MARK (obj : nat)
| OUT_GC_BEGIN
| OUT_GC_END.

Inductive InterpretResult : Type :=
| INTERPRET_OK
| INTERPRET_COMPILE_ERROR
| INTERPRET_RUNTIME_ERROR.

(** [stack] and [frames] are the fixed arrays of [struct VM], indexed by
    [Z]; [stackTop] and [ip] are offsets.  [openUpvalues] is the chain of
    open upvalues reached from [vm.openUpvalues] through their [next]
    fields; [objects] is the allocation list reached through the headers'
    [next] fields, most recent first; [heap] maps each address to its
    object; [compilerRoots] are the functions of the compiler chain that
    [markCompilerRoots] walks. *)
Record VM : Type := mkVM {
  frames : Z -> CallFrame;
  frameCount : Z;
  stack : Z -> Value;
  stackTop : Z;
  globals : Tbl.Table;
  globalPerms : Tbl.Table;
  strings : Tbl.Table;
  openUpvalues : list nat;
  bytesAllocated : Z;
  nextGC : Z;
  objects : list nat;
  heap : gmap nat Obj;
  nextId : nat;
  compilerRoots : list nat;
  output : list Output
}.

Definition set_stack (s : VM) (st : Z -> Value) (top : Z) : VM :=
  mkVM (frames s) (frameCount s) st top (globals s) (globalPerms s) (strings s)
       (openUpvalues s) (bytesAllocated s) (nextGC s) (objects s) (heap s) (nextId s)
       (compilerRoots s) (output s).

Definition set_frames (s : VM) (fr : Z -> CallFrame) (fc : Z) : VM :=
  mkVM fr fc (stack s) (stackTop s) (globals s) (globalPerms s) (strings s)
       (openUpvalues s) (bytesAllocated s) (nextGC s) (objects s) (heap s) (nextId s)
       (compilerRoots s) (output s).

Definition set_globals (s : VM) (g : Tbl.Table) : VM :=
  mkVM (frames s) (frameCount s) (stack s) (stackTop s) g (globalPerms s) (strings s)
       (openUpvalues s) (bytesAllocated s) (nextGC s) (objects s) (heap s) (nextId s)
       (compilerRoots s) (output s).

Definition set_strings (s : VM) (t : Tbl.Table) : VM :=
  mkVM (frames s) (frameCount s) (stack s) (stackTop s) (globals s) (globalPerms s) t
       (openUpvalues s) (bytesAllocated s) (nextGC s) (objects s) (heap s) (nextId s)
       (compilerRoots s) (output s).

Definition set_openUpvalues (s : VM) (l : list nat) : VM :=
  mkVM (frames s) (frameCount s) (stack s) (stackTop s) (globals s) (globalPerms s)
       (strings s) l (bytesAllocated s) (nextGC s) (objects s) (heap s) (nextId s)
       (compilerRoots s) (output s).

Definition set_heap (s : VM) (h : gmap nat Obj) : VM :=
  mkVM (frames s) (frameCount s) (stack s) (stackTop s) (globals s) (globalPerms s)
       (strings s) (openUpvalues s) (bytesAllocated s) (nextGC s) (objects s) h (nextId s)
       (compilerRoots s) (output s).

Definition set_alloc (s : VM) (objs : list nat) (h : gmap nat Obj) (n : nat) : VM :=
  mkVM (frames s) (frameCount s) (stack s) (stackTop s) (globals s) (globalPerms s)
       (strings s) (openUpvalues s) (bytesAllocated s) (nextGC s) objs h n
       (compilerRoots s) (output s).

Definition emit (s : VM) (o : Output) : VM :=
  mkVM (frames s) (frameCount s) (stack s) (stackTop s) (globals s) (globalPerms s)
       (strings s) (openUpvalues s) (bytesAllocated s) (nextGC s) (objects s) (heap s)
       (nextId s) (compilerRoots s) (output s ++ [o]).

Definition upd {A} (f : Z -> A) (i : Z) (x : A) : Z -> A :=
  fun j => if Z.eqb j i then x else f j.

(** ** Value stack ([vm.c]: [push], [pop], [peek], [resetStack]) *)

Definition push (s : VM) (v : Value) : VM :=
  set_stack s (upd (stack s) (stackTop s) v) (stackTop s + 1).

Definition pop (s : VM) : Value * VM :=
  (stack s (stackTop s - 1), set_stack s (stack s) (stackTop s - 1)).

Definition peek (s : VM) (distance : Z) : Value :=
  stack s (stackTop s - 1 - distance).

Definition resetStack (s : VM) : VM :=
  set_openUpvalues (set_frames (set_stack s (stack s) 0) (frames s) 0) [].

(** ** The collector ([memory.c]) *)

(** [common.h] leaves [DEBUG_STRESS_GC] undefined. *)
Definition DEBUG_STRESS_GC : bool := false.

(** An address outside the heap stands for the [NULL] pointer, on which
    [markObject] returns at once. *)
Definition markObject (s : VM) (o : nat) : VM :=
  match heap s !! o with
  | Some ob => set_heap (emit s (OUT_GC_MARK o)) (<[o := mkObj true (body ob)]> (heap s))
  | None => s
  end.

Definition markValue (s : VM) (v : Value) : VM :=
  match v with VAL_OBJ o => markObject s o | _ => s end.

(** Modelled from the spec: [markTable] is called by [markRoots] but is
    defined nowhere in the repository; it marks the key object and the value
    of every entry. *)
Definition markTable (s : VM) (t : Tbl.Table) : VM :=
  fold_left (fun s e =>
    let s1 := match Tbl.key e with Some k => markObject s (sid k) | None => s end in
    markValue s1 (Tbl.value e)) (Tbl.entries t) s.

Definition markCompilerRoots (s : VM) : VM :=
  fold_left markObject (compilerRoots s) s.

Definition markRoots (s : VM) : VM :=
  let s1 := fold_left (fun s slot => markValue s (stack s slot)) (seqZ 0 (stackTop s)) s in
  let s2 := fold_left (fun s i => markObject s (closure (frames s i))) (seqZ 0 (frameCount s)) s1 in
  let s3 := fold_left markObject (openUpvalues s2) s2 in
  let s4 := markTable s3 (globals s3) in
  markCompilerRoots s4.

Definition collectGarbage (s : VM) : VM :=
  let s1 := emit s OUT_GC_BEGIN in
  let s2 := markRoots s1 in
  emit s2 OUT_GC_END.

(** [reallocate]'s effect on the VM: a collection on growth when
    [DEBUG_STRESS_GC] is defined; [malloc], [realloc] and [free] act on
    memory outside the VM state. *)
Definition reallocate (s : VM) (oldSize newSize : Z) : VM :=
  if (oldSize <? newSize) && DEBUG_STRESS_GC then collectGarbage s else s.

(** ** Allocation and strings ([object.c]) *)

(** The size passed to [reallocate] by [ALLOCATE_OBJ]: the model does
    not compute [sizeof]; only the size's being positive matters to the VM
    state, and the allocation log prints it. *)
Definition OBJ_SIZE : Z := 1.

(** The [ObjType] enum of [object.h]. *)
Definition obj_type (b : ObjBody) : Z :=
  match b with
  | OBJ_BOUND_METHOD _ _ => 0 | OBJ_CLASS _ _ => 1 | OBJ_CLOSURE _ _ _ => 2
  | OBJ_FUNCTION _ => 3 | OBJ_INSTANCE _ _ => 4 | OBJ_NATIVE _ => 5
  | OBJ_STRING _ => 6 | OBJ_LIST _ => 7 | OBJ_UPVALUE _ _ => 8
  end.

Definition allocateObject (s : VM) (size : Z) (mk : nat -> ObjBody) : VM * nat :=
  let s1 := reallocate s 0 size in
  let o := nextId s1 in
  let s2 := set_alloc s1 (o :: objects s1) (<[o := mkObj false (mk o)]> (heap s1)) (S o) in
  (emit s2 (OUT_GC_ALLOCATE o size (obj_type (mk o))), o).

(** FNV-1a over the bytes, in 32-bit unsigned arithmetic. *)
Definition hashString (cs : string) : Z :=
  fold_left (fun h c => (Z.lxor h (Z.of_nat (Ascii.nat_of_ascii c)) * 16777619) mod 2^32)
    (String.list_ascii_of_string cs) 2166136261.

Definition allocateString (s : VM) (cs : string) (len h : Z) : VM * nat :=
  let '(s1, o) := allocateObject s OBJ_SIZE (fun o => OBJ_STRING (mkObjString o len cs h)) in
  let s2 := push s1 (OBJ_VAL o) in
  let s3 := set_strings s2 (fst (Tbl.tableSet (strings s2) (mkObjString o len cs h) NIL_VAL)) in
  (snd (pop s3), o).

Definition takeString (s : VM) (cs : string) (len : Z) : VM * nat :=
  let h := hashString cs in
  match Tbl.tableFindString (strings s) cs len h with
  | Some interned => (reallocate s (len + 1) 0, sid interned)
  | None => allocateString s cs len h
  end.

Definition copyString (s : VM) (cs : string) (len : Z) : VM * nat :=
  let h := hashString cs in
  match Tbl.tableFindString (strings s) cs len h with
  | Some interned => (s, sid interned)
  | None => allocateString (reallocate s 0 (len + 1)) cs len h
  end.

Definition newUpvalue (s : VM) (slot : Z) : VM * nat :=
  allocateObject s OBJ_SIZE (fun _ => OBJ_UPVALUE (LOC_STACK slot) NIL_VAL).

(** [None] when [function] is not a function object. *)
Definition newClosure (s : VM) (fid : nat) : option (VM * nat) :=
  match heap s !! fid with
  | Some (mkObj _ (OBJ_FUNCTION f)) =>
      let s1 := reallocate s 0 (upvalueCount f) in
      Some (allocateObject s1 OBJ_SIZE
              (fun _ => OBJ_CLOSURE fid (repeat None (Z.to_nat (upvalueCount f))) (upvalueCount f)))
  | _ => None
  end.

Definition newNative (s : VM) (function : NativeFn) : VM * nat :=
  allocateObject s OBJ_SIZE (fun _ => OBJ_NATIVE function).

(** [newFunction]; the [lines] and [constants] of the chunk, which
    [initChunk] does not set, start empty. *)
Definition newFunction (s : VM) : VM * nat :=
  allocateObject s OBJ_SIZE (fun _ => OBJ_FUNCTION (mkFunction 0 0 (initChunk (mkChunk 0 0 [] [] [])) None)).

(** ** Heap lookups behind the [AS_*] and [IS_*] macros of [object.h] *)

Definition AS_STRING (s : VM) (v : Value) : option ObjString :=
  match v with
  | VAL_OBJ o => match heap s !! o with Some (mkObj _ (OBJ_STRING str)) => Some str | _ => None end
  | _ => None
  end.

Definition IS_STRING (s : VM) (v : Value) : bool :=
  match AS_STRING s v with Some _ => true | None => false end.

Definition frame_function (s : VM) (fr : CallFrame) : option ObjFunction :=
  match heap s !! closure fr with
  | Some (mkObj _ (OBJ_CLOSURE fid _ _)) =>
      match heap s !! fid with Some (mkObj _ (OBJ_FUNCTION f)) => Some f | _ => None end
  | _ => None
  end.

(** ** Runtime errors ([vm.c]: [runtimeError]) *)

(** One line of the stack trace: [function->chunk.lines[instruction]] and the
    function's name, or [script] for the top level. *)
Definition trace_line (s : VM) (i : Z) : Output :=
  let fr := frames s i in
  match frame_function s fr with
  | Some f =>
      OUT_TRACE (lines (chunk f) !! Z.to_nat (ip fr - 1))
        (match name f with
         | None => "script"
         | Some n => match AS_STRING s (VAL_OBJ n) with Some str => chars str | None => EmptyString end
         end)
  | None => OUT_TRACE None EmptyString
  end.

Definition runtimeError (s : VM) (msg : string) : VM :=
  let s1 := emit s (OUT_ERROR msg) in
  let s2 := fold_left (fun s i => emit s (trace_line s i)) (rev (seqZ 0 (frameCount s))) s1 in
  resetStack s2.

(** ** Truthiness and equality *)

Definition isFalsey (v : Value) : bool :=
  IS_NIL v || (IS_BOOL v && negb (AS_BOOL v)).

(** Modelled from the spec: [valuesEqual] is declared in [value.h] but
    [value.c] is not part of the repository.  Nil equals nil, booleans
    compare structurally, numbers by IEEE-754 equality, objects by
    identity. *)
Definition valuesEqual (a b : Value) : bool :=
  match a, b with
  | VAL_NIL, VAL_NIL => true
  | VAL_BOOL x, VAL_BOOL y => Bool.eqb x y
  | VAL_NUMBER x, VAL_NUMBER y => PrimFloat.eqb x y
  | VAL_OBJ x, VAL_OBJ y => Nat.eqb x y
  | _, _ => false
  end.

(** ** String concatenation ([vm.c]: [concatenate]) *)

Definition concatenate (s : VM) : option VM :=
  let '(bv, s1) := pop s in
  let '(av, s2) := pop s1 in
  a ← AS_STRING s2 av;
  b ← AS_STRING s2 bv;
  let len := ObjStr.length a + ObjStr.length b in
  let s3 := reallocate s2 0 (len + 1) in
  let '(s4, result) := takeString s3 (chars a +:+ chars b) len in
  Some (push s4 (OBJ_VAL result)).

(** ** Calls ([vm.c]: [call], [callValue]).  [None] stands for a heap
    that does not hold the objects the C code dereferences. *)

Definition call (s : VM) (cl : nat) (argCount : Z) : option (VM * bool) :=
  match heap s !! cl with
  | Some (mkObj _ (OBJ_CLOSURE fid _ _)) =>
      match heap s !! fid with
      | Some (mkObj _ (OBJ_FUNCTION f)) =>
          if negb (argCount =? arity f) then
            Some (runtimeError s ("Expected " +:+ pretty (arity f) +:+ " arguments but got "
                                   +:+ pretty argCount +:+ "."), false)
          else if frameCount s =? FRAMES_MAX then
            Some (runtimeError s "Stack overflow.", false)
          else
            let fr := mkFrame cl 0 (stackTop s - argCount - 1) in
            Some (set_frames s (upd (frames s) (frameCount s) fr) (frameCount s + 1), true)
      | _ => None
      end
  | _ => None
  end.

Definition callValue (s : VM) (callee : Value) (argCount : Z) : option (VM * bool) :=
  let fail := Some (runtimeError s "Can only call functions and classes.", false) in
  match callee with
  | VAL_OBJ o =>
      match heap s !! o with
      | Some (mkObj _ (OBJ_CLOSURE _ _ _)) => call s o argCount
      | Some (mkObj _ (OBJ_NATIVE native)) =>
          let args := map (fun i => stack s (stackTop s - argCount + i)) (seqZ 0 argCount) in
          let result := native argCount args in
          Some (push (set_stack s (stack s) (stackTop s - (argCount + 1))) result, true)
      | _ => fail
      end
  | _ => fail
  end.

(** ** Upvalues ([vm.c]: [captureUpvalue], [closeUpvalues])

    Stack addresses compare as slot indices.  The open list only holds open
    upvalues; a closed location (a heap address) is not compared with a
    stack slot. *)

Definition upvalue_slot (s : VM) (u : nat) : option Z :=
  match heap s !! u with
  | Some (mkObj _ (OBJ_UPVALUE (LOC_STACK slot) _)) => Some slot
  | _ => None
  end.

(** The walk of [captureUpvalue]: the upvalues passed over (those whose
    location is above [local]) and the rest of the list, starting at
    [upvalue]. *)
Fixpoint split_open (s : VM) (l : list nat) (local : Z) : list nat * list nat :=
  match l with
  | [] => ([], [])
  | u :: rest =>
      match upvalue_slot s u with
      | Some slot =>
          if local <? slot then let '(p, r) := split_open s rest local in (u :: p, r)
          else ([], l)
      | None => ([], l)
      end
  end.

Definition captureUpvalue (s : VM) (local : Z) : VM * nat :=
  let '(prev, rest) := split_open s (openUpvalues s) local in
  let create :=
    let '(s1, created) := newUpvalue s local in
    (set_openUpvalues s1 (prev ++ created :: rest), created) in
  match rest with
  | u :: _ => if bool_decide (upvalue_slot s u = Some local) then (s, u) else create
  | [] => create
  end.

Fixpoint closeUpvalues_loop (s : VM) (l : list nat) (last : Z) : VM :=
  match l with
  | u :: rest =>
      match heap s !! u with
      | Some (mkObj m (OBJ_UPVALUE (LOC_STACK slot) _)) =>
          if last <=? slot then
            let s1 := set_heap s (<[u := mkObj m (OBJ_UPVALUE LOC_CLOSED (stack s slot))]> (heap s)) in
            closeUpvalues_loop (set_openUpvalues s1 rest) rest last
          else s
      | _ => s
      end
  | [] => s
  end.

Definition closeUpvalues (s : VM) (last : Z) : VM :=
  closeUpvalues_loop s (openUpvalues s) last.

(** [frame->closure->upvalues[slot]]: [None] when the slot is out of the
    array or holds [NULL]. *)
Definition frame_upvalue (s : VM) (fi slot : Z) : option nat :=
  match heap s !! closure (frames s fi) with
  | Some (mkObj _ (OBJ_CLOSURE _ ups _)) =>
      match ups !! Z.to_nat slot with Some (Some u) => Some u | _ => None end
  | _ => None
  end.

(** [*upvalue->location]: the stack slot of an open upvalue, the
    [closed] field of a closed one. *)
Definition upvalue_get (s : VM) (u : nat) : option Value :=
  match heap s !! u with
  | Some (mkObj _ (OBJ_UPVALUE (LOC_STACK slot) _)) => Some (stack s slot)
  | Some (mkObj _ (OBJ_UPVALUE LOC_CLOSED v)) => Some v
  | _ => None
  end.

(** [*upvalue->location = v]. *)
Definition upvalue_set (s : VM) (u : nat) (v : Value) : option VM :=
  match heap s !! u with
  | Some (mkObj _ (OBJ_UPVALUE (LOC_STACK slot) _)) =>
      Some (set_stack s (upd (stack s) slot v) (stackTop s))
  | Some (mkObj m (OBJ_UPVALUE LOC_CLOSED _)) =>
      Some (set_heap s (<[u := mkObj m (OBJ_UPVALUE LOC_CLOSED v)]> (heap s)))
  | _ => None
  end.

(** ** The dispatch loop ([vm.c]: [run])

    The opcodes are those of the [OpCode] enum of [chunk.h], numbered as
    there, followed by the four that [run] has a [case] for but [chunk.h]
    does not declare: [OP_GET_UPVALUE], [OP_SET_UPVALUE], [OP_CLOSURE] and
    [OP_CLOSE_UPVALUE], placed after [OP_RETURN] in the order of [run]'s
    [switch].  [OP_DEFINE_GLOBAL_PERM], which [compiler.c] emits, has no
    [case] in [run] and no constructor here. *)

Inductive OpCode : Type :=
| OP_CONSTANT | OP_NIL | OP_TRUE | OP_FALSE | OP_POP
| OP_GET_LOCAL | OP_SET_LOCAL | OP_GET_GLOBAL | OP_DEFINE_GLOBAL | OP_SET_GLOBAL
| OP_EQUAL | OP_GREATER | OP_LESS | OP_ADD | OP_SUBTRACT | OP_MULTIPLY | OP_DIVIDE
| OP_NOT | OP_NEGATE | OP_PRINT | OP_JUMP | OP_JUMP_IF_FALSE | OP_LOOP | OP_CALL
| OP_RETURN
| OP_GET_UPVALUE | OP_SET_UPVALUE | OP_CLOSURE | OP_CLOSE_UPVALUE.

Definition opcodes : list OpCode :=
  [OP_CONSTANT; OP_NIL; OP_TRUE; OP_FALSE; OP_POP;
   OP_GET_LOCAL; OP_SET_LOCAL; OP_GET_GLOBAL; OP_DEFINE_GLOBAL; OP_SET_GLOBAL;
   OP_EQUAL; OP_GREATER; OP_LESS; OP_ADD; OP_SUBTRACT; OP_MULTIPLY; OP_DIVIDE;
   OP_NOT; OP_NEGATE; OP_PRINT; OP_JUMP; OP_JUMP_IF_FALSE; OP_LOOP; OP_CALL;
   OP_RETURN;
   OP_GET_UPVALUE; OP_SET_UPVALUE; OP_CLOSURE; OP_CLOSE_UPVALUE].

(** A byte outside the enum matches no [case] of the [switch]. *)
Definition decode (b : Z) : option OpCode :=
  if b <? 0 then None else opcodes !! Z.to_nat b.

Inductive Step : Type :=
| Continue (s : VM) (frame : Z)
| Halt (r : InterpretResult) (s : VM)
| Stuck (s : VM).

Definition set_ip (s : VM) (fi : Z) (newIp : Z) : VM :=
  let fr := frames s fi in
  set_frames s (upd (frames s) fi (mkFrame (closure fr) newIp (slots fr))) (frameCount s).

Definition READ_BYTE (s : VM) (fi : Z) : option (Z * VM) :=
  let fr := frames s fi in
  f ← frame_function s fr;
  if ip fr <? 0 then None else
  b ← code (chunk f) !! Z.to_nat (ip fr);
  Some (b, set_ip s fi (ip fr + 1)).

Definition READ_CONSTANT (s : VM) (fi : Z) : option (Value * VM) :=
  '(i, s1) ← READ_BYTE s fi;
  f ← frame_function s1 (frames s1 fi);
  v ← constants (chunk f) !! Z.to_nat i;
  Some (v, s1).

Definition READ_STRING (s : VM) (fi : Z) : option (ObjString * VM) :=
  '(v, s1) ← READ_CONSTANT s fi;
  str ← AS_STRING s1 v;
  Some (str, s1).

Definition READ_SHORT (s : VM) (fi : Z) : option (Z * VM) :=
  '(hi, s1) ← READ_BYTE s fi;
  '(lo, s2) ← READ_BYTE s1 fi;
  Some (Z.lor (Z.shiftl hi 8) lo, s2).

(** [BINARY_OP(valueType, op)] with [op] applied to [a] and [b]. *)
Definition BINARY_OP (s : VM) (op : float -> float -> Value) : VM :=
  let s1 := if negb (IS_NUMBER (peek s 0)) || negb (IS_NUMBER (peek s 1))
            then runtimeError s "Operands must be numbers." else s in
  let '(b, s2) := pop s1 in
  let '(a, s3) := pop s2 in
  push s3 (op (AS_NUMBER a) (AS_NUMBER b)).

(** The loop of [OP_CLOSURE] from upvalue [i] on, [n] iterations left:
    two operand bytes per upvalue, a captured slot of the frame or an
    upvalue of the enclosing closure, stored in [closure->upvalues[i]]. *)
Fixpoint closure_upvalues (n : nat) (s : VM) (fi : Z) (cl : nat) (i : Z) : option VM :=
  match n with
  | O => Some s
  | S n' =>
      '(isLocal, s1) ← READ_BYTE s fi;
      '(index, s2) ← READ_BYTE s1 fi;
      '(s3, u) ← (if negb (isLocal =? 0)
                  then let '(s3, u) := captureUpvalue s2 (slots (frames s2 fi) + index) in Some (s3, Some u)
                  else match heap s2 !! closure (frames s2 fi) with
                       | Some (mkObj _ (OBJ_CLOSURE _ ups _)) => u ← ups !! Z.to_nat index; Some (s2, u)
                       | _ => None
                       end);
      match heap s3 !! cl with
      | Some (mkObj m (OBJ_CLOSURE fid ups cnt)) =>
          let s4 := set_heap s3 (<[cl := mkObj m (OBJ_CLOSURE fid (<[Z.to_nat i := u]> ups) cnt)]> (heap s3)) in
          closure_upvalues n' s4 fi cl (i + 1)
      | _ => None
      end
  end.

Definition execute (s : VM) (fi : Z) (op : OpCode) : option Step :=
  match op with
  | OP_CONSTANT => '(v, s1) ← READ_CONSTANT s fi; Some (Continue (push s1 v) fi)
  | OP_NIL => Some (Continue (push s NIL_VAL) fi)
  | OP_TRUE => Some (Continue (push s (BOOL_VAL true)) fi)
  | OP_FALSE => Some (Continue (push s (BOOL_VAL false)) fi)
  | OP_POP => Some (Continue (snd (pop s)) fi)
  | OP_GET_LOCAL =>
      '(slot, s1) ← READ_BYTE s fi;
      Some (Continue (push s1 (stack s1 (slots (frames s1 fi) + slot))) fi)
  | OP_SET_LOCAL =>
      '(slot, s1) ← READ_BYTE s fi;
      Some (Continue (set_stack s1 (upd (stack s1) (slots (frames s1 fi) + slot) (peek s1 0))
                        (stackTop s1)) fi)
  | OP_GET_GLOBAL =>
      '(nm, s1) ← READ_STRING s fi;
      match Tbl.tableGet (globals s1) nm with
      | None => Some (Halt INTERPRET_RUNTIME_ERROR
                        (runtimeError s1 ("Undefined variable '" +:+ chars nm +:+ "'.")))
      | Some v => Some (Continue (push s1 v) fi)
      end
  | OP_DEFINE_GLOBAL =>
      '(nm, s1) ← READ_STRING s fi;
      let s2 := set_globals s1 (fst (Tbl.tableSet (globals s1) nm (peek s1 0))) in
      Some (Continue (snd (pop s2)) fi)
  | OP_SET_GLOBAL =>
      '(nm, s1) ← READ_STRING s fi;
      let '(g, isNewKey) := Tbl.tableSet (globals s1) nm (peek s1 0) in
      if isNewKey then
        let s2 := set_globals s1 (fst (Tbl.tableDelete g nm)) in
        Some (Halt INTERPRET_RUNTIME_ERROR
                (runtimeError s2 ("Undefined variable '" +:+ chars nm +:+ "'.")))
      else Some (Continue (set_globals s1 g) fi)
  | OP_EQUAL =>
      let '(b, s1) := pop s in
      let '(a, s2) := pop s1 in
      Some (Continue (push s2 (BOOL_VAL (valuesEqual a b))) fi)
  | OP_GREATER => Some (Continue (BINARY_OP s (fun a b => BOOL_VAL (PrimFloat.ltb b a))) fi)
  | OP_LESS => Some (Continue (BINARY_OP s (fun a b => BOOL_VAL (PrimFloat.ltb a b))) fi)
  | OP_ADD =>
      if IS_STRING s (peek s 0) && IS_STRING s (peek s 1) then
        s1 ← concatenate s; Some (Continue s1 fi)
      else if IS_NUMBER (peek s 0) && IS_NUMBER (peek s 1) then
        let '(b, s1) := pop s in
        let '(a, s2) := pop s1 in
        Some (Continue (push s2 (NUMBER_VAL (PrimFloat.add (AS_NUMBER b) (AS_NUMBER a)))) fi)
      else
        Some (Halt INTERPRET_RUNTIME_ERROR
                (runtimeError s "Operands must be two numbers or two strings"))
  | OP_SUBTRACT => Some (Continue (BINARY_OP s (fun a b => NUMBER_VAL (PrimFloat.sub a b))) fi)
  | OP_MULTIPLY => Some (Continue (BINARY_OP s (fun a b => NUMBER_VAL (PrimFloat.mul a b))) fi)
  | OP_DIVIDE => Some (Continue (BINARY_OP s (fun a b => NUMBER_VAL (PrimFloat.div a b))) fi)
  | OP_NOT =>
      let '(v, s1) := pop s in
      Some (Continue (push s1 (BOOL_VAL (isFalsey v))) fi)
  | OP_NEGATE =>
      if negb (IS_NUMBER (peek s 0)) then
        Some (Halt INTERPRET_RUNTIME_ERROR (runtimeError s "Operand must be a number."))
      else
        let '(v, s1) := pop s in
        Some (Continue (push s1 (NUMBER_VAL (PrimFloat.opp (AS_NUMBER v)))) fi)
  | OP_PRINT =>
      let '(v, s1) := pop s in
      Some (Continue (emit s1 (OUT_PRINT v)) fi)
  | OP_JUMP =>
      '(offset, s1) ← READ_SHORT s fi;
      Some (Continue (set_ip s1 fi (ip (frames s1 fi) + offset)) fi)
  | OP_JUMP_IF_FALSE =>
      '(offset, s1) ← READ_SHORT s fi;
      if isFalsey (peek s1 0) then Some (Continue (set_ip s1 fi (ip (frames s1 fi) + offset)) fi)
      else Some (Continue s1 fi)
  | OP_LOOP =>
      '(offset, s1) ← READ_SHORT s fi;
      Some (Continue (set_ip s1 fi (ip (frames s1 fi) - offset)) fi)
  | OP_CALL =>
      '(argCount, s1) ← READ_BYTE s fi;
      r ← callValue s1 (peek s1 argCount) argCount;
      let '(s2, succeeded) := r in
      if (succeeded : bool) then Some (Continue s2 (frameCount s2 - 1))
      else Some (Halt INTERPRET_RUNTIME_ERROR s2)
  | OP_RETURN =>
      let '(result, s1) := pop s in
      let fr := frames s1 fi in
      let s2 := closeUpvalues s1 (slots fr) in
      let s3 := set_frames s2 (frames s2) (frameCount s2 - 1) in
      if frameCount s3 =? 0 then Some (Halt INTERPRET_OK (snd (pop s3)))
      else
        let s4 := push (set_stack s3 (stack s3) (slots fr)) result in
        Some (Continue s4 (frameCount s4 - 1))
  | OP_GET_UPVALUE =>
      '(slot, s1) ← READ_BYTE s fi;
      u ← frame_upvalue s1 fi slot;
      v ← upvalue_get s1 u;
      Some (Continue (push s1 v) fi)
  | OP_SET_UPVALUE =>
      '(slot, s1) ← READ_BYTE s fi;
      u ← frame_upvalue s1 fi slot;
      s2 ← upvalue_set s1 u (peek s1 0);
      Some (Continue s2 fi)
  | OP_CLOSURE =>
      '(v, s1) ← READ_CONSTANT s fi;
      fid ← (match v with VAL_OBJ o => Some o | _ => None end);
      '(s2, cl) ← newClosure s1 fid;
      let s3 := push s2 (OBJ_VAL cl) in
      match heap s3 !! cl with
      | Some (mkObj _ (OBJ_CLOSURE _ _ cnt)) =>
          s4 ← closure_upvalues (Z.to_nat cnt) s3 fi cl 0;
          Some (Continue s4 fi)
      | _ => None
      end
  | OP_CLOSE_UPVALUE =>
      let s1 := closeUpvalues s (stackTop s - 1) in
      Some (Continue (snd (pop s1)) fi)
  end.

(** One turn of the [for (;;)] loop, with [frame] the index of the cached
    [frame] pointer.  The stack and instruction dump that
    [DEBUG_TRACE_EXECUTION] prints before each instruction is not
    modelled. *)
Definition step (s : VM) (fi : Z) : Step :=
  match READ_BYTE s fi with
  | None => Stuck s
  | Some (instruction, s1) =>
      match decode instruction with
      | None => Continue s1 fi
      | Some op => match execute s1 fi op with Some r => r | None => Stuck s1 end
      end
  end.

Fixpoint run (fuel : nat) (s : VM) (fi : Z) : Step :=
  match fuel with
  | O => Continue s fi
  | S n => match step s fi with Continue s' fi' => run n s' fi' | r => r end
  end.

(** ** The scanner ([scanner.h], [scanner.c])

    The token kinds are those of [scanner.h] together with the kinds that
    [scanner.c] ([TOKEN_BREAK], [TOKEN_CONTINUE], [TOKEN_PERM]) and the
    parse table of [compiler.c] ([TOKEN_LEFT_BRACKET], [TOKEN_RIGHT_BRACKET],
    [TOKEN_COLON]) refer to. *)

Inductive TokenType : Type :=
| TOKEN_LEFT_PAREN | TOKEN_RIGHT_PAREN
| TOKEN_LEFT_BRACE | TOKEN_RIGHT_BRACE
| TOKEN_LEFT_BRACKET | TOKEN_RIGHT_BRACKET
| TOKEN_COMMA | TOKEN_DOT | TOKEN_MINUS | TOKEN_PLUS
| TOKEN_SEMICOLON | TOKEN_COLON | TOKEN_SLASH | TOKEN_STAR
| TOKEN_BANG | TOKEN_BANG_EQUAL
| TOKEN_EQUAL | TOKEN_EQUAL_EQUAL
| TOKEN_GREATER | TOKEN_GREATER_EQUAL
| TOKEN_LESS | TOKEN_LESS_EQUAL
| TOKEN_IDENTIFIER | TOKEN_STRING | TOKEN_NUMBER
| TOKEN_AND | TOKEN_BREAK | TOKEN_CLASS | TOKEN_CONTINUE | TOKEN_ELSE | TOKEN_FALSE
| TOKEN_FOR | TOKEN_FUN | TOKEN_IF | TOKEN_NIL | TOKEN_OR | TOKEN_PERM
| TOKEN_PRINT | TOKEN_RETURN | TOKEN_SUPER | TOKEN_THIS
| TOKEN_TRUE | TOKEN_VAR | TOKEN_WHILE
| TOKEN_ERROR | TOKEN_EOF.

#[global] Instance TokenType_eq_dec : EqDecision TokenType.
Proof. solve_decision. Defined.

(** A token's lexeme: the slice [start, start + length) of the source, or
    the message of an error token. *)
Record Token : Type := mkToken { type : TokenType; lexeme : string; tline : Z }.

Record Scanner : Type := mkScanner { start : Z; current : Z; line : Z }.

Definition initScanner : Scanner := mkScanner 0 0 1.

Section Scanning.

(** The NUL-terminated source buffer. *)
Variable source : string.

Definition char_at (i : Z) : ascii :=
  if i <? 0 then "000"%char
  else match String.get (Z.to_nat i) source with Some c => c | None => "000"%char end.

Definition fuel : nat := S (String.length source).

Definition code_of (c : ascii) : Z := Z.of_nat (Ascii.nat_of_ascii c).

Definition isAlpha (c : ascii) : bool :=
  ((code_of "a" <=? code_of c) && (code_of c <=? code_of "z")) ||
  ((code_of "A" <=? code_of c) && (code_of c <=? code_of "Z")) ||
  Ascii.eqb c "_".

Definition isDigit (c : ascii) : bool :=
  (code_of "0" <=? code_of c) && (code_of c <=? code_of "9").

Definition isAtEnd (sc : Scanner) : bool := Ascii.eqb (char_at (current sc)) "000".

Definition advance (sc : Scanner) : ascii * Scanner :=
  (char_at (current sc), mkScanner (start sc) (current sc + 1) (line sc)).

Definition peek_char (sc : Scanner) : ascii := char_at (current sc).

Definition peekNext (sc : Scanner) : ascii :=
  if isAtEnd sc then "000"%char else char_at (current sc + 1).

Definition match_char (sc : Scanner) (expected : ascii) : bool * Scanner :=
  if isAtEnd sc then (false, sc)
  else if negb (Ascii.eqb (char_at (current sc)) expected) then (false, sc)
  else (true, mkScanner (start sc) (current sc + 1) (line sc)).

Definition makeToken (sc : Scanner) (ty : TokenType) : Token :=
  mkToken ty (substring (Z.to_nat (start sc)) (Z.to_nat (current sc - start sc)) source) (line sc).

Definition errorToken (sc : Scanner) (message : string) : Token :=
  mkToken TOKEN_ERROR message (line sc).

Fixpoint skipComment (n : nat) (sc : Scanner) : Scanner :=
  match n with
  | O => sc
  | S n' =>
      if negb (Ascii.eqb (peek_char sc) "010") && negb (isAtEnd sc)
      then skipComment n' (snd (advance sc)) else sc
  end.

Fixpoint skipWhitespace (n : nat) (sc : Scanner) : Scanner :=
  match n with
  | O => sc
  | S n' =>
      let c := peek_char sc in
      if Ascii.eqb c " " || Ascii.eqb c "013" || Ascii.eqb c "009" then
        skipWhitespace n' (snd (advance sc))
      else if Ascii.eqb c "010" then
        skipWhitespace n' (snd (advance (mkScanner (start sc) (current sc) (line sc + 1))))
      else if Ascii.eqb c "/" then
        if Ascii.eqb (peekNext sc) "/" then skipWhitespace n' (skipComment fuel sc)
        else sc
      else sc
  end.

Definition checkKeyword (sc : Scanner) (st len : Z) (rest : string) (ty : TokenType) : TokenType :=
  if (current sc - start sc =? st + len) &&
     String.eqb (substring (Z.to_nat (start sc + st)) (Z.to_nat len) source) rest
  then ty else TOKEN_IDENTIFIER.

(** The trie of [identifierType], with the [switch] fall-throughs of the
    ['c'] and ['p'] branches into the ['e'] and ['r'] branches. *)
Definition identifierType (sc : Scanner) : TokenType :=
  let c0 := char_at (start sc) in
  let c1 := char_at (start sc + 1) in
  let longer := 1 <? current sc - start sc in
  let case_e := checkKeyword sc 1 3 "lse" TOKEN_ELSE in
  let case_r := checkKeyword sc 1 5 "eturn" TOKEN_RETURN in
  if Ascii.eqb c0 "a" then checkKeyword sc 1 2 "nd" TOKEN_AND
  else if Ascii.eqb c0 "b" then checkKeyword sc 1 4 "reak" TOKEN_BREAK
  else if Ascii.eqb c0 "c" then
    if longer && Ascii.eqb c1 "l" then checkKeyword sc 2 3 "ass" TOKEN_CLASS
    else if longer && Ascii.eqb c1 "o" then checkKeyword sc 2 6 "ntinue" TOKEN_CONTINUE
    else case_e
  else if Ascii.eqb c0 "e" then case_e
  else if Ascii.eqb c0 "f" then
    if longer && Ascii.eqb c1 "a" then checkKeyword sc 2 3 "lse" TOKEN_FALSE
    else if longer && Ascii.eqb c1 "o" then checkKeyword sc 2 1 "r" TOKEN_FOR
    else if longer && Ascii.eqb c1 "u" then checkKeyword sc 2 1 "n" TOKEN_FUN
    else TOKEN_IDENTIFIER
  else if Ascii.eqb c0 "i" then checkKeyword sc 1 1 "f" TOKEN_IF
  else if Ascii.eqb c0 "n" then checkKeyword sc 1 2 "il" TOKEN_NIL
  else if Ascii.eqb c0 "o" then checkKeyword sc 1 1 "r" TOKEN_OR
  else if Ascii.eqb c0 "p" then
    if longer && Ascii.eqb c1 "e" then checkKeyword sc 2 2 "rm" TOKEN_PERM
    else if longer && Ascii.eqb c1 "r" then checkKeyword sc 2 3 "int" TOKEN_PRINT
    else case_r
  else if Ascii.eqb c0 "r" then case_r
  else if Ascii.eqb c0 "s" then checkKeyword sc 1 4 "uper" TOKEN_SUPER
  else if Ascii.eqb c0 "t" then
    if longer && Ascii.eqb c1 "h" then checkKeyword sc 2 2 "is" TOKEN_THIS
    else if longer && Ascii.eqb c1 "r" then checkKeyword sc 2 2 "ue" TOKEN_TRUE
    else TOKEN_IDENTIFIER
  else if Ascii.eqb c0 "v" then checkKeyword sc 1 2 "ar" TOKEN_VAR
  else if Ascii.eqb c0 "w" then checkKeyword sc 1 4 "hile" TOKEN_WHILE
  else TOKEN_IDENTIFIER.

Fixpoint skipWhile (p : ascii -> bool) (n : nat) (sc : Scanner) : Scanner :=
  match n with
  | O => sc
  | S n' => if p (peek_char sc) then skipWhile p n' (snd (advance sc)) else sc
  end.

Definition identifier (sc : Scanner) : Token * Scanner :=
  let sc1 := skipWhile (fun c => isAlpha c || isDigit c) fuel sc in
  (makeToken sc1 (identifierType sc1), sc1).

Definition number (sc : Scanner) : Token * Scanner :=
  let sc1 := skipWhile isDigit fuel sc in
  let sc2 :=
    if Ascii.eqb (peek_char sc1) "." && isDigit (peekNext sc1)
    then skipWhile isDigit fuel (snd (advance sc1)) else sc1 in
  (makeToken sc2 TOKEN_NUMBER, sc2).

Fixpoint string_body (n : nat) (sc : Scanner) : Scanner :=
  match n with
  | O => sc
  | S n' =>
      if negb (Ascii.eqb (peek_char sc) "034"%char) && negb (isAtEnd sc) then
        let sc1 := if Ascii.eqb (peek_char sc) "010"
                   then mkScanner (start sc) (current sc) (line sc + 1) else sc in
        let sc2 := if Ascii.eqb (peek_char sc1) "\" then snd (advance sc1) else sc1 in
        string_body n' (snd (advance sc2))
      else sc
  end.

Definition string_lit (sc : Scanner) : Token * Scanner :=
  let sc1 := string_body fuel sc in
  if isAtEnd sc1 then (errorToken sc1 "Unterminated string.", sc1)
  else let sc2 := snd (advance sc1) in (makeToken sc2 TOKEN_STRING, sc2).

Definition scanToken (sc0 : Scanner) : Token * Scanner :=
  let sc1 := skipWhitespace fuel sc0 in
  let sc2 := mkScanner (current sc1) (current sc1) (line sc1) in
  if isAtEnd sc2 then (makeToken sc2 TOKEN_EOF, sc2) else
  let '(c, sc) := advance sc2 in
  if isAlpha c then identifier sc
  else if isDigit c then number sc
  else
  let two (ty2 ty1 : TokenType) :=
    let '(m, sc') := match_char sc "=" in (makeToken sc' (if m then ty2 else ty1), sc') in
  if Ascii.eqb c "(" then (makeToken sc TOKEN_LEFT_PAREN, sc)
  else if Ascii.eqb c ")" then (makeToken sc TOKEN_RIGHT_PAREN, sc)
  else if Ascii.eqb c "{" then (makeToken sc TOKEN_LEFT_BRACE, sc)
  else if Ascii.eqb c "}" then (makeToken sc TOKEN_RIGHT_BRACE, sc)
  else if Ascii.eqb c ";" then (makeToken sc TOKEN_SEMICOLON, sc)
  else if Ascii.eqb c "," then (makeToken sc TOKEN_COMMA, sc)
  else if Ascii.eqb c "." then (makeToken sc TOKEN_DOT, sc)
  else if Ascii.eqb c "-" then (makeToken sc TOKEN_MINUS, sc)
  else if Ascii.eqb c "+" then (makeToken sc TOKEN_PLUS, sc)
  else if Ascii.eqb c "/" then (makeToken sc TOKEN_SLASH, sc)
  else if Ascii.eqb c "*" then (makeToken sc TOKEN_STAR, sc)
  else if Ascii.eqb c "!" then two TOKEN_BANG_EQUAL TOKEN_BANG
  else if Ascii.eqb c "=" then two TOKEN_EQUAL_EQUAL TOKEN_EQUAL
  else if Ascii.eqb c "<" then two TOKEN_LESS_EQUAL TOKEN_LESS
  else if Ascii.eqb c ">" then two TOKEN_GREATER_EQUAL TOKEN_GREATER
  else if Ascii.eqb c "034"%char then string_lit sc
  else (errorToken sc "Unexpected character.", sc).

End Scanning.

(** ** Concrete machine states used by the examples *)

(** The state [interpret] builds for a top-level script whose chunk holds
    [bytes]: function at address 0, its closure at address 1, the closure in
    stack slot 0 and one call frame on it. *)
Definition script_state (bytes : list Z) (consts : list Value) (h : gmap nat Obj) : VM :=
  let f := mkFunction 0 0 (mkChunk (Z.of_nat (length bytes)) (Z.of_nat (length bytes)) bytes [] consts) None in
  mkVM (fun _ => mkFrame 1 0 0) 1 (upd (fun _ => NIL_VAL) 0 (OBJ_VAL 1)) 1
       Tbl.initTable Tbl.initTable Tbl.initTable [] 0 0 [1%nat; 0%nat]
       (<[0%nat := mkObj false (OBJ_FUNCTION f)]> (<[1%nat := mkObj false (OBJ_CLOSURE 0 [] 0)]> h))
       2 [] [].

(** The byte of an opcode: its number in the enum of [chunk.h], and the
    numbers after [OP_RETURN] for the four opcodes [chunk.h] does not
    declare. *)
Definition opbyte (op : OpCode) : Z :=
  match op with
  | OP_CONSTANT => 0 | OP_NIL => 1 | OP_TRUE => 2 | OP_FALSE => 3 | OP_POP => 4
  | OP_GET_LOCAL => 5 | OP_SET_LOCAL => 6 | OP_GET_GLOBAL => 7 | OP_DEFINE_GLOBAL => 8
  | OP_SET_GLOBAL => 9 | OP_EQUAL => 10 | OP_GREATER => 11 | OP_LESS => 12 | OP_ADD => 13
  | OP_SUBTRACT => 14 | OP_MULTIPLY => 15 | OP_DIVIDE => 16 | OP_NOT => 17 | OP_NEGATE => 18
  | OP_PRINT => 19 | OP_JUMP => 20 | OP_JUMP_IF_FALSE => 21 | OP_LOOP => 22 | OP_CALL => 23
  | OP_RETURN => 24
  | OP_GET_UPVALUE => 25 | OP_SET_UPVALUE => 26 | OP_CLOSURE => 27 | OP_CLOSE_UPVALUE => 28
  end.

(** [nil - nil; print true; return]. *)
Definition subtract_nil_program : list Z :=
  map opbyte [OP_NIL; OP_NIL; OP_SUBTRACT; OP_TRUE; OP_PRINT; OP_RETURN].

(** ** Mark bits *)

(** [h'] differs from [h] at most in mark bits, and only by setting them. *)
Definition heap_le (h h' : gmap nat Obj) : Prop :=
  (forall o, h !! o = None -> h' !! o = None) /\
  (forall o ob, h !! o = Some ob ->
     exists m, h' !! o = Some (mkObj m (body ob)) /\ (isMarked ob = true -> m = true)).

Definition marked (s : VM) (o : nat) : Prop :=
  exists b, heap s !! o = Some (mkObj true b).

(** [s] with the heap [h] and the lines [out] appended to its output. *)
Definition set_heap_output (s : VM) (h : gmap nat Obj) (out : list Output) : VM :=
  mkVM (frames s) (frameCount s) (stack s) (stackTop s) (globals s) (globalPerms s)
       (strings s) (openUpvalues s) (bytesAllocated s) (nextGC s) (objects s) h (nextId s)
       (compilerRoots s) (output s ++ out).

(** The heap after [markObject] on each address of [l] in turn. *)
Definition mark_heap (h : gmap nat Obj) (l : list nat) : gmap nat Obj :=
  fold_left (fun h o => match h !! o with Some ob => <[o := mkObj true (body ob)]> h | None => h end) l h.

(** The lines [markObject] prints for the addresses of [l]: one for each
    address of the heap, repeats included. *)
Definition mark_log (h : gmap nat Obj) (l : list nat) : list Output :=
  flat_map (fun o => match h !! o with Some _ => [OUT_GC_MARK o] | None => [] end) l.

(** ** Callable values *)


(** ** The entry of [interpret] ([vm.c]: [interpret]) *)

(** [interpret] once [compile] has returned the function at [fid]: the
    state [run] starts from, with [frame] at index [frameCount - 1]. *)
Definition interpret_function (s : VM) (fid : nat) : option VM :=
  let s1 := push s (OBJ_VAL fid) in
  '(s2, cl) ← newClosure s1 fid;
  let s3 := snd (pop s2) in
  let s4 := push s3 (OBJ_VAL cl) in
  '(s5, _) ← call s4 cl 0;
  Some s5.

(** [defineNative]; [None] when [vm.stack[0]] is not a string. *)
Definition defineNative (s : VM) (nm : string) (function : NativeFn) : option VM :=
  let '(s1, str) := copyString s nm (Z.of_nat (String.length nm)) in
  let s2 := push s1 (OBJ_VAL str) in
  let '(s3, native) := newNative s2 function in
  let s4 := push s3 (OBJ_VAL native) in
  k ← AS_STRING s4 (stack s4 0);
  let s5 := set_globals s4 (fst (Tbl.tableSet (globals s4) k (stack s4 1))) in
  Some (snd (pop (snd (pop s5)))).

(** [initVM], with [clockNative] the native it binds to [clock]. *)
Definition initVM (clockNative : NativeFn) (s : VM) : option VM :=
  let s1 := resetStack s in
  let s2 := set_alloc s1 [] (heap s1) (nextId s1) in
  let s3 := set_strings (set_globals s2 Tbl.initTable) Tbl.initTable in
  defineNative s3 "clock" clockNative.

(** The static [VM vm] before [initVM]: every field zero, a zero value
    being [false]. *)
Definition vm0 : VM :=
  mkVM (fun _ => mkFrame 0 0 0) 0 (fun _ => BOOL_VAL false) 0 Tbl.initTable Tbl.initTable
       Tbl.initTable [] 0 0 [] ∅ 0 [] [].

(** [clockNative] at a time [t] of [clock() / CLOCKS_PER_SEC]. *)
Definition clockNative_at (t : float) : NativeFn := fun _ _ => NUMBER_VAL t.

(** The writes of the compiler through [current->function] to the
    function object at [o] (its arity, upvalue count, chunk and name),
    given as the finished function [f]. *)
Definition store_function (s : VM) (o : nat) (f : ObjFunction) : VM :=
  match heap s !! o with
  | Some ob => set_heap s (<[o := mkObj (isMarked ob) (OBJ_FUNCTION f)]> (heap s))
  | None => s
  end.

(** A function as [compile] finishes it: [bytes] written by [writeChunk]
    after [initChunk], [consts] the constants appended by [addConstant]
    (declared in [chunk.h], defined nowhere in the repository: the
    constant array is modelled as a list). *)
Definition compiled_function (arity upvalueCount : Z) (bytes : list Z) (consts : list Value)
    (nm : option nat) : ObjFunction :=
  mkFunction arity upvalueCount (fold_left writeChunk bytes (mkChunk 0 0 [] [] consts)) nm.

(** One line of the REPL: [interpret] of the function that [compile]
    returns. *)
Definition repl_line (s : VM) (compile : VM -> VM * nat) : option VM :=
  let '(s1, fid) := compile s in interpret_function s1 fid.

Definition step_state (r : Step) : VM :=
  match r with Continue s _ | Halt _ s | Stuck s => s end.

(** The open-upvalue list [l] holds open upvalues whose stack slots
    strictly decrease, all below [b]. *)
Fixpoint decreasing_from (s : VM) (b : Z) (l : list nat) : Prop :=
  match l with
  | [] => True
  | u :: rest => exists slot, upvalue_slot s u = Some slot /\ slot < b /\ decreasing_from s slot rest
  end.

(** ** Invariant of the hash tables

    [occupied] entries (a key or a tombstone) stop no probe; [pos h d cap]
    is the slot [d] steps after the home slot of hash [h]. *)

Definition occupied (e : Tbl.Entry) : bool :=
  match Tbl.key e with Some _ => true | None => negb (IS_NIL (Tbl.value e)) end.

Definition pos (h d capacity : Z) : Z := (h + d) mod capacity.

(** The entries array of capacity [cap]: no two keys are the same string,
    and every key sits at the end of an unbroken run of occupied slots
    starting at its home slot. *)
Definition table_core (es : list Tbl.Entry) (cap : Z) : Prop :=
  length es = Z.to_nat cap /\
  (forall i j ki kj, 0 <= i < cap -> 0 <= j < cap ->
     Tbl.key (Tbl.entry_at es i) = Some ki -> Tbl.key (Tbl.entry_at es j) = Some kj ->
     sid ki = sid kj -> i = j) /\
  (forall i k, 0 <= i < cap -> Tbl.key (Tbl.entry_at es i) = Some k ->
     exists D, 0 <= D < cap /\ i = pos (hash k) D cap /\
       forall j, 0 <= j < D -> occupied (Tbl.entry_at es (pos (hash k) j cap)) = true).

Definition n_occupied (es : list Tbl.Entry) : Z :=
  Z.of_nat (length (List.filter occupied es)).

(** [count] counts keys and tombstones and stays within the 0.75 load
    factor. *)
Definition table_wf (t : Tbl.Table) : Prop :=
  table_core (Tbl.entries t) (Tbl.capacity t) /\ 0 <= Tbl.capacity t /\
  Tbl.count t = n_occupied (Tbl.entries t) /\ 4 * Tbl.count t <= 3 * Tbl.capacity t.

(** The bindings of a table, in slot order. *)
Definition bindings (es : list Tbl.Entry) : list (ObjString * Value) :=
  omap (fun e => k ← Tbl.key e; Some (k, Tbl.value e)) es.

(** Lookup by string identity in a binding list. *)
Definition lookup_binding (l : list (ObjString * Value)) (k : ObjString) : option Value :=
  option_map snd (List.find (fun kv => Nat.eqb (sid (fst kv)) (sid k)) l).

(** [k] is the only string record with its identity among the keys. *)
Definition key_consistent (t : Tbl.Table) (k : ObjString) : Prop :=
  forall kv, In kv (bindings (Tbl.entries t)) -> sid (fst kv) = sid k -> fst kv = k.

(** A freshly built array holds no tombstones. *)
Definition no_tombstones (es : list Tbl.Entry) (cap : Z) : Prop :=
  forall x, 0 <= x < cap -> Tbl.key (Tbl.entry_at es x) = None -> occupied (Tbl.entry_at es x) = false.

(** ** Interned strings *)

(** The string object at address [o], if any. *)
Definition string_view (s : VM) (o : nat) : option ObjString :=
  match heap s !! o with Some (mkObj _ (OBJ_STRING str)) => Some str | _ => None end.

(** The interning discipline of [vm.strings]: the table is well formed;
    every string object is a key of it, records its own address, its
    length and its FNV-1a hash; every key is a live string object; no
    object lives at or above [nextId]; and no two string objects have the
    same bytes. *)
Definition interned (s : VM) : Prop :=
  table_wf (strings s) /\
  (forall o str, string_view s o = Some str ->
     sid str = o /\ ObjStr.length str = Z.of_nat (String.length (chars str)) /\
     hash str = hashString (chars str) /\
     exists v, In (str, v) (bindings (Tbl.entries (strings s)))) /\
  (forall kv, In kv (bindings (Tbl.entries (strings s))) ->
     string_view s (sid (fst kv)) = Some (fst kv)) /\
  (forall o, (nextId s <= o)%nat -> heap s !! o = None) /\
  (forall o1 o2 a b, string_view s o1 = Some a -> string_view s o2 = Some b ->
     chars a = chars b -> o1 = o2).

(** [s'] has the string objects, the interning table and the allocation
    frontier of [s], and the same addresses in use. *)
Definition same_strs (s s' : VM) : Prop :=
  strings s' = strings s /\ nextId s' = nextId s /\
  (forall o, string_view s' o = string_view s o) /\
  (forall o, heap s' !! o = None <-> heap s !! o = None).

(** ** Byte arrays of chunks

    The shape [writeChunk] keeps: the live prefix fits in the allocation,
    and the allocated array is as long as the capacity. *)
Definition chunk_ok (c : Chunk) : Prop :=
  0 <= count c <= capacity c /\ length (code c) = Z.to_nat (capacity c).

(** ** The single-pass compiler ([compiler.c]) *)

(** [common.h] and [<stdint.h>]. *)
Definition UINT8_COUNT : Z := 256.
Definition UINT16_MAX : Z := 65535.

Module Cmp.

(** The updates of [current->function] done by the emitters and by
    [addUpvalue]; they come first because [Local] below has its own
    [name] field. *)
Definition set_chunk (f : ObjFunction) (ch : Chunk) : ObjFunction :=
  mkFunction (arity f) (upvalueCount f) ch (name f).

Definition set_upvalueCount (f : ObjFunction) (n : Z) : ObjFunction :=
  mkFunction (arity f) n (chunk f) (name f).

(** [Parser]. [errors] collects the lines [errorAt] prints to [stderr],
    without their final newline. *)
Record Parser : Type := mkParser {
  current : Token;
  previous : Token;
  hadError : bool;
  panicMode : bool;
  errors : list string
}.

Record Local : Type := mkLocal { name : Token; depth : Z; isCaptured : bool; isPerm : bool }.

Record Upvalue : Type := mkUpvalue { index : Z; isLocal : bool }.

(** The fields of [struct Compiler] the functions below read or write;
    the arrays [locals] and [upvalues] are functions of the index. *)
Record Compiler : Type := mkCompiler {
  function : ObjFunction;
  locals : Z -> Local;
  localCount : Z;
  upvalues : Z -> Upvalue;
  scopeDepth : Z
}.

Definition error_line (tok : Token) (message : string) : string :=
  "[line " +:+ pretty (tline tok) +:+ "] Error" +:+
  (match type tok with
   | TOKEN_EOF => " at end"
   | TOKEN_ERROR => EmptyString
   | _ => " at '" +:+ lexeme tok +:+ "'"
   end) +:+ ": " +:+ message.

Definition errorAt (p : Parser) (tok : Token) (message : string) : Parser :=
  if panicMode p then p
  else mkParser (current p) (previous p) true true (errors p ++ [error_line tok message]).

Definition error (p : Parser) (message : string) : Parser :=
  errorAt p (previous p) message.

Definition set_function (c : Compiler) (f : ObjFunction) : Compiler :=
  mkCompiler f (locals c) (localCount c) (upvalues c) (scopeDepth c).

Definition currentChunk (c : Compiler) : Chunk := chunk (function c).

(** [emitByte] passes [parser.previous.line] as a third argument, which
    the two-parameter [writeChunk] of [chunk.c] does not take. *)
Definition emitByte (c : Compiler) (byte : Z) : Compiler :=
  set_function c (set_chunk (function c) (writeChunk (currentChunk c) byte)).

Definition emitJump (c : Compiler) (instruction : Z) : Compiler * Z :=
  let c1 := emitByte (emitByte (emitByte c instruction) 255) 255 in
  (c1, count (currentChunk c1) - 2).

Definition patchJump (p : Parser) (c : Compiler) (offset : Z) : Parser * Compiler :=
  let jump := count (currentChunk c) - offset - 2 in
  let p1 := if UINT16_MAX <? jump then error p "Too much code to jump over." else p in
  let ch := currentChunk c in
  let code1 := <[Z.to_nat offset := Z.land (Z.shiftr jump 8) 255]> (code ch) in
  let code2 := <[Z.to_nat (offset + 1) := Z.land jump 255]> code1 in
  (p1, set_function c (set_chunk (function c)
         (mkChunk (count ch) (capacity ch) code2 (lines ch) (constants ch)))).

Definition emitLoop (p : Parser) (c : Compiler) (loopStart : Z) : Parser * Compiler :=
  let c1 := emitByte c (opbyte OP_LOOP) in
  let offset := count (currentChunk c1) - loopStart + 2 in
  let p1 := if UINT16_MAX <? offset then error p "Loop body too large." else p in
  (p1, emitByte (emitByte c1 (Z.land (Z.shiftr offset 8) 255)) (Z.land offset 255)).

Definition identifiersEqual (a b : Token) : bool :=
  Nat.eqb (String.length (lexeme a)) (String.length (lexeme b)) && String.eqb (lexeme a) (lexeme b).

(** The loop of [resolveLocal], from [localCount - 1] down to 0. *)
Fixpoint resolveLocal_loop (p : Parser) (c : Compiler) (nm : Token) (is : list Z) : Parser * Z :=
  match is with
  | [] => (p, -1)
  | i :: rest =>
      let local := locals c i in
      if identifiersEqual nm (name local) then
        ((if depth local =? -1 then error p "Can't read local variable in its own initializer." else p), i)
      else resolveLocal_loop p c nm rest
  end.

Definition resolveLocal (p : Parser) (c : Compiler) (nm : Token) : Parser * Z :=
  resolveLocal_loop p c nm (rev (seqZ 0 (localCount c))).

Definition addUpvalue (p : Parser) (c : Compiler) (idx : Z) (loc : bool) : Parser * Compiler * Z :=
  let n := upvalueCount (function c) in
  match List.find (fun i => (index (upvalues c i) =? idx) && Bool.eqb (isLocal (upvalues c i)) loc)
          (seqZ 0 n) with
  | Some i => (p, c, i)
  | None =>
      if n =? UINT8_COUNT then (error p "Too many closure variables in function.", c, 0)
      else
        (p, mkCompiler (set_upvalueCount (function c) (n + 1)) (locals c) (localCount c)
              (upd (upvalues c) n (mkUpvalue idx loc)) (scopeDepth c), n)
  end.

Definition addLocal (p : Parser) (c : Compiler) (nm : Token) (perm : bool) : Parser * Compiler :=
  if localCount c =? UINT8_COUNT then (error p "Too many local variables in function.", c)
  else (p, mkCompiler (function c) (upd (locals c) (localCount c) (mkLocal nm (-1) false perm))
              (localCount c + 1) (upvalues c) (scopeDepth c)).

(** The loop of [declareVariable], from [localCount - 1] down to 0; it
    stops at the first local with [depth != 1 && depth < scopeDepth]. *)
Fixpoint declare_scan (p : Parser) (c : Compiler) (nm : Token) (is : list Z) : Parser :=
  match is with
  | [] => p
  | i :: rest =>
      let local := locals c i in
      if negb (depth local =? 1) && (depth local <? scopeDepth c) then p
      else
        let p1 := if identifiersEqual nm (name local)
                  then error p "Already a variable with this name in this scope." else p in
        declare_scan p1 c nm rest
  end.

Definition declareVariable (p : Parser) (c : Compiler) (perm : bool) : Parser * Compiler :=
  if scopeDepth c =? 0 then (p, c)
  else
    let nm := previous p in
    let p1 := declare_scan p c nm (rev (seqZ 0 (localCount c))) in
    addLocal p1 c nm perm.

Definition emitBytes (c : Compiler) (byte1 byte2 : Z) : Compiler :=
  emitByte (emitByte c byte1) byte2.

Definition check (p : Parser) (ty : TokenType) : bool :=
  bool_decide (type (current p) = ty).

(** [compiler->locals[i].isCaptured = true]. *)
Definition set_captured (c : Compiler) (i : Z) : Compiler :=
  let l := locals c i in
  mkCompiler (function c) (upd (locals c) i (mkLocal (name l) (depth l) true (isPerm l)))
    (localCount c) (upvalues c) (scopeDepth c).

(** [resolveUpvalue] on the chain [cs] of compilers, [compiler] first
    and then the ones its [enclosing] fields reach; it returns the chain
    with the updates made to it. *)
Fixpoint resolveUpvalue (p : Parser) (cs : list Compiler) (nm : Token) : Parser * list Compiler * Z :=
  match cs with
  | c :: ((e :: rest) as enc) =>
      let '(p1, local) := resolveLocal p e nm in
      if negb (local =? -1) then
        let '(p2, c1, i) := addUpvalue p1 c (Z.land local 255) true in
        (p2, c1 :: set_captured e local :: rest, i)
      else
        let '(p2, enc1, upvalue) := resolveUpvalue p1 enc nm in
        if negb (upvalue =? -1) then
          let '(p3, c1, i) := addUpvalue p2 c (Z.land upvalue 255) false in (p3, c1 :: enc1, i)
        else (p2, c :: enc1, -1)
  | _ => (p, cs, -1)
  end.

(** [namedVariable] on the chain [cs], [current] first.  [advance]
    scans the next token, [expression] compiles an expression, and
    [identifierConstant] adds the interned name to the current chunk's
    constants; they are parameters here. *)
Section NamedVariable.

Variable advance : Parser -> Parser.
Variable expression : Parser -> list Compiler -> Parser * list Compiler.
Variable identifierConstant : Parser -> list Compiler -> Token -> Parser * list Compiler * Z.

Definition match_token (p : Parser) (ty : TokenType) : bool * Parser :=
  if check p ty then (true, advance p) else (false, p).

(** [emitBytes] into the current compiler of the chain. *)
Definition emit_current (cs : list Compiler) (byte1 byte2 : Z) : list Compiler :=
  match cs with c :: rest => emitBytes c byte1 byte2 :: rest | [] => [] end.

Definition namedVariable (p : Parser) (cs : list Compiler) (nm : Token) (canAssign : bool) :
    Parser * list Compiler :=
  match cs with
  | [] => (p, cs)
  | c :: _ =>
      let '(p1, local) := resolveLocal p c nm in
      let '(p2, cs2, arg, getOp, setOp) :=
        if negb (local =? -1) then (p1, cs, local, OP_GET_LOCAL, OP_SET_LOCAL)
        else
          let '(p2, cs2, upvalue) := resolveUpvalue p1 cs nm in
          if negb (upvalue =? -1) then (p2, cs2, upvalue, OP_GET_UPVALUE, OP_SET_UPVALUE)
          else
            let '(p3, cs3, k) := identifierConstant p2 cs2 nm in
            (p3, cs3, k, OP_GET_GLOBAL, OP_SET_GLOBAL) in
      let '(assign, p3) := if canAssign then match_token p2 TOKEN_EQUAL else (false, p2) in
      if assign then
        let p4 :=
          match cs2 with
          | c2 :: _ =>
              if negb (arg =? -1) && isPerm (locals c2 arg)
              then error p3 "Can't reassign to permanent variable" else p3
          | [] => p3
          end in
        let '(p5, cs5) := expression p4 cs2 in
        (p5, emit_current cs5 (opbyte setOp) (Z.land arg 255))
      else (p3, emit_current cs2 (opbyte getOp) (Z.land arg 255))
  end.

End NamedVariable.

End Cmp.

(** No two of the first [upvalueCount] upvalues of a compiler are equal. *)
Definition upvalues_distinct (c : Cmp.Compiler) : Prop :=
  forall i j, 0 <= i < j -> j < upvalueCount (Cmp.function c) ->
    Cmp.upvalues c i <> Cmp.upvalues c j.

(** Small parsers and compilers for the examples: [locals] is read from a
    list, out of range as an unnamed local of depth 0. *)
Definition sample_token (nm : string) : Token := mkToken TOKEN_IDENTIFIER nm 1.

Definition sample_parser (nm : string) : Cmp.Parser :=
  Cmp.mkParser (sample_token nm) (sample_token nm) false false [].

Definition sample_compiler (bytes : list Z) (ls : list Cmp.Local) (depth : Z) : Cmp.Compiler :=
  Cmp.mkCompiler
    (mkFunction 0 0 (mkChunk (Z.of_nat (length bytes)) (Z.of_nat (length bytes)) bytes [] []) None)
    (fun i => nth (Z.to_nat i) ls (Cmp.mkLocal (sample_token EmptyString) 0 false false))
    (Z.of_nat (length ls)) (fun _ => Cmp.mkUpvalue 0 false) depth.

(** Slot 0 reserved by [initCompiler], then [a] declared at depth 1. *)
Definition sample_locals : list Cmp.Local :=
  [Cmp.mkLocal (mkToken TOKEN_IDENTIFIER EmptyString 0) 0 false false;
   Cmp.mkLocal (sample_token "a") 1 false false].

(** ** Roots of the collector *)

Definition value_objs (v : Value) : list nat :=
  match v with VAL_OBJ o => [o] | _ => [] end.

(** The objects [markRoots] marks, in its order: the value stack, the
    frames' closures, the open upvalues, the keys and values of the
    globals table, the compiler roots. *)
Definition gc_roots (s : VM) : list nat :=
  concat (map (fun slot => value_objs (stack s slot)) (seqZ 0 (stackTop s))) ++
  map (fun i => closure (frames s i)) (seqZ 0 (frameCount s)) ++
  openUpvalues s ++
  concat (map (fun e => match Tbl.key e with Some k => [ObjStr.sid k] | None => [] end ++ value_objs (Tbl.value e))
              (Tbl.entries (globals s))) ++
  compilerRoots s.

(** ** Stack effect of the instructions handled by [run] *)

Definition stack_effect (op : OpCode) : option Z :=
  match op with
  | OP_CONSTANT | OP_NIL | OP_TRUE | OP_FALSE | OP_GET_LOCAL | OP_GET_GLOBAL
  | OP_GET_UPVALUE | OP_CLOSURE => Some 1
  | OP_POP | OP_DEFINE_GLOBAL | OP_EQUAL | OP_GREATER | OP_LESS | OP_ADD | OP_SUBTRACT
  | OP_MULTIPLY | OP_DIVIDE | OP_PRINT | OP_CLOSE_UPVALUE => Some (-1)
  | OP_SET_LOCAL | OP_SET_GLOBAL | OP_NOT | OP_NEGATE | OP_JUMP | OP_JUMP_IF_FALSE | OP_LOOP
  | OP_SET_UPVALUE => Some 0
  | OP_CALL | OP_RETURN => None
  end.

(** [nil; -nil]. *)
Definition negate_nil_program : list Z := map opbyte [OP_NIL; OP_NEGATE].

(** ** Keywords and literals of the scanner *)

(** The reserved words of [identifierType] as a flat table. *)
Definition keywordType (w : string) : TokenType :=
  if String.eqb w "and" then TOKEN_AND
  else if String.eqb w "break" then TOKEN_BREAK
  else if String.eqb w "class" then TOKEN_CLASS
  else if String.eqb w "continue" then TOKEN_CONTINUE
  else if String.eqb w "else" then TOKEN_ELSE
  else if String.eqb w "false" then TOKEN_FALSE
  else if String.eqb w "for" then TOKEN_FOR
  else if String.eqb w "fun" then TOKEN_FUN
  else if String.eqb w "if" then TOKEN_IF
  else if String.eqb w "nil" then TOKEN_NIL
  else if String.eqb w "or" then TOKEN_OR
  else if String.eqb w "perm" then TOKEN_PERM
  else if String.eqb w "print" then TOKEN_PRINT
  else if String.eqb w "return" then TOKEN_RETURN
  else if String.eqb w "super" then TOKEN_SUPER
  else if String.eqb w "this" then TOKEN_THIS
  else if String.eqb w "true" then TOKEN_TRUE
  else if String.eqb w "var" then TOKEN_VAR
  else if String.eqb w "while" then TOKEN_WHILE
  else TOKEN_IDENTIFIER.

(** The token kinds [identifier] can produce. *)
Definition is_word (ty : TokenType) : bool :=
  match ty with
  | TOKEN_IDENTIFIER | TOKEN_AND | TOKEN_BREAK | TOKEN_CLASS | TOKEN_CONTINUE | TOKEN_ELSE
  | TOKEN_FALSE | TOKEN_FOR | TOKEN_FUN | TOKEN_IF | TOKEN_NIL | TOKEN_OR | TOKEN_PERM
  | TOKEN_PRINT | TOKEN_RETURN | TOKEN_SUPER | TOKEN_THIS | TOKEN_TRUE | TOKEN_VAR
  | TOKEN_WHILE => true
  | _ => false
  end.

(** The scanner's [current] points into the source or at its final NUL. *)
Definition in_source (src : string) (sc : Scanner) : Prop :=
  0 <= current sc <= Z.of_nat (String.length src).

(** The newlines among the characters at positions [a .. b - 1]. *)
Definition newlines_between (src : string) (a b : Z) : Z :=
  Z.of_nat (List.length (List.filter (fun i => Ascii.eqb (char_at src i) "010") (seqZ a (b - a)))).

(** The four-character source [ "ab" ], quotes included. *)
Definition quoted_ab : string :=
  String "034" (String "a" (String "b" (String "034" EmptyString))).

(** No object lives at or above the allocation frontier. *)
Definition heap_fresh (s : VM) : Prop :=
  forall o, (nextId s <= o)%nat -> heap s !! o = None.

(** [s'] has the interning table and the string objects of [s], and its
    heap is fresh above its own frontier. *)
Definition views_kept (s s' : VM) : Prop :=
  strings s' = strings s /\ (forall o, string_view s' o = string_view s o) /\ heap_fresh s'.

(** The open-upvalue list strictly decreases by stack slot, and no
    object lives at or above the allocation frontier. *)
Definition upvalues_ok (s : VM) : Prop :=
  heap_fresh s /\ exists b, decreasing_from s b (openUpvalues s).

(** ** REPL sessions used by the examples

    Each [compile_*] function makes the allocations [compile] makes for one
    line, in its order ([initCompiler]'s [newFunction], [identifierConstant]'s
    [copyString], ...), and stores the finished functions.  The VM starts
    from [initVM]. *)

Definition opbytes (ops : list OpCode) : list Z := map opbyte ops.

(** [var h; { var a = true; fun g() { print a; } h = g; -nil; }]: the
    script's constants are ["h"], [g]'s function and ["h"] again; [a] is
    local slot 1, captured by [g] as its upvalue 0. *)
Definition compile_capture_line (s : VM) : VM * nat :=
  let '(s1, script) := newFunction s in
  let '(s2, h) := copyString s1 "h" 1 in
  let '(s3, g) := newFunction s2 in
  let '(s4, gname) := copyString s3 "g" 1 in
  let fg := compiled_function 0 1
              (opbytes [OP_GET_UPVALUE] ++ [0] ++ opbytes [OP_PRINT; OP_NIL; OP_RETURN]) [] (Some gname) in
  let fs := compiled_function 0 0
              (opbytes [OP_NIL; OP_DEFINE_GLOBAL] ++ [0] ++ opbytes [OP_TRUE; OP_CLOSURE] ++ [1; 1; 1] ++
               opbytes [OP_GET_LOCAL] ++ [2] ++ opbytes [OP_SET_GLOBAL] ++ [2] ++
               opbytes [OP_POP; OP_NIL; OP_NEGATE; OP_POP; OP_POP; OP_CLOSE_UPVALUE; OP_NIL; OP_RETURN])
              [OBJ_VAL h; OBJ_VAL g; OBJ_VAL h] None in
  (store_function (store_function s4 g fg) script fs, script).

(** [h();]. *)
Definition compile_call_line (s : VM) : VM * nat :=
  let '(s1, script) := newFunction s in
  let '(s2, h) := copyString s1 "h" 1 in
  let fs := compiled_function 0 0
              (opbytes [OP_GET_GLOBAL] ++ [0] ++ opbytes [OP_CALL] ++ [0] ++ opbytes [OP_POP; OP_NIL; OP_RETURN])
              [OBJ_VAL h] None in
  (store_function s2 script fs, script).

(** [{ var y = 1; x = nil; }]: the constants are [1] and ["x"]. *)
Definition compile_assign_line (s : VM) : VM * nat :=
  let '(s1, script) := newFunction s in
  let '(s2, x) := copyString s1 "x" 1 in
  let fs := compiled_function 0 0
              (opbytes [OP_CONSTANT] ++ [0] ++ opbytes [OP_NIL; OP_SET_GLOBAL] ++ [1] ++
               opbytes [OP_POP; OP_POP; OP_NIL; OP_RETURN])
              [NUMBER_VAL 1%float; OBJ_VAL x] None in
  (store_function s2 script fs, script).


(** The state of an example, [vm0] standing for a session that failed. *)
Definition get_state (o : option VM) : VM :=
  match o with Some s => s | None => vm0 end.

(** [initVM], then one line. *)
Definition session1 (compile : VM -> VM * nat) : option VM :=
  s0 ← initVM (clockNative_at 0) vm0;
  repl_line s0 compile.

(** The first REPL line of [compile_capture_line] after its first four
    instructions ([NIL], [DEFINE_GLOBAL], [TRUE], [CLOSURE]): [g]'s
    closure has captured slot 1. *)
Definition capture_line_state : VM :=
  step_state (run 4 (get_state (session1 compile_capture_line)) 0).

(** The strings [clock] and [x] of a session running [compile_assign_line]
    after [initVM]: at addresses 0 and 3. *)
Definition clock_name : ObjString := mkObjString 0 5 "clock" (hashString "clock").

Definition x_name : ObjString := mkObjString 3 1 "x" (hashString "x").

(** That session after [CONSTANT 0], [NIL] and the [SET_GLOBAL] opcode
    byte: the instruction pointer is at the operand. *)
Definition assign_line_state : VM :=
  let s := step_state (run 2 (get_state (session1 compile_assign_line)) 0) in
  set_ip s 0 (ip (frames s 0) + 1).

(** The compilers of [{ perm a = 1; perm b = 2; fun f() { var z = 0; b; a = 3; } }]
    when [a = 3] is reached: the block's compiler, with the permanent
    locals [a] and [b] ([b] captured by [f]), and [f]'s compiler, with the
    local [z] and the upvalue for [b].  Slot 0 of a compiler holds the
    function itself under an empty name. *)
Definition perm_tok (ty : TokenType) (lx : string) : Token := mkToken ty lx 1.

Definition perm_example_block : Cmp.Compiler :=
  Cmp.mkCompiler (mkFunction 0 0 (mkChunk 0 0 [] [] []) None)
    (upd (upd (upd (fun _ => Cmp.mkLocal (perm_tok TOKEN_IDENTIFIER EmptyString) 0 false false)
       1 (Cmp.mkLocal (perm_tok TOKEN_IDENTIFIER "a") 1 false true))
       2 (Cmp.mkLocal (perm_tok TOKEN_IDENTIFIER "b") 1 true true))
       3 (Cmp.mkLocal (perm_tok TOKEN_IDENTIFIER "f") 1 false false))
    4 (fun _ => Cmp.mkUpvalue 0 false) 1.

Definition perm_example_f : Cmp.Compiler :=
  Cmp.mkCompiler (mkFunction 0 1 (mkChunk 0 0 [] [] []) None)
    (upd (fun _ => Cmp.mkLocal (perm_tok TOKEN_IDENTIFIER EmptyString) 0 false false)
       1 (Cmp.mkLocal (perm_tok TOKEN_IDENTIFIER "z") 1 false false))
    2 (upd (fun _ => Cmp.mkUpvalue 0 false) 0 (Cmp.mkUpvalue 2 true)) 1.

(** The parser after [a] with [=] next. *)
Definition perm_example_parser : Cmp.Parser :=
  Cmp.mkParser (perm_tok TOKEN_EQUAL "=") (perm_tok TOKEN_IDENTIFIER "a") false false [].


(** [vm.bytesAllocated] and [vm.nextGC]. *)
Definition counters (s : VM) : Z * Z := (bytesAllocated s, nextGC s).

(** * Properties *)

Lemma decode_opbyte (op : OpCode) : decode (opbyte op) = Some op.
Proof. destruct op; reflexivity. Qed.

Lemma runtimeError_reports (s : VM) (msg : string) :
  In (OUT_ERROR msg) (output (runtimeError s msg)).
Proof.
  unfold runtimeError. cbn.
  generalize (rev (seqZ 0 (frameCount s))).
  assert (Hin : In (OUT_ERROR msg) (output (emit s (OUT_ERROR msg))))
    by (cbn; apply in_or_app; right; left; reflexivity).
  revert Hin. generalize (emit s (OUT_ERROR msg)).
  intros s0 Hin l. revert s0 Hin.
  induction l as [|i l IH]; intros s0 Hin; [exact Hin|].
  cbn. apply IH. cbn. apply in_or_app. left. exact Hin.
Qed.

(** ** Truthiness *)

(** C7: [OP_NOT] pushes [true] exactly when the operand is [nil] or
    [false], so every number (0 included) and every object is truthy; the
    pushed boolean is [x == nil or x == false]. *)
Theorem OP_NOT_truthiness (s : VM) (fi : Z) :
  let x := peek s 0 in
  execute s fi OP_NOT = Some (Continue (push (snd (pop s)) (BOOL_VAL (isFalsey x))) fi) /\
  (isFalsey x = true <-> x = VAL_NIL \/ x = VAL_BOOL false) /\
  isFalsey x = valuesEqual x NIL_VAL || valuesEqual x (BOOL_VAL false).
Proof.
  cbn zeta. unfold peek. rewrite Z.sub_0_r. split; [reflexivity|].
  destruct (stack s (stackTop s - 1)) as [|[]| |]; cbn; intuition congruence.
Qed.

(** ** Arithmetic on non-numbers *)

(** C1: when an operand of [OP_SUBTRACT], [OP_MULTIPLY], [OP_DIVIDE],
    [OP_GREATER] or [OP_LESS] is not a number, [BINARY_OP] reports the error
    but does not return: the step continues in the same frame. *)
Theorem BINARY_OP_continues_after_error (s : VM) (fi : Z) (op : OpCode)
    (Hop : In op [OP_SUBTRACT; OP_MULTIPLY; OP_DIVIDE; OP_GREATER; OP_LESS])
    (Hnn : IS_NUMBER (peek s 0) = false \/ IS_NUMBER (peek s 1) = false) :
  exists s', execute s fi op = Some (Continue s' fi) /\
             In (OUT_ERROR "Operands must be numbers.") (output s').
Proof.
  assert (Hb : forall g, In (OUT_ERROR "Operands must be numbers.") (output (BINARY_OP s g))).
  { intros g. unfold BINARY_OP.
    replace (negb (IS_NUMBER (peek s 0)) || negb (IS_NUMBER (peek s 1))) with true
      by (destruct Hnn as [-> | ->]; [reflexivity | symmetry; apply orb_true_r]).
    apply runtimeError_reports. }
  destruct Hop as [<-|[<-|[<-|[<-|[<-|[]]]]]]; cbn [execute]; eexists; split;
    (reflexivity || apply Hb).
Qed.

Lemma BINARY_OP_continues_after_error_witness :
  IS_NUMBER (peek (script_state subtract_nil_program [] ∅) 0) = false /\
  exists s', execute (script_state subtract_nil_program [] ∅) 0 OP_SUBTRACT = Some (Continue s' 0) /\
             In (OUT_ERROR "Operands must be numbers.") (output s').
Proof.
  split; [reflexivity|].
  apply (BINARY_OP_continues_after_error (script_state subtract_nil_program [] ∅) 0 OP_SUBTRACT).
  - cbn. auto.
  - right. reflexivity.
Defined.

(** The script [nil - nil; print true;] goes on after the error: the
    [print] that follows the subtraction runs and the loop has not returned
    a status. *)
Lemma subtract_nil_keeps_running :
  exists s' fi',
    run 5 (script_state subtract_nil_program [] ∅) 0 = Continue s' fi' /\
    output s' = [OUT_ERROR "Operands must be numbers."; OUT_TRACE None "script";
                 OUT_PRINT (VAL_BOOL true)].
Proof. do 2 eexists. split; [vm_compute; reflexivity | vm_compute; reflexivity]. Qed.

(** ** Line information of chunks *)

(** C3: [writeChunk] of [chunk.c] takes no line and never touches
    [lines]: after any sequence of writes into an initialised chunk, the
    line array is whatever it held before [initChunk], while [count] has
    grown by the number of bytes written. *)
Theorem writeChunk_never_records_lines (c : Chunk) (bytes : list Z) :
  lines (fold_left writeChunk bytes (initChunk c)) = lines c /\
  count (fold_left writeChunk bytes (initChunk c)) = Z.of_nat (length bytes).
Proof.
  assert (H : forall d, lines (fold_left writeChunk bytes d) = lines d /\
                        count (fold_left writeChunk bytes d) = count d + Z.of_nat (length bytes)).
  { induction bytes as [|b bs IH]; intros d; cbn [fold_left length].
    - split; [reflexivity | lia].
    - destruct (IH (writeChunk d b)) as [H1 H2]. rewrite H1, H2.
      unfold writeChunk. destruct (capacity d <? count d + 1); cbn; split; [reflexivity | lia | reflexivity | lia]. }
  destruct (H (initChunk c)) as [H1 H2]. rewrite H1, H2. split; reflexivity.
Qed.

(** ** Punctuation and keywords *)

(** C6: [scanToken] has no case for [[], []] or [:]; each of them alone
    scans to the error token "Unexpected character.", while [break],
    [continue] and [perm] do scan to their keyword kinds. *)
Theorem scanToken_brackets_colon_unexpected :
  fst (scanToken "[" initScanner) = mkToken TOKEN_ERROR "Unexpected character." 1 /\
  fst (scanToken "]" initScanner) = mkToken TOKEN_ERROR "Unexpected character." 1 /\
  fst (scanToken ":" initScanner) = mkToken TOKEN_ERROR "Unexpected character." 1 /\
  type (fst (scanToken "break" initScanner)) = TOKEN_BREAK /\
  type (fst (scanToken "continue" initScanner)) = TOKEN_CONTINUE /\
  type (fst (scanToken "perm" initScanner)) = TOKEN_PERM.
Proof. vm_compute. repeat split. Qed.

(** ** The collector *)

Lemma set_heap_output_nil s : set_heap_output s (heap s) [] = s.
Proof. destruct s. unfold set_heap_output. cbn. rewrite app_nil_r. reflexivity. Qed.

Lemma mark_heap_lookup h l o :
  mark_heap h l !! o =
    match h !! o with
    | Some ob => Some (if bool_decide (o ∈ l) then mkObj true (body ob) else ob)
    | None => None
    end.
Proof.
  revert h. induction l as [|x l IH]; intros h; cbn [mark_heap fold_left].
  - destruct (h !! o); [|reflexivity]. rewrite bool_decide_eq_false_2 by apply not_elem_of_nil. reflexivity.
  - change (fold_left _ l ?h1) with (mark_heap h1 l). rewrite IH.
    destruct (decide (x = o)) as [<-|Hne].
    + rewrite (bool_decide_eq_true_2 (x ∈ x :: l)) by (apply elem_of_cons; left; reflexivity).
      destruct (h !! x) as [obx|] eqn:Hx; [|rewrite Hx; reflexivity].
      rewrite lookup_insert, decide_True by reflexivity. cbn. destruct (bool_decide _); reflexivity.
    + assert (E : bool_decide (o ∈ x :: l) = bool_decide (o ∈ l)).
      { apply bool_decide_ext. rewrite elem_of_cons. split; [intros [->|H]; [congruence|exact H] | auto]. }
      rewrite E. destruct (h !! x) as [obx|]; [|reflexivity].
      rewrite lookup_insert, decide_False by exact Hne. reflexivity.
Qed.

Lemma mark_heap_in h l o ob : In o l -> h !! o = Some ob ->
  mark_heap h l !! o = Some (mkObj true (body ob)).
Proof.
  intros Hi Ho. rewrite mark_heap_lookup, Ho, bool_decide_eq_true_2 by (apply list_elem_of_In; exact Hi).
  reflexivity.
Qed.

Lemma mark_heap_notin h l o : ~ In o l -> mark_heap h l !! o = h !! o.
Proof.
  intros Hi. rewrite mark_heap_lookup. destruct (h !! o); [|reflexivity].
  rewrite bool_decide_eq_false_2 by (rewrite list_elem_of_In; exact Hi). reflexivity.
Qed.

Lemma mark_heap_le h l : heap_le h (mark_heap h l).
Proof.
  split.
  - intros o Ho. rewrite mark_heap_lookup, Ho. reflexivity.
  - intros o ob Ho. rewrite mark_heap_lookup, Ho.
    destruct (bool_decide (o ∈ l)).
    + exists true. auto.
    + exists (isMarked ob). destruct ob. auto.
Qed.

Lemma mark_log_dom h h' l : (forall o, h !! o = None <-> h' !! o = None) ->
  mark_log h l = mark_log h' l.
Proof.
  intros Hd. induction l as [|x l IH]; [reflexivity|]. cbn [mark_log flat_map].
  fold (mark_log h l) (mark_log h' l). rewrite IH.
  destruct (h !! x) eqn:Hx; destruct (h' !! x) eqn:Hx'; try reflexivity.
  - apply Hd in Hx'. congruence.
  - apply Hd in Hx. congruence.
Qed.

(** [markObject] on each address of [l]: the mark bits of [mark_heap] and
    the lines of [mark_log]; nothing else changes. *)
Lemma fold_markObject l s :
  fold_left markObject l s = set_heap_output s (mark_heap (heap s) l) (mark_log (heap s) l).
Proof.
  revert s. induction l as [|x l IH]; intros s.
  - cbn. symmetry. apply set_heap_output_nil.
  - cbn [fold_left]. rewrite IH.
    assert (E : mark_heap (heap s) (x :: l) =
      mark_heap (match heap s !! x with Some ob => <[x := mkObj true (body ob)]> (heap s) | None => heap s end) l)
      by reflexivity.
    rewrite E. cbn [mark_log flat_map]. fold (mark_log (heap s) l). unfold markObject.
    destruct (heap s !! x) as [ob|] eqn:Hx.
    + cbn [heap set_heap emit].
      rewrite (mark_log_dom (<[x := mkObj true (body ob)]> (heap s)) (heap s)).
      * destruct s. unfold set_heap_output. cbn. rewrite <- app_assoc. reflexivity.
      * intros o. rewrite lookup_insert. destruct (decide (x = o)) as [<-|]; [rewrite Hx|]; split; auto; discriminate.
    + cbn. reflexivity.
Qed.

Lemma markValue_fold s v : markValue s v = fold_left markObject (value_objs v) s.
Proof. destruct v; reflexivity. Qed.

Lemma fold_stack_roots l s :
  fold_left (fun s slot => markValue s (stack s slot)) l s =
  fold_left markObject (concat (map (fun slot => value_objs (stack s slot)) l)) s.
Proof.
  revert s. induction l as [|x l IH]; intros s; [reflexivity|].
  cbn [fold_left map concat]. rewrite fold_left_app, <- markValue_fold.
  assert (Hs : stack (markValue s (stack s x)) = stack s)
    by (rewrite markValue_fold, fold_markObject; reflexivity).
  rewrite IH, Hs. reflexivity.
Qed.

Lemma fold_frame_roots l s :
  fold_left (fun s i => markObject s (closure (frames s i))) l s =
  fold_left markObject (map (fun i => closure (frames s i)) l) s.
Proof.
  revert s. induction l as [|x l IH]; intros s; [reflexivity|].
  cbn [fold_left map]. rewrite IH.
  assert (Hs : frames (markObject s (closure (frames s x))) = frames s).
  { change (markObject s (closure (frames s x))) with (fold_left markObject [closure (frames s x)] s).
    rewrite fold_markObject. reflexivity. }
  rewrite Hs. reflexivity.
Qed.

Lemma markTable_roots s t :
  markTable s t = fold_left markObject
    (concat (map (fun e => match Tbl.key e with Some k => [ObjStr.sid k] | None => [] end ++ value_objs (Tbl.value e))
                 (Tbl.entries t))) s.
Proof.
  unfold markTable. generalize (Tbl.entries t). intros l. revert s.
  induction l as [|e l IH]; intros s; [reflexivity|].
  cbn [fold_left map concat]. rewrite IH, !fold_left_app, <- markValue_fold.
  destruct (Tbl.key e); reflexivity.
Qed.

Lemma markRoots_roots s : markRoots s = fold_left markObject (gc_roots s) s.
Proof.
  unfold markRoots, markCompilerRoots. cbv zeta.
  rewrite fold_stack_roots, fold_frame_roots, markTable_roots.
  rewrite !fold_markObject. cbn [set_heap_output globals compilerRoots openUpvalues frames frameCount].
  rewrite <- !fold_markObject. unfold gc_roots. rewrite !fold_left_app. reflexivity.
Qed.

Lemma collectGarbage_log s :
  collectGarbage s =
    set_heap_output s (mark_heap (heap s) (gc_roots s))
      (OUT_GC_BEGIN :: mark_log (heap s) (gc_roots s) ++ [OUT_GC_END]).
Proof.
  unfold collectGarbage. cbv zeta. rewrite markRoots_roots, fold_markObject.
  destruct s. unfold emit, set_heap_output, gc_roots. cbn.
  rewrite <- !app_assoc. reflexivity.
Qed.

(** The script's function object is no root: a collection leaves it
    unmarked and on the allocation list, while the script's closure, a
    root, keeps the mark bit it gets. *)
Lemma collectGarbage_keeps_unmarked_object :
  let s := script_state [opbyte OP_RETURN] [] ∅ in
  In 0%nat (objects (collectGarbage s)) /\
  heap (collectGarbage s) !! 0%nat = heap s !! 0%nat /\
  (exists f, heap s !! 0%nat = Some (mkObj false (OBJ_FUNCTION f))) /\
  marked (collectGarbage s) 1%nat /\
  output (collectGarbage s) = [OUT_GC_BEGIN; OUT_GC_MARK 1; OUT_GC_MARK 1; OUT_GC_END].
Proof.
  cbv zeta. split; [vm_compute; auto|]. split; [vm_compute; reflexivity|].
  split; [eexists; vm_compute; reflexivity|]. split; [eexists; vm_compute; reflexivity|].
  vm_compute. reflexivity.
Qed.


(** ** Calls *)




(** ** Open upvalues *)

Lemma dec_in s b l u : decreasing_from s b l -> In u l ->
  exists z, upvalue_slot s u = Some z /\ z < b.
Proof.
  revert b. induction l as [|x l IH]; intros b Hd Hin; [destruct Hin|].
  destruct Hd as [z [Hz [Hzb Hr]]]. destruct Hin as [<-|Hin]; [eauto|].
  destruct (IH z Hr Hin) as [z' [Hz' Hz'b]]. exists z'. split; [exact Hz'|lia].
Qed.

Lemma dec_transport s s' b l : decreasing_from s b l ->
  (forall u, In u l -> upvalue_slot s' u = upvalue_slot s u) -> decreasing_from s' b l.
Proof.
  revert b. induction l as [|x l IH]; intros b Hd Heq; [exact I|].
  destruct Hd as [z [Hz [Hzb Hr]]]. exists z. rewrite Heq by (left; reflexivity).
  split; [exact Hz|]. split; [exact Hzb|]. apply IH; [exact Hr|]. intros u Hu. apply Heq. right. exact Hu.
Qed.

Lemma dec_app_cons s b p u rest : decreasing_from s b (p ++ u :: rest) ->
  exists z, upvalue_slot s u = Some z /\ decreasing_from s z rest.
Proof.
  revert b. induction p as [|x p IH]; intros b Hd.
  - destruct Hd as [z [Hz [_ Hr]]]. eauto.
  - destruct Hd as [z [_ [_ Hr]]]. eapply IH. exact Hr.
Qed.

Lemma split_open_app s l local : fst (split_open s l local) ++ snd (split_open s l local) = l.
Proof.
  induction l as [|u l IH]; [reflexivity|]. cbn.
  destruct (upvalue_slot s u) as [z|]; [|reflexivity].
  destruct (local <? z); [|reflexivity].
  destruct (split_open s l local) as [p r]. cbn in *. rewrite IH. reflexivity.
Qed.

Lemma split_open_fst s l local u : In u (fst (split_open s l local)) ->
  exists z, upvalue_slot s u = Some z /\ local < z.
Proof.
  induction l as [|x l IH]; cbn; [intros []|].
  destruct (upvalue_slot s x) as [z|] eqn:Hx; [|intros []].
  destruct (local <? z) eqn:Hlt; [|intros []].
  destruct (split_open s l local) as [p r] eqn:E. cbn. intros [<-|Hin].
  - exists z. split; [exact Hx|]. apply Z.ltb_lt, Hlt.
  - apply IH. exact Hin.
Qed.

Lemma split_open_snd s b l local : decreasing_from s b l ->
  match snd (split_open s l local) with
  | u :: _ => exists z, upvalue_slot s u = Some z /\ z <= local
  | [] => True
  end.
Proof.
  revert b. induction l as [|x l IH]; intros b Hd; [exact I|].
  destruct Hd as [z [Hz [_ Hr]]]. cbn. rewrite Hz.
  destruct (local <? z) eqn:Hlt.
  - specialize (IH z Hr). destruct (split_open s l local) as [p r]. exact IH.
  - exists z. split; [exact Hz|]. apply Z.ltb_ge, Hlt.
Qed.

Lemma split_open_insert s s' new local b l : decreasing_from s b l -> local < b ->
  (forall u, In u l -> upvalue_slot s' u = upvalue_slot s u) -> upvalue_slot s' new = Some local ->
  match snd (split_open s l local) with u :: _ => upvalue_slot s u <> Some local | [] => True end ->
  decreasing_from s' b (fst (split_open s l local) ++ new :: snd (split_open s l local)).
Proof.
  revert b. induction l as [|u l IH]; intros b Hd Hlb Heq Hnew Hsnd.
  - cbn. exists local. auto.
  - destruct Hd as [su [Hsu [Hsub Hr]]]. cbn in Hsnd |- *. rewrite Hsu in Hsnd |- *.
    destruct (local <? su) eqn:Hlt.
    + apply Z.ltb_lt in Hlt.
      specialize (IH su Hr Hlt (fun x Hx => Heq x (or_intror Hx)) Hnew).
      destruct (split_open s l local) as [p r]. cbn in *.
      exists su. rewrite (Heq u (or_introl eq_refl)). auto.
    + apply Z.ltb_ge in Hlt. cbn. exists local. split; [exact Hnew|]. split; [exact Hlb|].
      exists su. rewrite (Heq u (or_introl eq_refl)). split; [exact Hsu|].
      split; [assert (su <> local) by congruence; lia|].
      apply (dec_transport s); [exact Hr|]. intros x Hx. apply Heq. right. exact Hx.
Qed.

Lemma upvalue_slot_insert_ne s h u x u' : u' <> u ->
  upvalue_slot (set_heap s (<[u := x]> h)) u' = upvalue_slot (set_heap s h) u'.
Proof. intros Hne. unfold upvalue_slot. cbn. rewrite lookup_insert. destruct (decide (u = u')); congruence. Qed.

Lemma captureUpvalue_spec (s : VM) (b local : Z) :
  decreasing_from s b (openUpvalues s) -> heap s !! nextId s = None -> local < b ->
  decreasing_from (fst (captureUpvalue s local)) b (openUpvalues (fst (captureUpvalue s local))) /\
  upvalue_slot (fst (captureUpvalue s local)) (snd (captureUpvalue s local)) = Some local /\
  (forall u', In u' (openUpvalues s) -> upvalue_slot s u' = Some local ->
     captureUpvalue s local = (s, u')).
Proof.
  intros Hd Hfresh Hlb.
  pose proof (split_open_app s (openUpvalues s) local) as Happ.
  pose proof (split_open_snd s b (openUpvalues s) local Hd) as Hsnd.
  pose proof (split_open_fst s (openUpvalues s) local) as Hfst.
  (* the state after [newUpvalue] *)
  set (s1 := emit (set_alloc s (nextId s :: objects s)
               (<[nextId s := mkObj false (OBJ_UPVALUE (LOC_STACK local) NIL_VAL)]> (heap s)) (S (nextId s)))
               (OUT_GC_ALLOCATE (nextId s) OBJ_SIZE 8)).
  assert (Hold : forall u, In u (openUpvalues s) ->
            upvalue_slot (set_openUpvalues s1 (fst (split_open s (openUpvalues s) local) ++ nextId s
                            :: snd (split_open s (openUpvalues s) local))) u = upvalue_slot s u).
  { intros u Hu. destruct (dec_in _ _ _ _ Hd Hu) as [z [Hz _]].
    unfold upvalue_slot in Hz |- *. cbn. rewrite lookup_insert.
    destruct (decide (nextId s = u)) as [<-|]; [rewrite Hfresh in Hz; discriminate | reflexivity]. }
  assert (Hnew : upvalue_slot (set_openUpvalues s1 (fst (split_open s (openUpvalues s) local) ++ nextId s
                            :: snd (split_open s (openUpvalues s) local))) (nextId s) = Some local).
  { unfold upvalue_slot. cbn. rewrite lookup_insert. destruct (decide _); [reflexivity | congruence]. }
  assert (Hcreate :
    match snd (split_open s (openUpvalues s) local) with u :: _ => upvalue_slot s u <> Some local | [] => True end ->
    decreasing_from (set_openUpvalues s1 (fst (split_open s (openUpvalues s) local) ++ nextId s
                            :: snd (split_open s (openUpvalues s) local))) b
      (fst (split_open s (openUpvalues s) local) ++ nextId s :: snd (split_open s (openUpvalues s) local))).
  { intros Hne. apply split_open_insert; auto. }
  assert (Hnone : match snd (split_open s (openUpvalues s) local) with u :: _ => upvalue_slot s u <> Some local | [] => True end ->
            forall u', In u' (openUpvalues s) -> upvalue_slot s u' <> Some local).
  { intros Hne u' Hu' Hs'. rewrite <- Happ in Hu', Hd. apply in_app_or in Hu'. destruct Hu' as [Hp|Hr].
    - destruct (Hfst u' Hp) as [z [Hz Hlt]]. rewrite Hs' in Hz. injection Hz. lia.
    - destruct (snd (split_open s (openUpvalues s) local)) as [|u rest] eqn:Er; [destruct Hr|].
      destruct Hsnd as [z [Hz Hzl]]. destruct Hr as [<-|Hr]; [contradiction|].
      destruct (dec_app_cons _ _ _ _ _ Hd) as [z' [Hz' Hrest]]. rewrite Hz in Hz'. injection Hz' as <-.
      destruct (dec_in _ _ _ _ Hrest Hr) as [z'' [Hz'' Hlt]]. rewrite Hs' in Hz''. injection Hz'' as <-.
      assert (z <> local) by congruence. lia. }
  unfold captureUpvalue.
  destruct (split_open s (openUpvalues s) local) as [p r] eqn:Esplit. cbn [fst snd] in *.
  destruct r as [|u rest].
  - cbn. split; [apply Hcreate; exact I|]. split; [exact Hnew|].
    intros u' Hu' Hs'. exfalso. exact (Hnone I u' Hu' Hs').
  - destruct (bool_decide (upvalue_slot s u = Some local)) eqn:Hb.
    + apply bool_decide_eq_true in Hb. cbn. split; [exact Hd|]. split; [exact Hb|].
      intros u' Hu' Hs'. rewrite <- Happ in Hu', Hd. apply in_app_or in Hu'. destruct Hu' as [Hp|Hr].
      * destruct (Hfst u' Hp) as [z [Hz Hlt]]. rewrite Hs' in Hz. injection Hz. lia.
      * destruct Hr as [<-|Hr]; [reflexivity|].
        destruct (dec_app_cons _ _ _ _ _ Hd) as [z' [Hz' Hrest]]. rewrite Hb in Hz'. injection Hz' as <-.
        destruct (dec_in _ _ _ _ Hrest Hr) as [z'' [Hz'' Hlt]]. rewrite Hs' in Hz''. injection Hz'' as <-. lia.
    + apply bool_decide_eq_false in Hb. cbn. split; [apply Hcreate; exact Hb|]. split; [exact Hnew|].
      intros u' Hu' Hs'. exfalso. exact (Hnone Hb u' Hu' Hs').
Qed.

Lemma closeUpvalues_loop_spec (last : Z) (l : list nat) : forall s b,
  openUpvalues s = l -> decreasing_from s b l ->
  let s' := closeUpvalues_loop s l last in
  decreasing_from s' last (openUpvalues s') /\
  (forall u m slot v, In u l -> heap s !! u = Some (mkObj m (OBJ_UPVALUE (LOC_STACK slot) v)) ->
     last <= slot -> heap s' !! u = Some (mkObj m (OBJ_UPVALUE LOC_CLOSED (stack s slot)))) /\
  (forall u, ~ In u l -> heap s' !! u = heap s !! u) /\
  stack s' = stack s.
Proof.
  induction l as [|u rest IH]; intros s b Hl Hd; cbn zeta.
  - cbn. rewrite Hl. split; [exact I|]. split; [intros ? ? ? ? []|]. auto.
  - destruct Hd as [su [Hsu [Hsub Hr]]].
    assert (Hu : exists m v, heap s !! u = Some (mkObj m (OBJ_UPVALUE (LOC_STACK su) v))).
    { unfold upvalue_slot in Hsu. destruct (heap s !! u) as [[m [| | | | | | | |[sl|] v]]|];
        try discriminate. injection Hsu as <-. eauto. }
    destruct Hu as [m [v Hu]].
    assert (Hnotin : ~ In u rest).
    { intros Hin. destruct (dec_in _ _ _ _ Hr Hin) as [z [Hz Hlt]]. rewrite Hsu in Hz. injection Hz. lia. }
    cbn [closeUpvalues_loop]. rewrite Hu.
    destruct (last <=? su) eqn:Hle.
    + apply Z.leb_le in Hle.
      set (s1 := set_openUpvalues (set_heap s (<[u := mkObj m (OBJ_UPVALUE LOC_CLOSED (stack s su))]> (heap s))) rest).
      assert (Hd1 : decreasing_from s1 su rest).
      { apply (dec_transport s); [exact Hr|]. intros x Hx.
        assert (x <> u) by (intros ->; contradiction).
        unfold upvalue_slot. cbn. rewrite lookup_insert. destruct (decide (u = x)); congruence. }
      destruct (IH s1 su eq_refl Hd1) as [IH1 [IH2 [IH3 IH4]]]. cbn zeta in *.
      split; [exact IH1|]. split; [|split].
      * intros x mx slot vx [<-|Hx] Hhx Hlx.
        -- rewrite Hu in Hhx. injection Hhx as <- <- <-. rewrite (IH3 u Hnotin). cbn.
           rewrite lookup_insert. destruct (decide _); [reflexivity | congruence].
        -- assert (x <> u) by (intros ->; contradiction).
           rewrite (IH2 x mx slot vx Hx); [reflexivity| |exact Hlx].
           cbn. rewrite lookup_insert. destruct (decide (u = x)); [congruence | exact Hhx].
      * intros x Hx. rewrite IH3 by (intros Hin; apply Hx; right; exact Hin). cbn.
        rewrite lookup_insert. destruct (decide (u = x)) as [<-|]; [exfalso; apply Hx; left; reflexivity | reflexivity].
      * rewrite IH4. reflexivity.
    + apply Z.leb_gt in Hle. rewrite Hl. split; [exists su; auto|]. split; [|auto].
      intros x mx slot vx [<-|Hx] Hhx Hlx.
      * rewrite Hu in Hhx. injection Hhx as <- <- <-. lia.
      * destruct (dec_in _ _ _ _ Hr Hx) as [z [Hz Hlt]].
        unfold upvalue_slot in Hz. rewrite Hhx in Hz. injection Hz as <-. lia.
Qed.

(** ** The hash tables *)

Lemma pos_range h d cap : 0 < cap -> 0 <= pos h d cap < cap.
Proof. intros. unfold pos. apply Z.mod_pos_bound. exact H. Qed.

Lemma pos_succ h d cap : 0 < cap -> (pos h d cap + 1) mod cap = pos h (d + 1) cap.
Proof.
  intros Hc. unfold pos. rewrite Z.add_mod_idemp_l by lia. f_equal. lia.
Qed.

Lemma pos_zero h cap : h mod cap = pos h 0 cap.
Proof. unfold pos. rewrite Z.add_0_r. reflexivity. Qed.

Lemma pos_inj h j d cap : 0 < cap -> 0 <= j < cap -> 0 <= d < cap ->
  pos h j cap = pos h d cap -> j = d.
Proof.
  intros Hc Hj Hd E. unfold pos in E.
  pose proof (Z.div_mod (h + j) cap ltac:(lia)) as E1.
  pose proof (Z.div_mod (h + d) cap ltac:(lia)) as E2.
  rewrite E in E1.
  assert (Hm : j - d = cap * ((h + j) / cap - (h + d) / cap)) by lia.
  destruct (Z.lt_trichotomy ((h + j) / cap - (h + d) / cap) 0) as [Hn|[Hz|Hp]].
  - assert (cap * ((h + j) / cap - (h + d) / cap) <= - cap) by nia. lia.
  - rewrite Hz in Hm. lia.
  - assert (cap * ((h + j) / cap - (h + d) / cap) >= cap) by nia. lia.
Qed.

Lemma pos_offset h i cap : 0 < cap -> 0 <= i < cap ->
  0 <= (i - h) mod cap < cap /\ pos h ((i - h) mod cap) cap = i.
Proof.
  intros Hc Hi. split; [apply Z.mod_pos_bound; lia|]. unfold pos.
  rewrite Z.add_mod_idemp_r by lia. replace (h + (i - h)) with i by lia.
  apply Z.mod_small. lia.
Qed.

Lemma entry_at_insert es q e i : 0 <= i -> 0 <= q -> q < Z.of_nat (length es) ->
  Tbl.entry_at (<[Z.to_nat q := e]> es) i = if Z.eqb i q then e else Tbl.entry_at es i.
Proof.
  intros Hi Hq Hl. unfold Tbl.entry_at. destruct (Z.eqb_spec i q) as [->|Hne].
  - rewrite list_lookup_insert. destruct (decide _); [reflexivity | exfalso; apply n; lia].
  - rewrite list_lookup_insert_ne; [reflexivity | lia].
Qed.

Lemma findEntry_loop_present es cap k k' h D p :
  0 < cap -> 0 <= D < cap -> p = pos h D cap ->
  Tbl.key (Tbl.entry_at es p) = Some k' -> sid k' = sid k ->
  (forall j, 0 <= j < D -> occupied (Tbl.entry_at es (pos h j cap)) = true /\
     forall k'', Tbl.key (Tbl.entry_at es (pos h j cap)) = Some k'' -> sid k'' <> sid k) ->
  forall n d t, 0 <= d <= D -> D - d < Z.of_nat n ->
  Tbl.findEntry_loop n es cap k (pos h d cap) t = p.
Proof.
  intros Hc HD Hp Hk Hs Hbefore n. induction n as [|n IH]; intros d t Hd Hn; [lia|].
  cbn [Tbl.findEntry_loop].
  destruct (Z.eq_dec d D) as [->|Hne].
  - rewrite <- Hp, Hk, Hs, Nat.eqb_refl. reflexivity.
  - destruct (Hbefore d ltac:(lia)) as [Hocc Hother].
    unfold occupied in Hocc.
    destruct (Tbl.key (Tbl.entry_at es (pos h d cap))) as [k''|] eqn:Ek.
    + destruct (Nat.eqb_spec (sid k'') (sid k)) as [E|_]; [exfalso; exact (Hother k'' eq_refl E)|].
      rewrite pos_succ by lia. apply IH; lia.
    + destruct (IS_NIL (Tbl.value (Tbl.entry_at es (pos h d cap)))); [discriminate|].
      rewrite pos_succ by lia. apply IH; lia.
Qed.

Lemma findEntry_loop_absent es cap k h E :
  0 < cap -> 0 <= E < cap -> occupied (Tbl.entry_at es (pos h E cap)) = false ->
  (forall i k'', 0 <= i < cap -> Tbl.key (Tbl.entry_at es i) = Some k'' -> sid k'' <> sid k) ->
  forall n d t, 0 <= d <= E -> E - d < Z.of_nat n ->
  (forall j, 0 <= j < d -> occupied (Tbl.entry_at es (pos h j cap)) = true) ->
  match t with
  | Some q => exists T, 0 <= T < d /\ q = pos h T cap /\ Tbl.key (Tbl.entry_at es q) = None
  | None => True
  end ->
  exists R, 0 <= R <= E /\ Tbl.findEntry_loop n es cap k (pos h d cap) t = pos h R cap /\
    Tbl.key (Tbl.entry_at es (pos h R cap)) = None /\
    forall j, 0 <= j < R -> occupied (Tbl.entry_at es (pos h j cap)) = true.
Proof.
  intros Hc HE Hempty Habs n. induction n as [|n IH]; intros d t Hd Hn Hocc Ht; [lia|].
  cbn [Tbl.findEntry_loop].
  destruct (Tbl.key (Tbl.entry_at es (pos h d cap))) as [k''|] eqn:Ek.
  - assert (Hne : d <> E) by (intros ->; unfold occupied in Hempty; rewrite Ek in Hempty; discriminate).
    assert (Hs : sid k'' <> sid k) by (apply (Habs (pos h d cap)); [apply pos_range; lia | exact Ek]).
    destruct (Nat.eqb_spec (sid k'') (sid k)) as [E'|_]; [contradiction|].
    rewrite pos_succ by lia. apply IH; [lia|lia| |].
    + intros j Hj. destruct (Z.eq_dec j d) as [->|]; [unfold occupied; rewrite Ek; reflexivity|].
      apply Hocc. lia.
    + destruct t as [q|]; [|exact I]. destruct Ht as [T [HT ?]]. exists T. split; [lia|assumption].
  - destruct (IS_NIL (Tbl.value (Tbl.entry_at es (pos h d cap)))) eqn:Enil.
    + destruct t as [q|].
      * destruct Ht as [T [HT [-> Hq]]]. exists T. split; [lia|]. split; [reflexivity|].
        split; [exact Hq|]. intros j Hj. apply Hocc. lia.
      * exists d. split; [lia|]. split; [reflexivity|]. split; [exact Ek|]. exact Hocc.
    + assert (Hne : d <> E)
        by (intros ->; unfold occupied in Hempty; rewrite Ek, Enil in Hempty; discriminate).
      rewrite pos_succ by lia. apply IH; [lia|lia| |].
      * intros j Hj. destruct (Z.eq_dec j d) as [->|]; [unfold occupied; rewrite Ek, Enil; reflexivity|].
        apply Hocc. lia.
      * destruct t as [q|].
        -- destruct Ht as [T [HT ?]]. exists T. split; [lia|assumption].
        -- exists d. split; [lia|]. split; [reflexivity|exact Ek].
Qed.

Lemma findEntry_present es cap p k : table_core es cap -> 0 < cap -> 0 <= p < cap ->
  Tbl.key (Tbl.entry_at es p) = Some k -> Tbl.findEntry es cap k = p.
Proof.
  intros [Hlen [Huniq Hprobe]] Hc Hp Hk.
  destruct (Hprobe p k Hp Hk) as [D [HD [Ep Hocc]]].
  unfold Tbl.findEntry. rewrite pos_zero.
  apply (findEntry_loop_present es cap k k (hash k) D p); try assumption; try reflexivity; try lia.
  intros j Hj. split; [apply Hocc; exact Hj|]. intros k'' Ek Es.
  assert (Hj' : pos (hash k) j cap = p).
  { apply (Huniq _ _ k'' k); [apply pos_range; lia | lia | exact Ek | exact Hk | exact Es]. }
  rewrite Ep in Hj'. apply pos_inj in Hj'; lia.
Qed.

Lemma findEntry_absent es cap k : table_core es cap -> 0 < cap ->
  (forall i k'', 0 <= i < cap -> Tbl.key (Tbl.entry_at es i) = Some k'' -> sid k'' <> sid k) ->
  (exists i, 0 <= i < cap /\ occupied (Tbl.entry_at es i) = false) ->
  exists R, 0 <= R < cap /\ Tbl.findEntry es cap k = pos (hash k) R cap /\
    Tbl.key (Tbl.entry_at es (pos (hash k) R cap)) = None /\
    forall j, 0 <= j < R -> occupied (Tbl.entry_at es (pos (hash k) j cap)) = true.
Proof.
  intros Hcore Hc Habs [i [Hi Hfree]].
  destruct (pos_offset (hash k) i cap Hc Hi) as [HE Ei].
  unfold Tbl.findEntry. rewrite pos_zero.
  destruct (findEntry_loop_absent es cap k (hash k) ((i - hash k) mod cap) Hc HE
              ltac:(rewrite Ei; exact Hfree) Habs (Z.to_nat cap) 0 None ltac:(lia) ltac:(lia)
              ltac:(intros; lia) I) as [R [HR H]].
  exists R. split; [lia | exact H].
Qed.

Lemma filter_length_lt {A} (f : A -> bool) (l : list A) :
  (length (List.filter f l) < length l)%nat ->
  exists n e, l !! n = Some e /\ f e = false.
Proof.
  induction l as [|x l IH]; cbn; [lia|]. intros Hlt.
  destruct (f x) eqn:Fx.
  - destruct IH as [n [e [He Fe]]]; [cbn in Hlt; lia|]. exists (S n), e. auto.
  - exists 0%nat, x. auto.
Qed.

Lemma exists_unoccupied es cap : length es = Z.to_nat cap -> n_occupied es < cap ->
  exists i, 0 <= i < cap /\ occupied (Tbl.entry_at es i) = false.
Proof.
  intros Hlen Hlt. unfold n_occupied in Hlt.
  destruct (filter_length_lt occupied es ltac:(lia)) as [n [e [He Fe]]].
  exists (Z.of_nat n). pose proof (lookup_lt_Some _ _ _ He). split; [lia|].
  unfold Tbl.entry_at. rewrite Nat2Z.id, He. exact Fe.
Qed.

Lemma filter_length_insert {A} (f : A -> bool) (l : list A) n x old : l !! n = Some old ->
  (length (List.filter f (<[n := x]> l)) + (if f old then 1 else 0) =
   length (List.filter f l) + (if f x then 1 else 0))%nat.
Proof.
  revert n. induction l as [|y l IH]; intros n Hn; [discriminate|].
  destruct n as [|n]; simpl in Hn |- *.
  - injection Hn as Hy. subst. destruct (f old), (f x); cbn; lia.
  - specialize (IH n Hn). destruct (f y); cbn; lia.
Qed.

Lemma bindings_cons e l : bindings (e :: l) = bindings [e] ++ bindings l.
Proof. unfold bindings. cbn. destruct (Tbl.key e); reflexivity. Qed.

Lemma bindings_insert (l : list Tbl.Entry) n e old : l !! n = Some old ->
  exists pre post, bindings l = pre ++ bindings [old] ++ post /\
                   bindings (<[n := e]> l) = pre ++ bindings [e] ++ post.
Proof.
  revert n. induction l as [|y l IH]; intros n Hn; [discriminate|].
  destruct n as [|n]; simpl in Hn.
  - simplify_eq. exists [], (bindings l).
    change (<[0%nat := e]> (old :: l)) with (e :: l).
    rewrite (bindings_cons old l), (bindings_cons e l). split; reflexivity.
  - destruct (IH n Hn) as [pre [post [E1 E2]]].
    change (<[S n := e]> (y :: l)) with (y :: <[n := e]> l).
    rewrite (bindings_cons y l), (bindings_cons y (<[n := e]> l)), E1, E2.
    exists (bindings [y] ++ pre), post. rewrite <- !app_assoc. split; reflexivity.
Qed.

Lemma in_bindings (l : list Tbl.Entry) kv : In kv (bindings l) ->
  exists n e, l !! n = Some e /\ Tbl.key e = Some (fst kv) /\ Tbl.value e = snd kv.
Proof.
  induction l as [|y l IH]; [intros []|]. rewrite (bindings_cons y l). intros Hin.
  apply in_app_or in Hin. destruct Hin as [Hin|Hin].
  - unfold bindings in Hin. cbn in Hin. destruct (Tbl.key y) eqn:Ey; cbn in Hin; [|destruct Hin].
    destruct Hin as [<-|[]]. exists 0%nat, y. auto.
  - destruct (IH Hin) as [n [e He]]. exists (S n), e. exact He.
Qed.

Lemma bindings_in (l : list Tbl.Entry) n e k : l !! n = Some e -> Tbl.key e = Some k ->
  In (k, Tbl.value e) (bindings l).
Proof.
  revert n. induction l as [|y l IH]; intros n Hn Hk; [discriminate|].
  rewrite (bindings_cons y l). apply in_or_app.
  destruct n as [|n]; simpl in Hn.
  - simplify_eq. left. unfold bindings. cbn. rewrite Hk. left. reflexivity.
  - right. eapply IH; eauto.
Qed.

Lemma lookup_binding_none l k : (forall kv, In kv l -> sid (fst kv) <> sid k) ->
  lookup_binding l k = None.
Proof.
  intros H. unfold lookup_binding. induction l as [|kv l IH]; [reflexivity|]. cbn.
  destruct (Nat.eqb_spec (sid (fst kv)) (sid k)) as [E|_].
  - exfalso. apply (H kv); [left; reflexivity | exact E].
  - apply IH. intros kv' Hin. apply H. right. exact Hin.
Qed.

Lemma lookup_binding_app l1 l2 k : (forall kv, In kv l1 -> sid (fst kv) <> sid k) ->
  lookup_binding (l1 ++ l2) k = lookup_binding l2 k.
Proof.
  intros H. unfold lookup_binding. induction l1 as [|kv l IH]; [reflexivity|]. cbn.
  destruct (Nat.eqb_spec (sid (fst kv)) (sid k)) as [E|_].
  - exfalso. apply (H kv); [left; reflexivity | exact E].
  - apply IH. intros kv' Hin. apply H. right. exact Hin.
Qed.

Lemma entry_at_lookup (l : list Tbl.Entry) n e : l !! n = Some e -> Tbl.entry_at l (Z.of_nat n) = e.
Proof. intros H. unfold Tbl.entry_at. rewrite Nat2Z.id, H. reflexivity. Qed.

Lemma entry_at_out (l : list Tbl.Entry) i : Z.of_nat (length l) <= i -> Tbl.entry_at l i = Tbl.empty_entry.
Proof.
  intros H. unfold Tbl.entry_at. rewrite lookup_ge_None_2; [reflexivity | lia].
Qed.

Lemma occupied_insert es cap q e x : length es = Z.to_nat cap -> 0 <= q < cap -> 0 <= x < cap ->
  occupied e = true -> occupied (Tbl.entry_at es x) = true ->
  occupied (Tbl.entry_at (<[Z.to_nat q := e]> es) x) = true.
Proof.
  intros Hl Hq Hx He Ho. rewrite entry_at_insert by lia. destruct (x =? q); assumption.
Qed.

Lemma core_replace es cap p e : table_core es cap -> 0 <= p < cap -> occupied e = true ->
  (Tbl.key e = None \/ Tbl.key e = Tbl.key (Tbl.entry_at es p)) ->
  table_core (<[Z.to_nat p := e]> es) cap.
Proof.
  intros [Hlen [Huniq Hprobe]] Hp Ho Hk.
  assert (Hkey : forall i k, 0 <= i < cap -> Tbl.key (Tbl.entry_at (<[Z.to_nat p := e]> es) i) = Some k ->
                             Tbl.key (Tbl.entry_at es i) = Some k).
  { intros i k Hi. rewrite entry_at_insert by lia. destruct (Z.eqb_spec i p) as [->|]; [|auto].
    destruct Hk as [-> | ->]; [discriminate | auto]. }
  split; [rewrite length_insert; exact Hlen|]. split.
  - intros i j ki kj Hi Hj Ei Ej. apply (Huniq i j ki kj Hi Hj); auto.
  - intros i k Hi Ek. destruct (Hprobe i k Hi (Hkey i k Hi Ek)) as [D [HD [Ei Hocc]]].
    exists D. split; [exact HD|]. split; [exact Ei|]. intros j Hj.
    assert (0 < cap) by lia.
    apply (occupied_insert es cap); try assumption; try reflexivity; [apply pos_range; lia | apply Hocc; exact Hj].
Qed.

Lemma core_insert_new es cap k v R : table_core es cap -> 0 < cap ->
  (forall i k'', 0 <= i < cap -> Tbl.key (Tbl.entry_at es i) = Some k'' -> sid k'' <> sid k) ->
  0 <= R < cap -> Tbl.key (Tbl.entry_at es (pos (hash k) R cap)) = None ->
  (forall j, 0 <= j < R -> occupied (Tbl.entry_at es (pos (hash k) j cap)) = true) ->
  table_core (<[Z.to_nat (pos (hash k) R cap) := Tbl.mkEntry (Some k) v]> es) cap.
Proof.
  intros [Hlen [Huniq Hprobe]] Hc Habs HR Hq Hocc.
  pose proof (pos_range (hash k) R cap Hc) as Hqr.
  set (q := pos (hash k) R cap) in *.
  split; [rewrite length_insert; exact Hlen|]. split.
  - intros i j ki kj Hi Hj. rewrite !entry_at_insert by lia.
    destruct (Z.eqb_spec i q) as [->|Hiq]; destruct (Z.eqb_spec j q) as [->|Hjq]; cbn.
    + reflexivity.
    + intros [= <-] Ej Es. exfalso. apply (Habs j kj Hj Ej). congruence.
    + intros Ei [= <-] Es. exfalso. apply (Habs i ki Hi Ei). exact Es.
    + apply Huniq; assumption.
  - intros i k0 Hi. rewrite entry_at_insert by lia.
    destruct (Z.eqb_spec i q) as [->|Hiq]; cbn.
    + intros [= <-]. exists R. split; [exact HR|]. split; [reflexivity|].
      intros j Hj. apply (occupied_insert es cap); try assumption; try reflexivity; [apply pos_range; lia | apply Hocc; exact Hj].
    + intros Ek. destruct (Hprobe i k0 Hi Ek) as [D [HD [Ei Hocc']]].
      exists D. split; [exact HD|]. split; [exact Ei|]. intros j Hj.
      apply (occupied_insert es cap); try assumption; try reflexivity; [apply pos_range; lia | apply Hocc'; exact Hj].
Qed.

Lemma n_occupied_insert es n e old : es !! n = Some old ->
  n_occupied (<[n := e]> es) + (if occupied old then 1 else 0) =
  n_occupied es + (if occupied e then 1 else 0).
Proof.
  intros H. unfold n_occupied. pose proof (filter_length_insert occupied es n e old H).
  destruct (occupied old), (occupied e); lia.
Qed.

Lemma nodup_bindings_of (l : list Tbl.Entry) :
  (forall n1 n2 e1 e2 k1 k2, l !! n1 = Some e1 -> l !! n2 = Some e2 ->
     Tbl.key e1 = Some k1 -> Tbl.key e2 = Some k2 -> sid k1 = sid k2 -> n1 = n2) ->
  NoDup (map (fun kv => sid (fst kv)) (bindings l)).
Proof.
  induction l as [|y l IH]; intros H; [constructor|].
  rewrite (bindings_cons y l).
  assert (IH' : NoDup (map (fun kv => sid (fst kv)) (bindings l))).
  { apply IH. intros n1 n2 e1 e2 k1 k2 H1 H2 K1 K2 Hs.
    assert (S n1 = S n2)%nat by (apply (H (S n1) (S n2) e1 e2 k1 k2); assumption). lia. }
  unfold bindings at 1. cbn. destruct (Tbl.key y) as [ky|] eqn:Ey; cbn; [|exact IH'].
  constructor; [|exact IH'].
  intros Hin. apply list_elem_of_In, in_map_iff in Hin. destruct Hin as [kv [Es Hin]].
  destruct (in_bindings l kv Hin) as [n [e [He [Ke _]]]].
  assert (0%nat = S n) by (apply (H 0%nat (S n) y e ky (fst kv)); auto). lia.
Qed.

Lemma core_nodup es cap : table_core es cap -> NoDup (map (fun kv => sid (fst kv)) (bindings es)).
Proof.
  intros [Hlen [Huniq _]]. apply nodup_bindings_of.
  intros n1 n2 e1 e2 k1 k2 H1 H2 K1 K2 Hs.
  pose proof (lookup_lt_Some _ _ _ H1). pose proof (lookup_lt_Some _ _ _ H2).
  assert (Z.of_nat n1 = Z.of_nat n2); [|lia].
  apply (Huniq _ _ k1 k2); [lia | lia | rewrite (entry_at_lookup _ _ _ H1); exact K1
                          | rewrite (entry_at_lookup _ _ _ H2); exact K2 | exact Hs].
Qed.

Lemma lookup_binding_some l k v : lookup_binding l k = Some v ->
  exists k', In (k', v) l /\ sid k' = sid k.
Proof.
  unfold lookup_binding. destruct (List.find _ l) as [[k' v']|] eqn:F; cbn; [|discriminate].
  intros [= ->]. exists k'. split; [eapply find_some; exact F|].
  apply find_some in F. destruct F as [_ F]. apply Nat.eqb_eq, F.
Qed.

Lemma lookup_binding_complete l kv k : NoDup (map (fun kv => sid (fst kv)) l) ->
  In kv l -> sid (fst kv) = sid k -> lookup_binding l k = Some (snd kv).
Proof.
  unfold lookup_binding. induction l as [|x l IH]; intros Hnd Hin Hs; [destruct Hin|].
  cbn. inversion Hnd as [|? ? Hx Hnd']. subst.
  destruct Hin as [<-|Hin].
  - rewrite Hs, Nat.eqb_refl. reflexivity.
  - destruct (Nat.eqb_spec (sid (fst x)) (sid k)) as [E|_].
    + exfalso. apply Hx. apply list_elem_of_In, in_map_iff. exists kv. split; [congruence | exact Hin].
    + apply IH; assumption.
Qed.

Lemma lookup_binding_perm l l' k : NoDup (map (fun kv => sid (fst kv)) l) -> Permutation l l' ->
  lookup_binding l k = lookup_binding l' k.
Proof.
  intros Hnd Hp.
  assert (Hnd' : NoDup (map (fun kv => sid (fst kv)) l')).
  { assert (Hpm : map (fun kv => sid (fst kv)) l ≡ₚ map (fun kv => sid (fst kv)) l')
      by (apply Permutation_map; exact Hp).
    rewrite <- Hpm. exact Hnd. }
  destruct (lookup_binding l k) as [v|] eqn:E1.
  - destruct (lookup_binding_some _ _ _ E1) as [k' [Hin Hs]].
    symmetry. apply (lookup_binding_complete l' (k', v) k Hnd'); [|exact Hs].
    eapply Permutation_in; eassumption.
  - destruct (lookup_binding l' k) as [v|] eqn:E2; [|reflexivity].
    destruct (lookup_binding_some _ _ _ E2) as [k' [Hin Hs]].
    rewrite (lookup_binding_complete l (k', v) k Hnd) in E1; [discriminate| |exact Hs].
    eapply Permutation_in; [symmetry; exact Hp | exact Hin].
Qed.

Lemma bindings_unoccupied (l : list Tbl.Entry) : length (List.filter occupied l) = 0%nat ->
  bindings l = [].
Proof.
  induction l as [|y l IH]; [reflexivity|]. intros H. rewrite (bindings_cons y l).
  cbn in H. destruct (occupied y) eqn:Oy; cbn in H; [discriminate|].
  unfold occupied in Oy. unfold bindings at 1. cbn.
  destruct (Tbl.key y); [discriminate|]. cbn. apply IH, H.
Qed.

Lemma tableGet_spec t k : table_wf t -> key_consistent t k ->
  Tbl.tableGet t k = lookup_binding (bindings (Tbl.entries t)) k.
Proof.
  intros [Hcore [Hcap0 [Hcnt Hload]]] Hcons.
  pose proof (core_nodup _ _ Hcore) as Hnd.
  pose proof (proj1 Hcore) as Hlen.
  unfold Tbl.tableGet. destruct (Z.eqb_spec (Tbl.count t) 0) as [E0|E0].
  - rewrite bindings_unoccupied; [reflexivity|]. unfold n_occupied in Hcnt. lia.
  - assert (Hc : 0 < Tbl.capacity t) by (unfold n_occupied in Hcnt; lia).
    destruct (lookup_binding (bindings (Tbl.entries t)) k) as [v|] eqn:L.
    + destruct (lookup_binding_some _ _ _ L) as [k' [Hin Hs]].
      assert (Hk' : k' = k) by exact (Hcons (k', v) Hin Hs). subst k'.
      destruct (in_bindings _ _ Hin) as [n [e [He [Ke Ve]]]]. cbn in Ke, Ve.
      pose proof (lookup_lt_Some _ _ _ He) as Hn.
      rewrite (findEntry_present _ _ (Z.of_nat n) k Hcore Hc) by
        (try lia; rewrite (entry_at_lookup _ _ _ He); exact Ke).
      rewrite (entry_at_lookup _ _ _ He), Ke, Ve. reflexivity.
    + assert (Habs : forall i k'', 0 <= i < Tbl.capacity t ->
                Tbl.key (Tbl.entry_at (Tbl.entries t) i) = Some k'' -> sid k'' <> sid k).
      { intros i k'' Hi Ek Es.
        assert (Hl : (Z.to_nat i < length (Tbl.entries t))%nat) by lia.
        destruct (lookup_lt_is_Some_2 _ _ Hl) as [e He].
        unfold Tbl.entry_at in Ek. rewrite He in Ek.
        pose proof (bindings_in _ _ _ _ He Ek) as Hin.
        rewrite (lookup_binding_complete _ _ k Hnd Hin Es) in L. discriminate. }
      destruct (findEntry_absent _ _ k Hcore Hc Habs) as [R [HR [-> [Hq _]]]].
      { apply exists_unoccupied; [exact Hlen | lia]. }
      rewrite Hq. reflexivity.
Qed.

Lemma repeat_lookup {A} (x : A) n i : repeat x n !! i = None \/ repeat x n !! i = Some x.
Proof.
  revert i. induction n as [|n IH]; intros i; [left; reflexivity|].
  destruct i as [|i]; [right; reflexivity|]. apply IH.
Qed.

Lemma entry_at_repeat n x : Tbl.entry_at (repeat Tbl.empty_entry n) x = Tbl.empty_entry.
Proof.
  unfold Tbl.entry_at. destruct (repeat_lookup Tbl.empty_entry n (Z.to_nat x)) as [-> | ->]; reflexivity.
Qed.

Lemma n_occupied_repeat n : n_occupied (repeat Tbl.empty_entry n) = 0.
Proof. unfold n_occupied. induction n as [|n IH]; [reflexivity|]. cbn. exact IH. Qed.

Lemma bindings_repeat n : bindings (repeat Tbl.empty_entry n) = [].
Proof. apply bindings_unoccupied. pose proof (n_occupied_repeat n). unfold n_occupied in H. lia. Qed.

Lemma nodup_middle_notin (P L : list (ObjString * Value)) kv :
  NoDup (map (fun kv => sid (fst kv)) (P ++ kv :: L)) ->
  forall kv', In kv' P -> sid (fst kv') <> sid (fst kv).
Proof.
  intros H kv' Hin E. rewrite map_app in H. apply NoDup_app in H. destruct H as [_ [Hdis _]].
  apply (Hdis (sid (fst kv'))).
  - apply list_elem_of_In. apply (in_map (fun kv => sid (fst kv))). exact Hin.
  - rewrite E. cbn. left.
Qed.

Lemma bindings_keyless e : Tbl.key e = None -> bindings [e] = [].
Proof. intros H. unfold bindings. cbn. rewrite H. reflexivity. Qed.

Lemma adjust_fold c l : 0 < c -> forall es cnt P,
  table_core es c -> cnt = n_occupied es -> n_occupied es = Z.of_nat (length P) ->
  no_tombstones es c -> Permutation (bindings es) P ->
  NoDup (map (fun kv => sid (fst kv)) (P ++ bindings l)) -> Z.of_nat (length (P ++ bindings l)) <= c ->
  let r := fold_left (fun (acc : list Tbl.Entry * Z) (e : Tbl.Entry) =>
      let '(es, cnt) := acc in
      match Tbl.key e with
      | None => (es, cnt)
      | Some k => (<[Z.to_nat (Tbl.findEntry es c k) := e]> es, cnt + 1)
      end) l (es, cnt) in
  table_core (fst r) c /\ snd r = n_occupied (fst r) /\
  n_occupied (fst r) = Z.of_nat (length (P ++ bindings l)) /\ no_tombstones (fst r) c /\
  Permutation (bindings (fst r)) (P ++ bindings l).
Proof.
  intros Hc. induction l as [|e l IH]; intros es cnt P Hcore Hcnt Hocc Hnt Hperm Hnd Hlen.
  - cbn. assert (Hn : bindings (@nil Tbl.Entry) = []) by reflexivity. rewrite Hn, app_nil_r in *.
    refine (conj _ (conj _ (conj _ (conj _ _)))); assumption.
  - cbn [fold_left]. rewrite (bindings_cons e l) in Hnd, Hlen |- *.
    destruct (Tbl.key e) as [k|] eqn:Ek.
    + destruct e as [ke ve]. cbn in Ek. subst ke.
      assert (Hb : bindings [Tbl.mkEntry (Some k) ve] = [(k, ve)]) by reflexivity.
      rewrite Hb in Hnd, Hlen |- *. cbn [app] in Hnd, Hlen.
      pose proof (nodup_middle_notin P (bindings l) (k, ve) Hnd) as Hnot. cbn in Hnot.
      assert (Habs : forall i k'', 0 <= i < c -> Tbl.key (Tbl.entry_at es i) = Some k'' -> sid k'' <> sid k).
      { intros i k'' Hi Ek'' Es.
        assert (Hl : (Z.to_nat i < length es)%nat) by (destruct Hcore; lia).
        destruct (lookup_lt_is_Some_2 _ _ Hl) as [e' He'].
        unfold Tbl.entry_at in Ek''. rewrite He' in Ek''.
        pose proof (bindings_in _ _ _ _ He' Ek'') as Hin.
        apply (Hnot (k'', Tbl.value e')); [eapply Permutation_in; eassumption | exact Es]. }
      rewrite length_app in Hlen. cbn in Hlen.
      destruct (findEntry_absent es c k Hcore Hc Habs) as [R [HR [Efind [Hq Hbefore]]]].
      { apply exists_unoccupied; [apply Hcore | lia]. }
      rewrite Efind.
      set (q := pos (hash k) R c) in *.
      pose proof (pos_range (hash k) R c Hc) as Hqr. fold q in Hqr.
      assert (Hl : (Z.to_nat q < length es)%nat) by (destruct Hcore; lia).
      destruct (lookup_lt_is_Some_2 _ _ Hl) as [old Hold].
      assert (Eold : Tbl.entry_at es q = old) by (unfold Tbl.entry_at; rewrite Hold; reflexivity).
      assert (Oold : occupied old = false) by (rewrite <- Eold; apply Hnt; [exact Hqr | exact Hq]).
      pose proof (n_occupied_insert es (Z.to_nat q) (Tbl.mkEntry (Some k) ve) old Hold) as Hn.
      rewrite Oold in Hn. cbn in Hn.
      destruct (bindings_insert es (Z.to_nat q) (Tbl.mkEntry (Some k) ve) old Hold) as [pre [post [E1 E2]]].
      rewrite (bindings_keyless old) in E1 by (rewrite <- Eold; exact Hq). cbn in E1.
      specialize (IH (<[Z.to_nat q := Tbl.mkEntry (Some k) ve]> es) (cnt + 1) (P ++ [(k, ve)])).
      rewrite <- app_assoc in IH. cbn [app] in IH.
      apply IH.
      * apply core_insert_new; assumption.
      * lia.
      * rewrite length_app. cbn. lia.
      * intros x Hx. rewrite entry_at_insert by (destruct Hcore; lia).
        destruct (Z.eqb_spec x q) as [->|]; [discriminate|]. apply Hnt. exact Hx.
      * rewrite E2. rewrite E1 in Hperm. rewrite <- Hperm. cbn.
        rewrite (Permutation_app_comm pre ((k, ve) :: post)), (Permutation_app_comm pre post).
        cbn. rewrite <- Permutation_middle. rewrite app_nil_r. reflexivity.
      * exact Hnd.
      * rewrite length_app in *. cbn in *. lia.
    + rewrite (bindings_keyless e Ek) in Hnd, Hlen |- *. cbn [app] in Hnd, Hlen |- *.
      apply IH; assumption.
Qed.

Lemma core_repeat c : 0 <= c -> table_core (repeat Tbl.empty_entry (Z.to_nat c)) c.
Proof.
  intros Hc. split; [apply repeat_length|]. split.
  - intros i j ki kj _ _ Hi. rewrite entry_at_repeat in Hi. discriminate.
  - intros i k _ Hi. rewrite entry_at_repeat in Hi. discriminate.
Qed.

Lemma bindings_le_occupied (l : list Tbl.Entry) :
  Z.of_nat (length (bindings l)) <= n_occupied l.
Proof.
  unfold n_occupied. induction l as [|y l IH]; [cbn; lia|].
  rewrite (bindings_cons y l). rewrite length_app. cbn [List.filter].
  destruct (Tbl.key y) as [k|] eqn:Ek.
  - assert (Hb : bindings [y] = [(k, Tbl.value y)]) by (unfold bindings; cbn; rewrite Ek; reflexivity).
    assert (Ho : occupied y = true) by (unfold occupied; rewrite Ek; reflexivity).
    rewrite Hb, Ho. cbn [length]. lia.
  - rewrite (bindings_keyless y Ek). cbn [length]. destruct (occupied y); cbn [length]; lia.
Qed.

Lemma occupied_n_occupied (l : list Tbl.Entry) n e : l !! n = Some e -> occupied e = true ->
  1 <= n_occupied l.
Proof.
  unfold n_occupied. revert n. induction l as [|y l IH]; intros n Hn Ho; [discriminate|].
  destruct n as [|n]; cbn in Hn.
  - simplify_eq. cbn. rewrite Ho. cbn. lia.
  - specialize (IH n Hn Ho). cbn. destruct (occupied y); cbn; lia.
Qed.

Lemma adjustCapacity_spec t c : 0 < c -> table_core (Tbl.entries t) (Tbl.capacity t) ->
  Z.of_nat (length (bindings (Tbl.entries t))) <= c ->
  table_core (Tbl.entries (Tbl.adjustCapacity t c)) c /\
  Tbl.capacity (Tbl.adjustCapacity t c) = c /\
  Tbl.count (Tbl.adjustCapacity t c) = n_occupied (Tbl.entries (Tbl.adjustCapacity t c)) /\
  n_occupied (Tbl.entries (Tbl.adjustCapacity t c)) = Z.of_nat (length (bindings (Tbl.entries t))) /\
  Permutation (bindings (Tbl.entries (Tbl.adjustCapacity t c))) (bindings (Tbl.entries t)).
Proof.
  intros Hc Hcore Hlen.
  pose proof (adjust_fold c (Tbl.entries t) Hc (repeat Tbl.empty_entry (Z.to_nat c)) 0 [])
    as H.
  cbn [app] in H. rewrite n_occupied_repeat, bindings_repeat in H.
  specialize (H (core_repeat c ltac:(lia)) eq_refl eq_refl).
  specialize (H ltac:(intros x _ _; rewrite entry_at_repeat; reflexivity) (Permutation_refl _)
                (core_nodup _ _ Hcore) Hlen).
  cbv zeta in H. unfold Tbl.adjustCapacity. cbv zeta.
  destruct (fold_left _ (Tbl.entries t) _) as [es cnt]. cbn in H |- *.
  destruct H as [H1 [H2 [H3 [_ H5]]]]. auto.
Qed.

Lemma resize_step t t1 : table_wf t ->
  t1 = (if Tbl.TABLE_MAX_LOAD_exceeded (Tbl.count t) (Tbl.capacity t)
        then Tbl.adjustCapacity t (Tbl.GROW_CAPACITY (Tbl.capacity t)) else t) ->
  table_core (Tbl.entries t1) (Tbl.capacity t1) /\ 0 < Tbl.capacity t1 /\
  Tbl.count t1 = n_occupied (Tbl.entries t1) /\ 4 * (Tbl.count t1 + 1) <= 3 * Tbl.capacity t1 /\
  Permutation (bindings (Tbl.entries t1)) (bindings (Tbl.entries t)).
Proof.
  intros [Hcore [Hcap0 [Hcnt Hload]]] ->.
  pose proof (bindings_le_occupied (Tbl.entries t)) as Hb.
  unfold Tbl.TABLE_MAX_LOAD_exceeded. destruct (Z.ltb_spec (3 * Tbl.capacity t) (4 * (Tbl.count t + 1))).
  - assert (Hg : 0 < Tbl.GROW_CAPACITY (Tbl.capacity t) /\
                 4 * (Z.of_nat (length (bindings (Tbl.entries t))) + 1) <= 3 * Tbl.GROW_CAPACITY (Tbl.capacity t)).
    { unfold Tbl.GROW_CAPACITY. destruct (Z.ltb_spec (Tbl.capacity t) 8); lia. }
    destruct (adjustCapacity_spec t (Tbl.GROW_CAPACITY (Tbl.capacity t)) ltac:(lia) Hcore ltac:(lia))
      as [A1 [A2 [A3 [A4 A5]]]].
    rewrite A2. refine (conj A1 (conj _ (conj A3 (conj _ A5)))); lia.
  - refine (conj Hcore (conj _ (conj Hcnt (conj _ (Permutation_refl _))))); lia.
Qed.

Lemma tableSet_delete_new t k v : table_wf t ->
  (forall kv, In kv (bindings (Tbl.entries t)) -> sid (fst kv) <> sid k) ->
  snd (Tbl.tableSet t k v) = true /\
  table_wf (fst (Tbl.tableDelete (fst (Tbl.tableSet t k v)) k)) /\
  Permutation (bindings (Tbl.entries (fst (Tbl.tableDelete (fst (Tbl.tableSet t k v)) k))))
              (bindings (Tbl.entries t)).
Proof.
  intros Hwf Habs. unfold Tbl.tableSet. cbv zeta.
  set (t1 := if Tbl.TABLE_MAX_LOAD_exceeded (Tbl.count t) (Tbl.capacity t)
             then Tbl.adjustCapacity t (Tbl.GROW_CAPACITY (Tbl.capacity t)) else t).
  destruct (resize_step t t1 Hwf eq_refl) as [Hc1 [Hcap1 [Hcnt1 [Hload1 Hperm1]]]].
  clearbody t1. set (es1 := Tbl.entries t1) in *. set (c1 := Tbl.capacity t1) in *.
  assert (Habs1 : forall i k'', 0 <= i < c1 -> Tbl.key (Tbl.entry_at es1 i) = Some k'' -> sid k'' <> sid k).
  { intros i k'' Hi Ek''.
    assert (Hl : (Z.to_nat i < length es1)%nat) by (destruct Hc1; lia).
    destruct (lookup_lt_is_Some_2 _ _ Hl) as [e' He'].
    unfold Tbl.entry_at in Ek''. rewrite He' in Ek''.
    pose proof (bindings_in _ _ _ _ He' Ek'') as Hin.
    apply (Habs (k'', Tbl.value e')). eapply Permutation_in; eassumption. }
  destruct (findEntry_absent es1 c1 k Hc1 Hcap1 Habs1) as [R [HR [Efind [Hq Hbefore]]]].
  { apply exists_unoccupied; [apply Hc1 | lia]. }
  rewrite Efind. set (q := pos (hash k) R c1) in *.
  pose proof (pos_range (hash k) R c1 Hcap1) as Hqr. fold q in Hqr.
  assert (Hl : (Z.to_nat q < length es1)%nat) by (destruct Hc1; lia).
  destruct (lookup_lt_is_Some_2 _ _ Hl) as [old Hold].
  assert (Eold : Tbl.entry_at es1 q = old) by (unfold Tbl.entry_at; rewrite Hold; reflexivity).
  pose proof Hq as Hq0. rewrite Eold in Hq |- *. rewrite Hq. cbn [andb fst snd]. split; [reflexivity|].
  set (cnt := if IS_NIL (Tbl.value old) then Tbl.count t1 + 1 else Tbl.count t1).
  set (es2 := <[Z.to_nat q := Tbl.mkEntry (Some k) v]> es1).
  assert (Hc2 : table_core es2 c1) by (apply core_insert_new; [exact Hc1 | exact Hcap1 | exact Habs1 | exact HR | exact Hq0 | exact Hbefore]).
  assert (Hcnt2 : cnt = n_occupied es2).
  { pose proof (n_occupied_insert es1 (Z.to_nat q) (Tbl.mkEntry (Some k) v) old Hold) as Hn.
    fold es2 in Hn. unfold occupied at 1 in Hn. rewrite Hq in Hn. cbn in Hn. unfold cnt.
    destruct (IS_NIL (Tbl.value old)); cbn in Hn; lia. }
  assert (Hl2 : es2 !! Z.to_nat q = Some (Tbl.mkEntry (Some k) v)).
  { unfold es2. rewrite list_lookup_insert. destruct (decide _); [reflexivity | exfalso; lia]. }
  assert (Hpos2 : 1 <= n_occupied es2) by (eapply occupied_n_occupied; [exact Hl2 | reflexivity]).
  assert (Hk2 : Tbl.key (Tbl.entry_at es2 q) = Some k) by (unfold Tbl.entry_at; rewrite Hl2; reflexivity).
  unfold Tbl.tableDelete. cbn [Tbl.count Tbl.entries Tbl.capacity].
  replace (cnt =? 0) with false by (symmetry; apply Z.eqb_neq; lia).
  rewrite (findEntry_present es2 c1 q k Hc2 Hcap1 Hqr Hk2), Hk2. cbn [fst Tbl.entries Tbl.capacity Tbl.count].
  assert (Hlen2 : length es2 = length es1) by (unfold es2; apply length_insert).
  split.
  - unfold table_wf; cbn [Tbl.count Tbl.capacity Tbl.entries].
    split; [|split; [lia|split]].
    + apply core_replace; [exact Hc2 | exact Hqr | reflexivity | left; reflexivity].
    + pose proof (n_occupied_insert es2 (Z.to_nat q) Tbl.tombstone_entry _ Hl2) as Hn.
      cbn in Hn. lia.
    + assert (cnt <= Tbl.count t1 + 1) by (unfold cnt; destruct (IS_NIL _); lia). lia.
  - unfold es2. rewrite list_insert_insert. rewrite decide_True by reflexivity.
    destruct (bindings_insert es1 (Z.to_nat q) Tbl.tombstone_entry old Hold) as [pre [post [E1 E2]]].
    rewrite E2. rewrite (bindings_keyless old Hq) in E1.
    rewrite (bindings_keyless Tbl.tombstone_entry eq_refl). rewrite <- E1. exact Hperm1.
Qed.

Lemma READ_BYTE_state s fi b s1 : READ_BYTE s fi = Some (b, s1) ->
  s1 = set_ip s fi (ip (frames s fi) + 1).
Proof.
  unfold READ_BYTE, mbind, option_bind.
  destruct (frame_function s (frames s fi)); [|discriminate].
  destruct (ip (frames s fi) <? 0); [discriminate|].
  destruct (_ !! _); [|discriminate]. intros [= _ <-]. reflexivity.
Qed.

Lemma READ_STRING_globals s fi nm s1 : READ_STRING s fi = Some (nm, s1) ->
  globals s1 = globals s /\ globalPerms s1 = globalPerms s.
Proof.
  unfold READ_STRING, READ_CONSTANT, mbind, option_bind.
  destruct (READ_BYTE s fi) as [[i s0]|] eqn:E; [|discriminate].
  apply READ_BYTE_state in E. subst s0.
  destruct (frame_function _ _); [|discriminate].
  destruct (_ !! _); [|discriminate].
  destruct (AS_STRING _ _); [|discriminate].
  intros [= _ <-]. split; reflexivity.
Qed.

Lemma runtimeError_globals s msg :
  globals (runtimeError s msg) = globals s /\ globalPerms (runtimeError s msg) = globalPerms s.
Proof.
  unfold runtimeError. cbn.
  generalize (rev (seqZ 0 (frameCount s))).
  assert (H0 : globals (emit s (OUT_ERROR msg)) = globals s /\
               globalPerms (emit s (OUT_ERROR msg)) = globalPerms s) by (split; reflexivity).
  revert H0. generalize (emit s (OUT_ERROR msg)).
  intros s0 H0 l. revert s0 H0.
  induction l as [|i l IH]; intros s0 H0; [exact H0|].
  cbn. apply IH. exact H0.
Qed.

Lemma initTable_wf : table_wf Tbl.initTable.
Proof.
  unfold table_wf, table_core. cbn. repeat split; intros; lia.
Qed.

Lemma tableGet_perm t t' k : table_wf t -> table_wf t' ->
  Permutation (bindings (Tbl.entries t')) (bindings (Tbl.entries t)) ->
  key_consistent t k -> Tbl.tableGet t' k = Tbl.tableGet t k.
Proof.
  intros Hwf Hwf' Hp Hc.
  assert (Hc' : key_consistent t' k).
  { intros kv Hin. apply Hc. eapply Permutation_in; eassumption. }
  rewrite (tableGet_spec t' k Hwf' Hc'), (tableGet_spec t k Hwf Hc).
  apply lookup_binding_perm; [apply (core_nodup _ _ (proj1 Hwf')) | exact Hp].
Qed.

(** ** Assignment to an undefined global *)

(** C10: executing [OP_SET_GLOBAL] for a name with no binding in a
    well-formed globals table halts with the undefined-variable runtime
    error.  The table left behind is well formed, holds the same bindings as
    before (up to slot order) and answers every [tableGet] as before. *)
Theorem SET_GLOBAL_undefined_keeps_bindings (s : VM) (fi : Z) (nm : ObjString) (s1 : VM)
  (Hr : READ_STRING s fi = Some (nm, s1)) (Hwf : table_wf (globals s))
  (Habs : forall kv, In kv (bindings (Tbl.entries (globals s))) -> sid (fst kv) <> sid nm) :
  exists s2, execute s fi OP_SET_GLOBAL = Some (Halt INTERPRET_RUNTIME_ERROR s2) /\
    In (OUT_ERROR ("Undefined variable '" +:+ chars nm +:+ "'.")) (output s2) /\
    table_wf (globals s2) /\
    Permutation (bindings (Tbl.entries (globals s2))) (bindings (Tbl.entries (globals s))) /\
    (forall k, key_consistent (globals s) k -> Tbl.tableGet (globals s2) k = Tbl.tableGet (globals s) k).
Proof.
  destruct (READ_STRING_globals s fi nm s1 Hr) as [Hg _].
  rewrite <- Hg in Hwf, Habs |- *.
  destruct (tableSet_delete_new (globals s1) nm (peek s1 0) Hwf Habs) as [Hnew [Hwf' Hperm']].
  unfold execute. rewrite Hr. unfold mbind, option_bind.
  destruct (Tbl.tableSet (globals s1) nm (peek s1 0)) as [g b]. cbn in Hnew, Hwf', Hperm'. subst b.
  set (s2 := set_globals s1 (fst (Tbl.tableDelete g nm))).
  exists (runtimeError s2 ("Undefined variable '" +:+ chars nm +:+ "'.")).
  destruct (runtimeError_globals s2 ("Undefined variable '" +:+ chars nm +:+ "'.")) as [Hg2 _].
  rewrite Hg2. unfold s2. cbn [globals set_globals].
  split; [reflexivity|]. split; [apply runtimeError_reports|].
  split; [exact Hwf'|]. split; [exact Hperm'|].
  intros k Hk. apply tableGet_perm; assumption.
Qed.

Lemma tableSet_new_wf t k v : table_wf t ->
  (forall kv, In kv (bindings (Tbl.entries t)) -> sid (fst kv) <> sid k) ->
  table_wf (fst (Tbl.tableSet t k v)) /\ In (k, v) (bindings (Tbl.entries (fst (Tbl.tableSet t k v)))) /\
  Permutation (bindings (Tbl.entries (fst (Tbl.tableSet t k v)))) ((k, v) :: bindings (Tbl.entries t)).
Proof.
  intros Hwf Habs. unfold Tbl.tableSet. cbv zeta.
  set (t1 := if Tbl.TABLE_MAX_LOAD_exceeded (Tbl.count t) (Tbl.capacity t)
             then Tbl.adjustCapacity t (Tbl.GROW_CAPACITY (Tbl.capacity t)) else t).
  destruct (resize_step t t1 Hwf eq_refl) as [Hc1 [Hcap1 [Hcnt1 [Hload1 Hperm1]]]].
  clearbody t1. set (es1 := Tbl.entries t1) in *. set (c1 := Tbl.capacity t1) in *.
  assert (Habs1 : forall i k'', 0 <= i < c1 -> Tbl.key (Tbl.entry_at es1 i) = Some k'' -> sid k'' <> sid k).
  { intros i k'' Hi Ek''.
    assert (Hl : (Z.to_nat i < length es1)%nat) by (destruct Hc1; lia).
    destruct (lookup_lt_is_Some_2 _ _ Hl) as [e' He'].
    unfold Tbl.entry_at in Ek''. rewrite He' in Ek''.
    pose proof (bindings_in _ _ _ _ He' Ek'') as Hin.
    apply (Habs (k'', Tbl.value e')). eapply Permutation_in; eassumption. }
  destruct (findEntry_absent es1 c1 k Hc1 Hcap1 Habs1) as [R [HR [Efind [Hq Hbefore]]]].
  { apply exists_unoccupied; [apply Hc1 | lia]. }
  rewrite Efind. set (q := pos (hash k) R c1) in *.
  pose proof (pos_range (hash k) R c1 Hcap1) as Hqr. fold q in Hqr.
  assert (Hl : (Z.to_nat q < length es1)%nat) by (destruct Hc1; lia).
  destruct (lookup_lt_is_Some_2 _ _ Hl) as [old Hold].
  assert (Eold : Tbl.entry_at es1 q = old) by (unfold Tbl.entry_at; rewrite Hold; reflexivity).
  pose proof Hq as Hq0. rewrite Eold in Hq |- *. rewrite Hq. cbn [andb fst snd].
  set (cnt := if IS_NIL (Tbl.value old) then Tbl.count t1 + 1 else Tbl.count t1).
  set (es2 := <[Z.to_nat q := Tbl.mkEntry (Some k) v]> es1).
  assert (Hc2 : table_core es2 c1) by (apply core_insert_new; [exact Hc1 | exact Hcap1 | exact Habs1 | exact HR | exact Hq0 | exact Hbefore]).
  assert (Hcnt2 : cnt = n_occupied es2).
  { pose proof (n_occupied_insert es1 (Z.to_nat q) (Tbl.mkEntry (Some k) v) old Hold) as Hn.
    fold es2 in Hn. unfold occupied at 1 in Hn. rewrite Hq in Hn. cbn in Hn. unfold cnt.
    destruct (IS_NIL (Tbl.value old)); cbn in Hn; lia. }
  assert (Hl2 : es2 !! Z.to_nat q = Some (Tbl.mkEntry (Some k) v)).
  { unfold es2. rewrite list_lookup_insert. destruct (decide _); [reflexivity | exfalso; lia]. }
  unfold table_wf; cbn [Tbl.count Tbl.capacity Tbl.entries].
  split; [split; [exact Hc2|split; [lia|split; [exact Hcnt2|]]]|].
  - assert (cnt <= Tbl.count t1 + 1) by (unfold cnt; destruct (IS_NIL _); lia). lia.
  - split; [exact (bindings_in es2 _ _ k Hl2 eq_refl)|].
    destruct (bindings_insert es1 (Z.to_nat q) (Tbl.mkEntry (Some k) v) old Hold) as [pre [post [E1 E2]]].
    fold es2 in E2. rewrite E2. rewrite (bindings_keyless old Hq) in E1. cbn in E1.
    rewrite <- Hperm1, E1. cbn. symmetry. apply Permutation_middle.
Qed.

Lemma tableSet_present t k v0 v : table_wf t -> In (k, v0) (bindings (Tbl.entries t)) ->
  snd (Tbl.tableSet t k v) = false.
Proof.
  intros Hwf Hin. unfold Tbl.tableSet. cbv zeta.
  set (t1 := if Tbl.TABLE_MAX_LOAD_exceeded (Tbl.count t) (Tbl.capacity t)
             then Tbl.adjustCapacity t (Tbl.GROW_CAPACITY (Tbl.capacity t)) else t).
  destruct (resize_step t t1 Hwf eq_refl) as [Hc1 [Hcap1 [Hcnt1 [Hload1 Hperm1]]]].
  clearbody t1.
  assert (Hin1 : In (k, v0) (bindings (Tbl.entries t1)))
    by (eapply Permutation_in; [symmetry; exact Hperm1 | exact Hin]).
  destruct (in_bindings _ _ Hin1) as [n [e [He [Hk _]]]]. cbn in Hk.
  pose proof (lookup_lt_Some _ _ _ He) as Hn.
  assert (Hp : 0 <= Z.of_nat n < Tbl.capacity t1) by (destruct Hc1; lia).
  assert (Ek : Tbl.key (Tbl.entry_at (Tbl.entries t1) (Z.of_nat n)) = Some k)
    by (unfold Tbl.entry_at; rewrite Nat2Z.id, He; exact Hk).
  rewrite (findEntry_present _ _ _ k Hc1 Hcap1 Hp Ek), Ek. reflexivity.
Qed.

(** ** String lookup in the interning table *)

Lemma entry_at_key_some es i k : Tbl.key (Tbl.entry_at es i) = Some k ->
  exists e, es !! Z.to_nat i = Some e /\ Tbl.key e = Some k /\ Tbl.entry_at es i = e.
Proof.
  unfold Tbl.entry_at. destruct (es !! Z.to_nat i) as [e|]; [|discriminate].
  intros H. exists e. auto.
Qed.

Lemma findString_loop_sound n es cap cs len h idx k' :
  Tbl.findString_loop n es cap cs len h idx = Some k' ->
  (exists i, Tbl.key (Tbl.entry_at es i) = Some k') /\ chars k' = cs.
Proof.
  revert idx. induction n as [|n IH]; intros idx H; [discriminate|].
  cbn [Tbl.findString_loop] in H.
  destruct (Tbl.key (Tbl.entry_at es idx)) as [k''|] eqn:Ek.
  - destruct ((ObjStr.length k'' =? len) && (hash k'' =? h) && String.eqb (chars k'') cs) eqn:Et.
    + injection H as <-. apply andb_prop in Et as [_ Et]. apply String.eqb_eq in Et.
      split; [exists idx; exact Ek | exact Et].
    + exact (IH _ H).
  - destruct (IS_NIL _); [discriminate|]. exact (IH _ H).
Qed.

Lemma findString_loop_complete es cap cs len h k D p :
  0 < cap -> 0 <= D < cap -> p = pos h D cap ->
  Tbl.key (Tbl.entry_at es p) = Some k -> ObjStr.length k = len -> hash k = h -> chars k = cs ->
  (forall j, 0 <= j < D -> occupied (Tbl.entry_at es (pos h j cap)) = true) ->
  forall n d, 0 <= d <= D -> D - d < Z.of_nat n ->
  exists k'', Tbl.findString_loop n es cap cs len h (pos h d cap) = Some k''.
Proof.
  intros Hc HD Hp Hk Hl Hh Hcs Hbefore n. induction n as [|n IH]; intros d Hd Hn; [lia|].
  cbn [Tbl.findString_loop].
  destruct (Z.eq_dec d D) as [->|Hne].
  - rewrite <- Hp, Hk, Hl, Hh, Hcs, Z.eqb_refl, Z.eqb_refl, String.eqb_refl. eexists. reflexivity.
  - pose proof (Hbefore d ltac:(lia)) as Hocc. unfold occupied in Hocc.
    destruct (Tbl.key (Tbl.entry_at es (pos h d cap))) as [k''|] eqn:Ek.
    + destruct (_ && _ && _); [eexists; reflexivity|].
      rewrite pos_succ by lia. apply IH; lia.
    + destruct (IS_NIL (Tbl.value (Tbl.entry_at es (pos h d cap)))); [discriminate|].
      rewrite pos_succ by lia. apply IH; lia.
Qed.

Lemma tableFindString_sound t cs len h k' : Tbl.tableFindString t cs len h = Some k' ->
  (exists v, In (k', v) (bindings (Tbl.entries t))) /\ chars k' = cs.
Proof.
  unfold Tbl.tableFindString. destruct (Tbl.count t =? 0); [discriminate|].
  intros H. destruct (findString_loop_sound _ _ _ _ _ _ _ _ H) as [[i Hi] Hcs].
  split; [|exact Hcs].
  destruct (entry_at_key_some _ _ _ Hi) as [e [He [Hk _]]].
  exists (Tbl.value e). exact (bindings_in _ _ _ _ He Hk).
Qed.

Lemma tableFindString_complete t cs len h k v : table_wf t ->
  In (k, v) (bindings (Tbl.entries t)) -> ObjStr.length k = len -> hash k = h -> chars k = cs ->
  exists k'', Tbl.tableFindString t cs len h = Some k''.
Proof.
  intros [[Hlen [_ Hprobe]] [_ [Hcnt _]]] Hin Hl Hh Hcs.
  destruct (in_bindings _ _ Hin) as [n [e [He [Hk _]]]]. cbn in Hk.
  pose proof (lookup_lt_Some _ _ _ He) as Hn.
  assert (Hi : 0 <= Z.of_nat n < Tbl.capacity t) by lia.
  assert (Ek : Tbl.key (Tbl.entry_at (Tbl.entries t) (Z.of_nat n)) = Some k)
    by (rewrite (entry_at_lookup _ _ _ He); exact Hk).
  assert (Hpos : 1 <= n_occupied (Tbl.entries t))
    by (eapply occupied_n_occupied; [exact He | unfold occupied; rewrite Hk; reflexivity]).
  unfold Tbl.tableFindString. replace (Tbl.count t =? 0) with false by (symmetry; apply Z.eqb_neq; lia).
  destruct (Hprobe _ _ Hi Ek) as [D [HD [Ep Hocc]]].
  rewrite Hh in Ep, Hocc. rewrite pos_zero.
  apply (findString_loop_complete _ _ _ _ _ k D (Z.of_nat n)); try assumption; lia.
Qed.

(** ** Preservation of interning *)

Lemma same_strs_refl s : same_strs s s.
Proof. split; [reflexivity|split; [reflexivity|split; intros; reflexivity]]. Qed.

Lemma same_strs_trans s1 s2 s3 : same_strs s1 s2 -> same_strs s2 s3 -> same_strs s1 s3.
Proof.
  intros [A1 [B1 [C1 D1]]] [A2 [B2 [C2 D2]]].
  split; [congruence|split; [congruence|split]].
  - intros o. rewrite C2. apply C1.
  - intros o. rewrite D2. apply D1.
Qed.

Lemma same_strs_of_eq s s' : heap s' = heap s -> strings s' = strings s -> nextId s' = nextId s ->
  same_strs s s'.
Proof.
  intros Hh Hs Hn. split; [exact Hs|split; [exact Hn|split]].
  - intros o. unfold string_view. rewrite Hh. reflexivity.
  - intros o. rewrite Hh. reflexivity.
Qed.

Lemma interned_same_strs s s' : interned s -> same_strs s s' -> interned s'.
Proof.
  intros [I1 [I2 [I3 [I4 I5]]]] [Hs [Hn [Hv Hnone]]].
  unfold interned. rewrite Hs, Hn.
  refine (conj I1 (conj _ (conj _ (conj _ _)))).
  - intros o str H. rewrite Hv in H. exact (I2 o str H).
  - intros kv Hin. rewrite Hv. exact (I3 kv Hin).
  - intros o Ho. apply Hnone. exact (I4 o Ho).
  - intros o1 o2 a b H1 H2. rewrite Hv in H1, H2. exact (I5 o1 o2 a b H1 H2).
Qed.

Lemma same_strs_READ_BYTE s fi b s1 : READ_BYTE s fi = Some (b, s1) -> same_strs s s1.
Proof. intros H. apply READ_BYTE_state in H. subst. apply same_strs_of_eq; reflexivity. Qed.

Lemma same_strs_READ_CONSTANT s fi v s1 : READ_CONSTANT s fi = Some (v, s1) -> same_strs s s1.
Proof.
  unfold READ_CONSTANT, mbind, option_bind.
  destruct (READ_BYTE s fi) as [[i s0]|] eqn:E; [|discriminate].
  destruct (frame_function _ _); [|discriminate].
  destruct (_ !! _); [|discriminate].
  intros [= _ <-]. exact (same_strs_READ_BYTE _ _ _ _ E).
Qed.

Lemma same_strs_READ_STRING s fi nm s1 : READ_STRING s fi = Some (nm, s1) -> same_strs s s1.
Proof.
  unfold READ_STRING, mbind, option_bind.
  destruct (READ_CONSTANT s fi) as [[v s0]|] eqn:E; [|discriminate].
  destruct (AS_STRING _ _); [|discriminate].
  intros [= _ <-]. exact (same_strs_READ_CONSTANT _ _ _ _ E).
Qed.

Lemma same_strs_READ_SHORT s fi v s1 : READ_SHORT s fi = Some (v, s1) -> same_strs s s1.
Proof.
  unfold READ_SHORT, mbind, option_bind.
  destruct (READ_BYTE s fi) as [[hi s0]|] eqn:E; [|discriminate].
  destruct (READ_BYTE s0 fi) as [[lo s2]|] eqn:E2; [|discriminate].
  intros [= _ <-]. eapply same_strs_trans; eapply same_strs_READ_BYTE; eassumption.
Qed.

Lemma same_strs_runtimeError s msg : same_strs s (runtimeError s msg).
Proof.
  unfold runtimeError. cbv zeta.
  assert (H : forall l s0, heap (fold_left (fun s i => emit s (trace_line s i)) l s0) = heap s0 /\
                           strings (fold_left (fun s i => emit s (trace_line s i)) l s0) = strings s0 /\
                           nextId (fold_left (fun s i => emit s (trace_line s i)) l s0) = nextId s0).
  { induction l as [|i l IH]; intros s0; [auto|]. cbn. exact (IH _). }
  destruct (H (rev (seqZ 0 (frameCount s))) (emit s (OUT_ERROR msg))) as [H1 [H2 H3]].
  apply same_strs_of_eq; cbn; assumption.
Qed.

Lemma same_strs_BINARY_OP s f : same_strs s (BINARY_OP s f).
Proof.
  unfold BINARY_OP. cbv zeta.
  destruct (negb (IS_NUMBER (peek s 0)) || negb (IS_NUMBER (peek s 1))).
  - eapply same_strs_trans; [apply (same_strs_runtimeError s "Operands must be numbers.")|].
    apply same_strs_of_eq; reflexivity.
  - apply same_strs_of_eq; reflexivity.
Qed.

Lemma same_strs_callValue s v n s' b : callValue s v n = Some (s', b) -> same_strs s s'.
Proof.
  unfold callValue. cbv zeta.
  destruct v as [| | |o]; try (intros [= <- _]; apply same_strs_runtimeError).
  destruct (heap s !! o) as [[m body]|] eqn:Eo; [|intros [= <- _]; apply same_strs_runtimeError].
  destruct body; try (intros [= <- _]; apply same_strs_runtimeError).
  - unfold call. rewrite Eo.
    destruct (heap s !! cfunction) as [[m' b']|]; [|discriminate].
    destruct b'; try discriminate.
    destruct (negb _); [intros [= <- _]; apply same_strs_runtimeError|].
    destruct (_ =? FRAMES_MAX); [intros [= <- _]; apply same_strs_runtimeError|].
    intros [= <- _]. apply same_strs_of_eq; reflexivity.
  - intros [= <- _]. apply same_strs_of_eq; reflexivity.
Qed.

Lemma same_strs_closeUpvalues_loop l s last : same_strs s (closeUpvalues_loop s l last).
Proof.
  revert s. induction l as [|u rest IH]; intros s; cbn [closeUpvalues_loop]; [apply same_strs_refl|].
  destruct (heap s !! u) as [[m body]|] eqn:Eu; [|apply same_strs_refl].
  destruct body; try apply same_strs_refl.
  destruct location; try apply same_strs_refl.
  destruct (last <=? slot); [|apply same_strs_refl].
  eapply same_strs_trans; [|apply IH].
  split; [reflexivity|split; [reflexivity|split]].
  - intros o. unfold string_view. cbn. rewrite lookup_insert.
    destruct (decide (u = o)) as [<-|]; [rewrite Eu; reflexivity | reflexivity].
  - intros o. cbn. rewrite lookup_insert.
    destruct (decide (u = o)) as [<-|]; [rewrite Eu; split; discriminate | reflexivity].
Qed.

Lemma reallocate_id s oldSize newSize : reallocate s oldSize newSize = s.
Proof. unfold reallocate, DEBUG_STRESS_GC. rewrite andb_false_r. reflexivity. Qed.

Lemma string_length_app (a b : string) :
  String.length (a +:+ b) = (String.length a + String.length b)%nat.
Proof. induction a as [|c a IH]; [reflexivity|]. exact (f_equal S IH). Qed.

Lemma AS_STRING_view s v a : AS_STRING s v = Some a -> exists o, v = VAL_OBJ o /\ string_view s o = Some a.
Proof. destruct v as [| | |o]; try discriminate. intros H. exists o. split; [reflexivity | exact H]. Qed.

Lemma string_view_heap s o str : string_view s o = Some str -> heap s !! o <> None.
Proof. unfold string_view. destruct (heap s !! o); [discriminate | discriminate]. Qed.

Lemma intern_found s cs len h k : interned s ->
  Tbl.tableFindString (strings s) cs len h = Some k ->
  string_view s (sid k) = Some k /\ chars k = cs.
Proof.
  intros [_ [_ [I3 _]]] H. destruct (tableFindString_sound _ _ _ _ _ H) as [[v Hin] Hcs].
  split; [exact (I3 _ Hin) | exact Hcs].
Qed.

Lemma intern_absent s cs : interned s ->
  Tbl.tableFindString (strings s) cs (Z.of_nat (String.length cs)) (hashString cs) = None ->
  forall o str, string_view s o = Some str -> chars str <> cs.
Proof.
  intros [I1 [I2 _]] H o str Hv Hcs.
  destruct (I2 o str Hv) as [_ [Hl [Hh [v Hin]]]].
  rewrite Hcs in Hl, Hh.
  destruct (tableFindString_complete _ cs _ _ str v I1 Hin Hl Hh Hcs) as [k' Hk'].
  congruence.
Qed.

Lemma interned_extend s s' str : interned s ->
  heap s' = <[sid str := mkObj false (OBJ_STRING str)]> (heap s) ->
  strings s' = fst (Tbl.tableSet (strings s) str NIL_VAL) ->
  nextId s' = S (nextId s) -> sid str = nextId s ->
  ObjStr.length str = Z.of_nat (String.length (chars str)) -> hash str = hashString (chars str) ->
  (forall o a, string_view s o = Some a -> chars a <> chars str) ->
  interned s' /\ string_view s' (sid str) = Some str /\
  (forall o a, string_view s o = Some a -> string_view s' o = Some a).
Proof.
  intros [I1 [I2 [I3 [I4 I5]]]] Hh Hs Hn Hsid Hl Hhash Hnew.
  assert (Hv : forall x, string_view s' x = if decide (sid str = x) then Some str else string_view s x).
  { intros x. unfold string_view. rewrite Hh, lookup_insert. destruct (decide _); reflexivity. }
  assert (Hfree : heap s !! sid str = None) by (apply I4; lia).
  assert (Hold : forall x a, string_view s x = Some a -> sid str <> x).
  { intros x a Hx E. apply (string_view_heap _ _ _ Hx). rewrite <- E. exact Hfree. }
  assert (Habs : forall kv, In kv (bindings (Tbl.entries (strings s))) -> sid (fst kv) <> sid str).
  { intros kv Hin E. apply (Hold _ _ (I3 kv Hin)). symmetry. exact E. }
  destruct (tableSet_new_wf (strings s) str NIL_VAL I1 Habs) as [Hwf' [Hin' Hperm']].
  rewrite <- Hs in Hwf', Hin', Hperm'.
  assert (Hkeep : forall x a, string_view s x = Some a -> string_view s' x = Some a).
  { intros x a Hx. rewrite Hv. destruct (decide _) as [E|]; [exfalso; exact (Hold _ _ Hx E) | exact Hx]. }
  split; [|split; [rewrite Hv; destruct (decide _); [reflexivity | congruence] | exact Hkeep]].
  unfold interned. rewrite Hn.
  refine (conj Hwf' (conj _ (conj _ (conj _ _)))).
  - intros x a Hx. rewrite Hv in Hx. destruct (decide (sid str = x)) as [<-|Hne].
    + injection Hx as <-. split; [reflexivity|split; [exact Hl|split; [exact Hhash|]]].
      exists NIL_VAL. exact Hin'.
    + destruct (I2 x a Hx) as [A [B [C [v Hin]]]]. split; [exact A|split; [exact B|split; [exact C|]]].
      exists v. eapply Permutation_in; [symmetry; exact Hperm' | right; exact Hin].
  - intros kv Hin. eapply Permutation_in in Hin; [|exact Hperm'].
    destruct Hin as [<-|Hin].
    + cbn. rewrite Hv. destruct (decide _); [reflexivity | congruence].
    + apply Hkeep. exact (I3 kv Hin).
  - intros x Hx. rewrite Hh, lookup_insert. destruct (decide _); [lia|]. apply I4. lia.
  - intros o1 o2 a b H1 H2 Hab. rewrite Hv in H1, H2.
    destruct (decide (sid str = o1)) as [E1|N1], (decide (sid str = o2)) as [E2|N2].
    + congruence.
    + injection H1 as <-. exfalso. exact (Hnew o2 b H2 (eq_sym Hab)).
    + injection H2 as <-. exfalso. exact (Hnew o1 a H1 Hab).
    + exact (I5 o1 o2 a b H1 H2 Hab).
Qed.

Lemma allocateString_interned s cs len h : interned s ->
  len = Z.of_nat (String.length cs) -> h = hashString cs ->
  (forall o a, string_view s o = Some a -> chars a <> cs) ->
  interned (fst (allocateString s cs len h)) /\
  string_view (fst (allocateString s cs len h)) (snd (allocateString s cs len h)) =
    Some (mkObjString (nextId s) len cs h) /\
  (forall o a, string_view s o = Some a -> string_view (fst (allocateString s cs len h)) o = Some a).
Proof.
  intros Hi Hl Hh Hnew.
  unfold allocateString, allocateObject. rewrite reallocate_id. cbv beta iota zeta.
  apply (interned_extend s _ (mkObjString (nextId s) len cs h) Hi); try reflexivity.
  - exact Hl.
  - exact Hh.
  - exact Hnew.
Qed.

Lemma takeString_interned s cs len : interned s -> len = Z.of_nat (String.length cs) ->
  interned (fst (takeString s cs len)) /\
  (exists str, string_view (fst (takeString s cs len)) (snd (takeString s cs len)) = Some str /\
               chars str = cs) /\
  (forall o a, string_view s o = Some a -> string_view (fst (takeString s cs len)) o = Some a) /\
  (forall o a, string_view s o = Some a -> chars a = cs -> o = snd (takeString s cs len)).
Proof.
  intros Hi Hl. unfold takeString. cbv zeta.
  destruct (Tbl.tableFindString (strings s) cs len (hashString cs)) as [k|] eqn:Ef.
  - destruct (intern_found _ _ _ _ _ Hi Ef) as [Hk Hcs]. cbn [fst snd]. rewrite reallocate_id.
    split; [exact Hi|split; [exists k; split; assumption|split; [auto|]]].
    intros o a Ha Hca. destruct Hi as [_ [_ [_ [_ I5]]]]. apply (I5 o (sid k) a k Ha Hk). congruence.
  - subst len. pose proof (intern_absent s cs Hi Ef) as Habs.
    destruct (allocateString_interned s cs _ (hashString cs) Hi eq_refl eq_refl Habs) as [A [B C]].
    split; [exact A|split; [eexists; split; [exact B | reflexivity]|split; [exact C|]]].
    intros o a Ha Hca. exfalso. exact (Habs o a Ha Hca).
Qed.

Lemma copyString_interned s cs len : interned s -> len = Z.of_nat (String.length cs) ->
  interned (fst (copyString s cs len)) /\
  (exists str, string_view (fst (copyString s cs len)) (snd (copyString s cs len)) = Some str /\
               chars str = cs) /\
  (forall o a, string_view s o = Some a -> string_view (fst (copyString s cs len)) o = Some a) /\
  (forall o a, string_view s o = Some a -> chars a = cs ->
     o = snd (copyString s cs len) /\ fst (copyString s cs len) = s).
Proof.
  intros Hi Hl. unfold copyString. cbv zeta.
  destruct (Tbl.tableFindString (strings s) cs len (hashString cs)) as [k|] eqn:Ef.
  - destruct (intern_found _ _ _ _ _ Hi Ef) as [Hk Hcs]. cbn [fst snd].
    split; [exact Hi|split; [exists k; split; assumption|split; [auto|]]].
    intros o a Ha Hca. split; [|reflexivity].
    destruct Hi as [_ [_ [_ [_ I5]]]]. apply (I5 o (sid k) a k Ha Hk). congruence.
  - subst len. pose proof (intern_absent s cs Hi Ef) as Habs.
    rewrite reallocate_id.
    destruct (allocateString_interned s cs _ (hashString cs) Hi eq_refl eq_refl Habs) as [A [B C]].
    split; [exact A|split; [eexists; split; [exact B | reflexivity]|split; [exact C|]]].
    intros o a Ha Hca. exfalso. exact (Habs o a Ha Hca).
Qed.

Lemma concatenate_interned s a b : interned s ->
  AS_STRING s (peek s 1) = Some a -> AS_STRING s (peek s 0) = Some b ->
  exists s' o str, concatenate s = Some s' /\ interned s' /\ peek s' 0 = OBJ_VAL o /\
    string_view s' o = Some str /\ chars str = chars a +:+ chars b /\
    (forall o' a', string_view s o' = Some a' -> string_view s' o' = Some a') /\
    (forall o' a', string_view s o' = Some a' -> chars a' = chars a +:+ chars b -> o' = o).
Proof.
  intros Hi Ha Hb.
  assert (Hb' : AS_STRING s (stack s (stackTop s - 1)) = Some b)
    by (rewrite <- Hb; unfold peek; rewrite Z.sub_0_r; reflexivity).
  destruct (AS_STRING_view _ _ _ Ha) as [oa [_ Hva]].
  destruct (AS_STRING_view _ _ _ Hb) as [ob [_ Hvb]].
  destruct Hi as [I1 [I2 I345]] eqn:Ei.
  destruct (I2 _ _ Hva) as [_ [Hla _]]. destruct (I2 _ _ Hvb) as [_ [Hlb _]].
  clear Ei.
  unfold concatenate, pop. cbv beta iota zeta.
  cbn [stack stackTop set_stack].
  change (AS_STRING _ (stack s (stackTop s - 1 - 1))) with (AS_STRING s (peek s 1)).
  change (AS_STRING _ (stack s (stackTop s - 1))) with (AS_STRING s (stack s (stackTop s - 1))).
  rewrite Ha, Hb'. unfold mbind, option_bind. rewrite reallocate_id.
  set (s2 := set_stack (set_stack s (stack s) (stackTop s - 1)) (stack s) (stackTop s - 1 - 1)).
  assert (Hi2 : interned s2).
  { apply (interned_same_strs s); [exact (conj I1 (conj I2 I345)) | apply same_strs_of_eq; reflexivity]. }
  assert (Hlen : ObjStr.length a + ObjStr.length b = Z.of_nat (String.length (chars a +:+ chars b)))
    by (rewrite string_length_app; lia).
  destruct (takeString_interned s2 (chars a +:+ chars b) _ Hi2 Hlen) as [A [[str [B C]] [D E]]].
  destruct (takeString s2 (chars a +:+ chars b) (ObjStr.length a + ObjStr.length b)) as [s4 r].
  cbn [fst snd] in A, B, D, E.
  exists (push s4 (OBJ_VAL r)), r, str.
  split; [reflexivity|]. split.
  { apply (interned_same_strs s4); [exact A | apply same_strs_of_eq; reflexivity]. }
  split; [unfold peek, push, upd; cbn [stack stackTop set_stack]; rewrite (proj2 (Z.eqb_eq _ _)) by lia; reflexivity|].
  split; [exact B|]. split; [exact C|]. split.
  - intros o' a' H. exact (D o' a' H).
  - intros o' a' H Hc. exact (E o' a' H Hc).
Qed.

Lemma same_strs_frame_upvalue_set s u v s' : upvalue_set s u v = Some s' -> same_strs s s'.
Proof.
  unfold upvalue_set. destruct (heap s !! u) as [[m b]|] eqn:Hu; [|discriminate].
  destruct b; try discriminate. destruct location.
  - intros [= <-]. apply same_strs_of_eq; reflexivity.
  - intros [= <-]. split; [reflexivity|split; [reflexivity|split]].
    + intros o. unfold string_view. cbn. rewrite lookup_insert.
      destruct (decide (u = o)) as [<-|]; [rewrite Hu; reflexivity | reflexivity].
    + intros o. cbn. rewrite lookup_insert.
      destruct (decide (u = o)) as [<-|]; [rewrite Hu; split; discriminate | reflexivity].
Qed.

Lemma execute_same_strs s fi op r : op <> OP_ADD -> op <> OP_CLOSURE -> execute s fi op = Some r ->
  same_strs s (step_state r).
Proof.
  intros Hop Hop'.
  destruct op; unfold execute, mbind, option_bind, pop; cbv beta iota zeta;
    try (exfalso; apply Hop; reflexivity); try (exfalso; apply Hop'; reflexivity).
  - destruct (READ_CONSTANT s fi) as [[v s1]|] eqn:E; [|discriminate]. intros [= <-].
    eapply same_strs_trans; [exact (same_strs_READ_CONSTANT _ _ _ _ E)|]. apply same_strs_of_eq; reflexivity.
  - intros [= <-]. apply same_strs_of_eq; reflexivity.
  - intros [= <-]. apply same_strs_of_eq; reflexivity.
  - intros [= <-]. apply same_strs_of_eq; reflexivity.
  - intros [= <-]. apply same_strs_of_eq; reflexivity.
  - destruct (READ_BYTE s fi) as [[v s1]|] eqn:E; [|discriminate]. intros [= <-].
    eapply same_strs_trans; [exact (same_strs_READ_BYTE _ _ _ _ E)|]. apply same_strs_of_eq; reflexivity.
  - destruct (READ_BYTE s fi) as [[v s1]|] eqn:E; [|discriminate]. intros [= <-].
    eapply same_strs_trans; [exact (same_strs_READ_BYTE _ _ _ _ E)|]. apply same_strs_of_eq; reflexivity.
  - destruct (READ_STRING s fi) as [[nm s1]|] eqn:E; [|discriminate]. cbv beta iota.
    pose proof (same_strs_READ_STRING _ _ _ _ E) as H1.
    destruct (Tbl.tableGet (globals s1) nm); intros [= <-].
    + eapply same_strs_trans; [exact H1|]. apply same_strs_of_eq; reflexivity.
    + eapply same_strs_trans; [exact H1|]. apply same_strs_runtimeError.
  - destruct (READ_STRING s fi) as [[nm s1]|] eqn:E; [|discriminate]. intros [= <-].
    eapply same_strs_trans; [exact (same_strs_READ_STRING _ _ _ _ E)|]. apply same_strs_of_eq; reflexivity.
  - destruct (READ_STRING s fi) as [[nm s1]|] eqn:E; [|discriminate]. cbv beta iota.
    pose proof (same_strs_READ_STRING _ _ _ _ E) as H1.
    destruct (Tbl.tableSet (globals s1) nm (peek s1 0)) as [g []]; intros [= <-].
    + eapply same_strs_trans; [exact H1|].
      eapply same_strs_trans; [|apply same_strs_runtimeError]. apply same_strs_of_eq; reflexivity.
    + eapply same_strs_trans; [exact H1|]. apply same_strs_of_eq; reflexivity.
  - intros [= <-]. apply same_strs_of_eq; reflexivity.
  - intros [= <-]. apply same_strs_BINARY_OP.
  - intros [= <-]. apply same_strs_BINARY_OP.
  - intros [= <-]. apply same_strs_BINARY_OP.
  - intros [= <-]. apply same_strs_BINARY_OP.
  - intros [= <-]. apply same_strs_BINARY_OP.
  - intros [= <-]. apply same_strs_of_eq; reflexivity.
  - destruct (negb (IS_NUMBER (peek s 0))); intros [= <-].
    + apply same_strs_runtimeError.
    + apply same_strs_of_eq; reflexivity.
  - intros [= <-]. apply same_strs_of_eq; reflexivity.
  - destruct (READ_SHORT s fi) as [[v s1]|] eqn:E; [|discriminate]. intros [= <-].
    eapply same_strs_trans; [exact (same_strs_READ_SHORT _ _ _ _ E)|]. apply same_strs_of_eq; reflexivity.
  - destruct (READ_SHORT s fi) as [[v s1]|] eqn:E; [|discriminate]. cbv beta iota.
    pose proof (same_strs_READ_SHORT _ _ _ _ E) as H1.
    destruct (isFalsey (peek s1 0)); intros [= <-].
    + eapply same_strs_trans; [exact H1|]. apply same_strs_of_eq; reflexivity.
    + exact H1.
  - destruct (READ_SHORT s fi) as [[v s1]|] eqn:E; [|discriminate]. intros [= <-].
    eapply same_strs_trans; [exact (same_strs_READ_SHORT _ _ _ _ E)|]. apply same_strs_of_eq; reflexivity.
  - destruct (READ_BYTE s fi) as [[n s1]|] eqn:E; [|discriminate]. cbv beta iota.
    pose proof (same_strs_READ_BYTE _ _ _ _ E) as H1.
    destruct (callValue s1 (peek s1 n) n) as [[s2 b]|] eqn:E2; [|discriminate]. cbv beta iota.
    pose proof (same_strs_callValue _ _ _ _ _ E2) as H2.
    destruct b; intros [= <-]; exact (same_strs_trans _ _ _ H1 H2).
  - unfold closeUpvalues.
    set (s1 := set_stack s (stack s) (stackTop s - 1)).
    assert (H1 : same_strs s s1) by (apply same_strs_of_eq; reflexivity).
    pose proof (same_strs_closeUpvalues_loop (openUpvalues s1) s1 (slots (frames s1 fi))) as H2.
    pose proof (same_strs_trans _ _ _ H1 H2) as H3.
    destruct (_ =? 0); intros [= <-].
    + eapply same_strs_trans; [exact H3|]. apply same_strs_of_eq; reflexivity.
    + eapply same_strs_trans; [exact H3|]. apply same_strs_of_eq; reflexivity.
  - destruct (READ_BYTE s fi) as [[v s1]|] eqn:E; [|discriminate].
    destruct (frame_upvalue s1 fi v) as [u|]; [|discriminate].
    destruct (upvalue_get s1 u) as [x|]; [|discriminate]. intros [= <-].
    eapply same_strs_trans; [exact (same_strs_READ_BYTE _ _ _ _ E)|]. apply same_strs_of_eq; reflexivity.
  - destruct (READ_BYTE s fi) as [[v s1]|] eqn:E; [|discriminate].
    destruct (frame_upvalue s1 fi v) as [u|]; [|discriminate].
    destruct (upvalue_set s1 u _) as [s2|] eqn:E2; [|discriminate]. intros [= <-].
    eapply same_strs_trans; [exact (same_strs_READ_BYTE _ _ _ _ E)|].
    exact (same_strs_frame_upvalue_set _ _ _ _ E2).
  - intros [= <-]. unfold closeUpvalues.
    eapply same_strs_trans; [apply same_strs_closeUpvalues_loop|]. apply same_strs_of_eq; reflexivity.
Qed.

Lemma same_strs_grows s s' : interned s -> same_strs s s' ->
  interned s' /\ forall o a, string_view s o = Some a -> string_view s' o = Some a.
Proof.
  intros Hi Hs. split; [exact (interned_same_strs _ _ Hi Hs)|].
  intros o a H. destruct Hs as [_ [_ [Hv _]]]. rewrite Hv. exact H.
Qed.

Lemma views_kept_trans s1 s2 s3 : views_kept s1 s2 -> views_kept s2 s3 -> views_kept s1 s3.
Proof.
  intros [A [B _]] [A' [B' C']]. split; [congruence|]. split; [|exact C'].
  intros o. rewrite B', B. reflexivity.
Qed.

Lemma views_kept_same_strs s s' : heap_fresh s -> same_strs s s' -> views_kept s s'.
Proof.
  intros Hf [A [B [C D]]]. split; [exact A|]. split; [exact C|].
  intros o Ho. apply D, Hf. lia.
Qed.

Lemma interned_views_kept s s' : interned s -> views_kept s s' -> interned s'.
Proof.
  intros [I1 [I2 [I3 [_ I5]]]] [A [B C]]. unfold interned. rewrite A.
  refine (conj I1 (conj _ (conj _ (conj C _)))).
  - intros o str H. rewrite B in H. exact (I2 o str H).
  - intros kv H. rewrite B. exact (I3 kv H).
  - intros o1 o2 a b H1 H2. rewrite B in H1, H2. exact (I5 o1 o2 a b H1 H2).
Qed.

Lemma views_kept_allocateObject s size mk : heap_fresh s -> (forall o str, mk o <> OBJ_STRING str) ->
  views_kept s (fst (allocateObject s size mk)).
Proof.
  intros Hf Hmk. unfold allocateObject. rewrite reallocate_id. cbn.
  split; [reflexivity|]. split.
  - intros o. unfold string_view. cbn. rewrite lookup_insert.
    destruct (decide (nextId s = o)) as [<-|]; [|reflexivity].
    rewrite (Hf (nextId s)) by lia. destruct (mk (nextId s)) eqn:E; try reflexivity.
    exfalso. exact (Hmk _ _ E).
  - intros o Ho. cbn in Ho |- *. rewrite lookup_insert.
    destruct (decide (nextId s = o)); [lia|]. apply Hf. lia.
Qed.

Lemma views_kept_set_openUpvalues s l : heap_fresh s -> views_kept s (set_openUpvalues s l).
Proof. intros Hf. split; [reflexivity|]. split; [reflexivity|exact Hf]. Qed.

Lemma views_kept_refl s : heap_fresh s -> views_kept s s.
Proof. intros Hf. split; [reflexivity|]. split; [reflexivity|exact Hf]. Qed.

Lemma views_kept_captureUpvalue s local : heap_fresh s -> views_kept s (fst (captureUpvalue s local)).
Proof.
  intros Hf. unfold captureUpvalue.
  destruct (split_open s (openUpvalues s) local) as [p r].
  assert (Hc : views_kept s (fst (let '(s1, created) := newUpvalue s local in
                 (set_openUpvalues s1 (p ++ created :: r), created)))).
  { unfold newUpvalue. destruct (allocateObject s OBJ_SIZE _) as [s1 c] eqn:E. cbn [fst].
    assert (H1 : views_kept s s1).
    { change s1 with (fst (s1, c)). rewrite <- E. apply views_kept_allocateObject; [exact Hf|discriminate]. }
    eapply views_kept_trans; [exact H1|]. apply views_kept_set_openUpvalues. exact (proj2 (proj2 H1)). }
  destruct r as [|u rest]; [exact Hc|].
  destruct (bool_decide _); [apply views_kept_refl; exact Hf | exact Hc].
Qed.

Lemma views_kept_closure_upvalues n : forall s fi cl i s',
  heap_fresh s -> closure_upvalues n s fi cl i = Some s' -> views_kept s s'.
Proof.
  induction n as [|n IH]; intros s fi cl i s' Hf Hc; cbn [closure_upvalues] in Hc.
  - injection Hc as <-. apply views_kept_refl. exact Hf.
  - unfold mbind, option_bind in Hc.
    destruct (READ_BYTE s fi) as [[isLocal s1]|] eqn:E1; [|discriminate].
    destruct (READ_BYTE s1 fi) as [[index s2]|] eqn:E2; [|discriminate].
    assert (H2 : views_kept s s2).
    { apply views_kept_same_strs; [exact Hf|].
      exact (same_strs_trans _ _ _ (same_strs_READ_BYTE _ _ _ _ E1) (same_strs_READ_BYTE _ _ _ _ E2)). }
    assert (H3 : forall s3 u, (if negb (isLocal =? 0)
                       then let '(s3, u) := captureUpvalue s2 (slots (frames s2 fi) + index) in Some (s3, Some u)
                       else match heap s2 !! closure (frames s2 fi) with
                            | Some (mkObj _ (OBJ_CLOSURE _ ups _)) => u ← ups !! Z.to_nat index; Some (s2, u)
                            | _ => None end) = Some (s3, u) -> views_kept s s3).
    { intros s3 u. destruct (negb _).
      - destruct (captureUpvalue s2 _) as [s3' u'] eqn:Ec. intros [= <- _].
        eapply views_kept_trans; [exact H2|].
        change s3' with (fst (s3', u')). rewrite <- Ec. apply views_kept_captureUpvalue.
        exact (proj2 (proj2 H2)).
      - destruct (heap s2 !! _) as [[m [| | | | | | | | ]]|]; try discriminate.
        unfold mbind, option_bind. destruct (_ !! Z.to_nat index); [|discriminate].
        intros [= <- _]. exact H2. }
    destruct (if negb (isLocal =? 0) then _ else _) as [[s3 u]|] eqn:E3; [|discriminate].
    specialize (H3 s3 u eq_refl).
    destruct (heap s3 !! cl) as [[m [| |fid ups cnt| | | | | | ]]|] eqn:Ecl; try discriminate.
    assert (H4 : views_kept s3 (set_heap s3 (<[cl := mkObj m (OBJ_CLOSURE fid (<[Z.to_nat i := u]> ups) cnt)]> (heap s3)))).
    { destruct H3 as [_ [_ Hf3]]. split; [reflexivity|]. split.
      - intros o. unfold string_view. cbn. rewrite lookup_insert.
        destruct (decide (cl = o)) as [<-|]; [rewrite Ecl; reflexivity | reflexivity].
      - intros o Ho. cbn in Ho |- *. rewrite lookup_insert. destruct (decide (cl = o)) as [<-|].
        + rewrite (Hf3 cl Ho) in Ecl. discriminate.
        + apply Hf3. exact Ho. }
    eapply views_kept_trans; [exact H3|]. eapply views_kept_trans; [exact H4|].
    eapply IH; [exact (proj2 (proj2 H4)) | exact Hc].
Qed.

Lemma views_kept_OP_CLOSURE s fi r : heap_fresh s -> execute s fi OP_CLOSURE = Some r ->
  views_kept s (step_state r).
Proof.
  intros Hf Hex. cbn [execute] in Hex. unfold mbind, option_bind in Hex.
  destruct (READ_CONSTANT s fi) as [[v s1]|] eqn:E1; [|discriminate].
  assert (H1 : views_kept s s1) by (apply views_kept_same_strs; [exact Hf | exact (same_strs_READ_CONSTANT _ _ _ _ E1)]).
  destruct v as [| | | o]; try discriminate.
  destruct (newClosure s1 o) as [[s2 cl]|] eqn:E2; [|discriminate].
  assert (H2 : views_kept s1 s2).
  { unfold newClosure in E2. destruct (heap s1 !! o) as [[m [| | |f| | | | | ]]|]; try discriminate.
    rewrite reallocate_id in E2. remember (allocateObject s1 _ _) as a eqn:Ea. injection E2 as Ha.
    change s2 with (fst (s2, cl)). rewrite <- Ha, Ea. apply views_kept_allocateObject; [exact (proj2 (proj2 H1))|discriminate]. }
  assert (H3 : views_kept s2 (push s2 (OBJ_VAL cl))) by (split; [reflexivity|split; [reflexivity|exact (proj2 (proj2 H2))]]).
  destruct (heap (push s2 (OBJ_VAL cl)) !! cl) as [[m [| |fid ups cnt| | | | | | ]]|]; try discriminate.
  destruct (closure_upvalues _ _ fi cl 0) as [s4|] eqn:E4; [|discriminate].
  injection Hex as <-. cbn [step_state].
  eapply views_kept_trans; [exact H1|]. eapply views_kept_trans; [exact H2|].
  eapply views_kept_trans; [exact H3|]. eapply views_kept_closure_upvalues; [exact (proj2 (proj2 H3)) | exact E4].
Qed.

Lemma execute_interned s fi op r : interned s -> execute s fi op = Some r ->
  interned (step_state r) /\ forall o a, string_view s o = Some a -> string_view (step_state r) o = Some a.
Proof.
  intros Hi Hex.
  assert (Hd : op = OP_ADD \/ op <> OP_ADD) by (destruct op; (left; reflexivity) || (right; discriminate)).
  destruct Hd as [->|Hop].
  - unfold execute in Hex.
    destruct (IS_STRING s (peek s 0) && IS_STRING s (peek s 1)) eqn:SS.
    + apply andb_prop in SS as [S0 S1]. unfold IS_STRING in S0, S1.
      destruct (AS_STRING s (peek s 0)) as [b|] eqn:Hb; [|discriminate].
      destruct (AS_STRING s (peek s 1)) as [a|] eqn:Ha; [|discriminate].
      destruct (concatenate_interned s a b Hi Ha Hb) as [s' [o [str [Hc [Hi' [_ [_ [_ [Hk _]]]]]]]]].
      rewrite Hc in Hex. cbn in Hex. injection Hex as <-. cbn [step_state]. split; assumption.
    + unfold pop in Hex. cbv beta iota zeta in Hex.
      destruct (IS_NUMBER (peek s 0) && IS_NUMBER (peek s 1)); injection Hex as <-;
        apply same_strs_grows; try exact Hi; cbn [step_state];
        first [apply same_strs_runtimeError | apply same_strs_of_eq; reflexivity].
  - assert (Hd : op = OP_CLOSURE \/ op <> OP_CLOSURE) by (destruct op; (left; reflexivity) || (right; discriminate)).
    destruct Hd as [->|Hop'].
    + assert (Hf : heap_fresh s) by (destruct Hi as [_ [_ [_ [I4 _]]]]; exact I4).
      pose proof (views_kept_OP_CLOSURE s fi r Hf Hex) as Hk.
      split; [exact (interned_views_kept _ _ Hi Hk)|].
      intros o a H. destruct Hk as [_ [Hv _]]. rewrite Hv. exact H.
    + apply same_strs_grows; [exact Hi|]. exact (execute_same_strs s fi op r Hop Hop' Hex).
Qed.

Lemma step_interned s fi : interned s ->
  interned (step_state (step s fi)) /\
  forall o a, string_view s o = Some a -> string_view (step_state (step s fi)) o = Some a.
Proof.
  intros Hi. unfold step.
  destruct (READ_BYTE s fi) as [[ins s1]|] eqn:E; [|cbn; split; auto].
  destruct (same_strs_grows s s1 Hi (same_strs_READ_BYTE _ _ _ _ E)) as [Hi1 Hm1].
  destruct (decode ins) as [op|]; [|cbn; split; auto].
  destruct (execute s1 fi op) as [r|] eqn:Ex; [|cbn; split; auto].
  destruct (execute_interned s1 fi op r Hi1 Ex) as [Hi2 Hm2]. split; auto.
Qed.

Lemma script_state_interned bytes consts : interned (script_state bytes consts ∅).
Proof.
  assert (Hv : forall o, string_view (script_state bytes consts ∅) o = None).
  { intros o. unfold string_view, script_state. cbn [heap].
    rewrite !lookup_insert. destruct (decide (0%nat = o)); [reflexivity|].
    destruct (decide (1%nat = o)); [reflexivity|]. rewrite lookup_empty. reflexivity. }
  refine (conj initTable_wf (conj _ (conj _ (conj _ _)))).
  - intros o str H. rewrite Hv in H. discriminate.
  - intros kv Hin. destruct Hin.
  - intros o Ho. change (2 <= o)%nat in Ho. unfold script_state. cbn [heap].
    rewrite !lookup_insert. destruct (decide (0%nat = o)); [lia|].
    destruct (decide (1%nat = o)); [lia|]. apply lookup_empty.
  - intros o1 o2 a b H1. rewrite Hv in H1. discriminate.
Qed.

(** ** String interning *)

(** C8: interning holds throughout execution.  The script state is
    interned; every step of the dispatch loop keeps it interned and keeps
    every string object; in an interned state two string objects are the
    same object exactly when their bytes are equal; [copyString] (the
    interning of a literal) returns the string object that already holds
    the bytes if there is one; and [ADD] of two strings pushes the one
    string object holding the concatenated bytes. *)
Theorem strings_interned :
  (forall bytes consts, interned (script_state bytes consts ∅)) /\
  (forall s fi, interned s ->
     interned (step_state (step s fi)) /\
     forall o a, string_view s o = Some a -> string_view (step_state (step s fi)) o = Some a) /\
  (forall s o1 o2 a b, interned s -> string_view s o1 = Some a -> string_view s o2 = Some b ->
     (o1 = o2 <-> chars a = chars b)) /\
  (forall s cs, interned s ->
     interned (fst (copyString s cs (Z.of_nat (String.length cs)))) /\
     (exists str, string_view (fst (copyString s cs (Z.of_nat (String.length cs))))
                    (snd (copyString s cs (Z.of_nat (String.length cs)))) = Some str /\ chars str = cs) /\
     forall o a, string_view s o = Some a -> chars a = cs ->
       o = snd (copyString s cs (Z.of_nat (String.length cs))) /\
       fst (copyString s cs (Z.of_nat (String.length cs))) = s) /\
  (forall s fi a b, interned s -> AS_STRING s (peek s 1) = Some a -> AS_STRING s (peek s 0) = Some b ->
     exists s' o str, execute s fi OP_ADD = Some (Continue s' fi) /\ interned s' /\
       peek s' 0 = OBJ_VAL o /\ string_view s' o = Some str /\ chars str = chars a +:+ chars b /\
       forall o' a', string_view s' o' = Some a' -> chars a' = chars a +:+ chars b -> o' = o).
Proof.
  split; [exact script_state_interned|]. split; [exact step_interned|]. split.
  { intros s o1 o2 a b [_ [_ [_ [_ I5]]]] H1 H2. split.
    - intros <-. congruence.
    - exact (I5 o1 o2 a b H1 H2). }
  split.
  { intros s cs Hi. destruct (copyString_interned s cs _ Hi eq_refl) as [A [B [_ D]]]. auto. }
  intros s fi a b Hi Ha Hb.
  destruct (concatenate_interned s a b Hi Ha Hb) as [s' [o [str [Hc [Hi' [Hp [Hv [Hcs _]]]]]]]].
  exists s', o, str. split.
  - unfold execute. unfold IS_STRING. rewrite Ha, Hb. cbn [andb]. rewrite Hc. reflexivity.
  - split; [exact Hi'|]. split; [exact Hp|]. split; [exact Hv|]. split; [exact Hcs|].
    intros o' a' H' Hc'. destruct Hi' as [_ [_ [_ [_ I5]]]].
    apply (I5 o' o a' str H' Hv). congruence.
Qed.

Lemma strings_interned_witness :
  snd (copyString (fst (copyString (script_state [opbyte OP_RETURN] [] ∅) "ab" 2)) "ab" 2) =
  snd (copyString (script_state [opbyte OP_RETURN] [] ∅) "ab" 2).
Proof.
  destruct strings_interned as [Hinit [_ [_ [Hcopy _]]]].
  destruct (Hcopy _ "ab" (Hinit [opbyte OP_RETURN] [])) as [Hi1 [[str [Hv Hcs]] _]].
  destruct (Hcopy _ "ab" Hi1) as [_ [_ Huniq]].
  symmetry. exact (proj1 (Huniq _ str Hv Hcs)).
Defined.

(** ** Compiler, collector, dispatch loop and scanner: further properties *)

Lemma GROW_ARRAY_spec a old new : length a = Z.to_nat old -> 0 <= old <= new ->
  length (GROW_ARRAY a old new) = Z.to_nat new /\
  forall i, (i < length a)%nat -> GROW_ARRAY a old new !! i = a !! i.
Proof.
  intros Hl Hr. unfold GROW_ARRAY. split.
  - rewrite length_take, length_app, repeat_length. lia.
  - intros i Hi. rewrite lookup_take_lt by lia. rewrite lookup_app_l by lia. reflexivity.
Qed.

Lemma writeChunk_ok c b : chunk_ok c ->
  chunk_ok (writeChunk c b) /\ count (writeChunk c b) = count c + 1 /\
  code (writeChunk c b) !! Z.to_nat (count c) = Some b /\
  (forall i, (i < Z.to_nat (count c))%nat -> code (writeChunk c b) !! i = code c !! i) /\
  capacity (writeChunk c b) =
    (if capacity c <? count c + 1 then GROW_CAPACITY (capacity c) else capacity c).
Proof.
  intros [Hc Hl]. unfold writeChunk.
  destruct (capacity c <? count c + 1) eqn:Hg.
  - apply Z.ltb_lt in Hg.
    assert (Hgc : capacity c < GROW_CAPACITY (capacity c) /\ count c + 1 <= GROW_CAPACITY (capacity c))
      by (unfold GROW_CAPACITY; destruct (capacity c <? 8) eqn:E; [apply Z.ltb_lt in E|apply Z.ltb_ge in E]; lia).
    destruct (GROW_ARRAY_spec (code c) (capacity c) (GROW_CAPACITY (capacity c)) Hl ltac:(lia)) as [Hl' Hp].
    cbn [count capacity code]. unfold chunk_ok. cbn [count capacity code].
    rewrite length_insert. refine (conj (conj _ _) (conj _ (conj _ (conj _ _)))); try lia.
    + apply list_lookup_insert_eq. lia.
    + intros i Hi. rewrite list_lookup_insert_ne by lia. apply Hp. lia.
  - apply Z.ltb_ge in Hg.
    cbn [count capacity code]. unfold chunk_ok. cbn [count capacity code].
    rewrite length_insert. refine (conj (conj _ _) (conj _ (conj _ (conj _ _)))); try lia.
    + apply list_lookup_insert_eq. lia.
    + intros i Hi. rewrite list_lookup_insert_ne by lia. reflexivity.
Qed.

Lemma write_bytes_ok bs c : chunk_ok c ->
  chunk_ok (fold_left writeChunk bs c) /\
  count (fold_left writeChunk bs c) = count c + Z.of_nat (length bs) /\
  (forall i, (i < Z.to_nat (count c))%nat -> code (fold_left writeChunk bs c) !! i = code c !! i) /\
  (forall j, (j < length bs)%nat -> code (fold_left writeChunk bs c) !! (Z.to_nat (count c) + j)%nat = bs !! j).
Proof.
  revert c. induction bs as [|b bs IH]; intros c Hc.
  - cbn. refine (conj Hc (conj _ (conj _ _))); [lia|reflexivity|intros j Hj; cbn in Hj; lia].
  - cbn [fold_left]. destruct (writeChunk_ok c b Hc) as [Hc1 [Hn1 [Hb1 [Hp1 _]]]].
    destruct (IH _ Hc1) as [Hok [Hn [Hp Hq]]]. pose proof (proj1 Hc) as Hc0.
    refine (conj Hok (conj _ (conj _ _))).
    + rewrite Hn, Hn1. cbn [length]. lia.
    + intros i Hi. rewrite Hp by lia. apply Hp1. exact Hi.
    + intros j Hj. destruct j as [|j].
      * rewrite Hp by lia. rewrite Nat.add_0_r. exact Hb1.
      * cbn in Hj. cbn [lookup list_lookup].
        replace (Z.to_nat (count c) + S j)%nat with (Z.to_nat (count (writeChunk c b)) + j)%nat by lia.
        apply Hq. lia.
Qed.

(** X1: writing the bytes [bs] one by one into a chunk reset by [initChunk]
    leaves [count] equal to the number of bytes, the first [count] bytes of
    [code] equal to [bs], and the capacity at least [count] and equal to the
    length of the allocated array. *)
Theorem writeChunk_bytes_readback (c : Chunk) (bs : list Z) :
  let c' := fold_left writeChunk bs (initChunk c) in
  count c' = Z.of_nat (length bs) /\ take (length bs) (code c') = bs /\
  Z.of_nat (length bs) <= capacity c' /\ length (code c') = Z.to_nat (capacity c').
Proof.
  assert (H0 : chunk_ok (initChunk c)) by (unfold chunk_ok; cbn; lia).
  destruct (write_bytes_ok bs _ H0) as [[Hc Hl] [Hn [_ Hq]]].
  cbn [count initChunk] in Hn. intros c'. subst c'.
  refine (conj _ (conj _ (conj _ Hl))); try lia.
  apply list_eq. intros j. destruct (decide (j < length bs)%nat) as [Hj|Hj].
  - rewrite lookup_take_lt by lia. exact (Hq j Hj).
  - rewrite lookup_take_ge by lia. symmetry. apply lookup_ge_None_2. lia.
Qed.

Lemma frame_function_set_ip s fi x :
  frame_function (set_ip s fi x) (frames (set_ip s fi x) fi) = frame_function s (frames s fi) /\
  ip (frames (set_ip s fi x) fi) = x.
Proof. unfold set_ip, upd. cbn. rewrite Z.eqb_refl. cbn. split; reflexivity. Qed.

Lemma READ_BYTE_at s fi f b : frame_function s (frames s fi) = Some f -> 0 <= ip (frames s fi) ->
  code (chunk f) !! Z.to_nat (ip (frames s fi)) = Some b ->
  READ_BYTE s fi = Some (b, set_ip s fi (ip (frames s fi) + 1)).
Proof.
  intros Hf Hip Hb. unfold READ_BYTE. rewrite Hf. cbn.
  destruct (ip (frames s fi) <? 0) eqn:E; [apply Z.ltb_lt in E; lia|]. rewrite Hb. reflexivity.
Qed.

Lemma READ_SHORT_at s fi f hi lo : frame_function s (frames s fi) = Some f -> 0 <= ip (frames s fi) ->
  code (chunk f) !! Z.to_nat (ip (frames s fi)) = Some hi ->
  code (chunk f) !! Z.to_nat (ip (frames s fi) + 1) = Some lo ->
  exists s2, READ_SHORT s fi = Some (Z.lor (Z.shiftl hi 8) lo, s2) /\
    frame_function s2 (frames s2 fi) = Some f /\ ip (frames s2 fi) = ip (frames s fi) + 2 /\
    stack s2 = stack s /\ stackTop s2 = stackTop s.
Proof.
  intros Hf Hip Hhi Hlo. unfold READ_SHORT.
  rewrite (READ_BYTE_at s fi f hi Hf Hip Hhi). unfold mbind, option_bind. cbv beta iota zeta.
  destruct (frame_function_set_ip s fi (ip (frames s fi) + 1)) as [Hf1 Hip1].
  rewrite Hf in Hf1.
  rewrite (READ_BYTE_at _ fi f lo Hf1 ltac:(lia) ltac:(rewrite Hip1; exact Hlo)). cbv beta iota zeta.
  eexists. split; [reflexivity|].
  rewrite ?Hip1.
  destruct (frame_function_set_ip (set_ip s fi (ip (frames s fi) + 1)) fi
              (ip (frames s fi) + 1 + 1)) as [Hf2 Hip2].
  rewrite Hf1 in Hf2. rewrite Hip2. split; [exact Hf2|]. split; [lia|].
  split; reflexivity.
Qed.

Lemma short_bytes j : 0 <= j <= 65535 ->
  Z.lor (Z.shiftl (Z.land (Z.shiftr j 8) 255) 8) (Z.land j 255) = j.
Proof.
  intros Hj. change 255 with (Z.ones 8).
  apply Z.bits_inj'. intros n Hn.
  rewrite Z.lor_spec, !Z.land_spec.
  destruct (Z.lt_ge_cases n 8) as [Hn8|Hn8].
  - rewrite Z.shiftl_spec_low by lia. rewrite Z.ones_spec_low by lia.
    rewrite andb_true_r. reflexivity.
  - rewrite Z.shiftl_spec by lia. rewrite (Z.ones_spec_high 8 n) by lia. rewrite andb_false_r, orb_false_r.
    rewrite Z.land_spec, Z.shiftr_spec by lia. replace (n - 8 + 8) with n by lia.
    destruct (Z.lt_ge_cases (n - 8) 8) as [Hl|Hl].
    + rewrite Z.ones_spec_low by lia. apply andb_true_r.
    + rewrite (Z.ones_spec_high 8 (n - 8)) by lia. rewrite andb_false_r. symmetry.
      apply Z.bits_above_log2; [lia|].
      destruct (Z.eq_dec j 0) as [->|Hnz]; [cbn; lia|].
      assert (Z.log2 j < 16); [|lia].
      apply Z.log2_lt_pow2; [lia|]. cbn. lia.
Qed.

Lemma currentChunk_emitBytes bs c :
  Cmp.currentChunk (fold_left Cmp.emitByte bs c) = fold_left writeChunk bs (Cmp.currentChunk c).
Proof. revert c. induction bs as [|b bs IH]; intros c; [reflexivity|]. cbn. apply IH. Qed.

Lemma execute_JUMP_at s fi f j : frame_function s (frames s fi) = Some f -> 0 <= ip (frames s fi) ->
  0 <= j <= 65535 ->
  code (chunk f) !! Z.to_nat (ip (frames s fi)) = Some (Z.land (Z.shiftr j 8) 255) ->
  code (chunk f) !! Z.to_nat (ip (frames s fi) + 1) = Some (Z.land j 255) ->
  (exists s', execute s fi OP_JUMP = Some (Continue s' fi) /\ ip (frames s' fi) = ip (frames s fi) + 2 + j) /\
  (exists s', execute s fi OP_JUMP_IF_FALSE = Some (Continue s' fi) /\
     ip (frames s' fi) = if isFalsey (peek s 0) then ip (frames s fi) + 2 + j else ip (frames s fi) + 2) /\
  (exists s', execute s fi OP_LOOP = Some (Continue s' fi) /\ ip (frames s' fi) = ip (frames s fi) + 2 - j).
Proof.
  intros Hf Hip Hj Hhi Hlo.
  destruct (READ_SHORT_at s fi f _ _ Hf Hip Hhi Hlo) as [s2 [Hr [Hf2 [Hip2 [Hst Htop]]]]].
  rewrite (short_bytes j Hj) in Hr.
  assert (Hpk : peek s2 0 = peek s 0) by (unfold peek; rewrite Hst, Htop; reflexivity).
  split; [|split].
  - cbn [execute]. rewrite Hr. cbn. eexists. split; [reflexivity|].
    rewrite (proj2 (frame_function_set_ip s2 fi _)). lia.
  - cbn [execute]. rewrite Hr. cbn. rewrite Hpk.
    destruct (isFalsey (peek s 0)).
    + eexists. split; [reflexivity|]. rewrite (proj2 (frame_function_set_ip s2 fi _)). lia.
    + eexists. split; [reflexivity|]. lia.
  - cbn [execute]. rewrite Hr. cbn. eexists. split; [reflexivity|].
    rewrite (proj2 (frame_function_set_ip s2 fi _)). lia.
Qed.

(** X2: [emitJump] then the body bytes then [patchJump]: the jump
    instruction and the body are kept, and when the distance fits in 16
    bits no error is reported and [OP_JUMP] (and [OP_JUMP_IF_FALSE] on a
    falsey top of stack) executed from the operand moves [ip] to the end of
    the body; otherwise "Too much code to jump over." is reported. *)
Theorem patchJump_lands_after_body (p : Cmp.Parser) (c : Cmp.Compiler) (instruction : Z) (bs : list Z)
  (Hok : chunk_ok (Cmp.currentChunk c)) :
  let '(c1, off) := Cmp.emitJump c instruction in
  let c2 := fold_left Cmp.emitByte bs c1 in
  let '(p3, c3) := Cmp.patchJump p c2 off in
  let target := count (Cmp.currentChunk c2) in
  code (Cmp.currentChunk c3) !! Z.to_nat (off - 1) = Some instruction /\
  (forall j, (j < length bs)%nat -> code (Cmp.currentChunk c3) !! (Z.to_nat (off + 2) + j)%nat = bs !! j) /\
  (target - off - 2 <= UINT16_MAX ->
     p3 = p /\
     forall s fi f, frame_function s (frames s fi) = Some f -> code (chunk f) = code (Cmp.currentChunk c3) ->
       ip (frames s fi) = off ->
       (exists s', execute s fi OP_JUMP = Some (Continue s' fi) /\ ip (frames s' fi) = target) /\
       (exists s', execute s fi OP_JUMP_IF_FALSE = Some (Continue s' fi) /\
          ip (frames s' fi) = if isFalsey (peek s 0) then target else off + 2)) /\
  (UINT16_MAX < target - off - 2 -> p3 = Cmp.error p "Too much code to jump over.").
Proof.
  set (n0 := count (Cmp.currentChunk c)).
  assert (Hn0 : 0 <= n0) by (unfold n0; destruct Hok; lia).
  cbn zeta. unfold Cmp.emitJump.
  change (Cmp.emitByte (Cmp.emitByte (Cmp.emitByte c instruction) 255) 255)
    with (fold_left Cmp.emitByte [instruction; 255; 255] c).
  rewrite <- fold_left_app.
  set (all := [instruction; 255; 255] ++ bs).
  pose proof (currentChunk_emitBytes all c) as Hcc.
  destruct (write_bytes_ok all _ Hok) as [[Hc Hl] [Hn [_ Hq]]].
  rewrite <- Hcc in Hc, Hl, Hn, Hq.
  assert (Hlen : length all = (3 + length bs)%nat) by reflexivity.
  assert (Hcnt3 : count (Cmp.currentChunk (fold_left Cmp.emitByte [instruction; 255; 255] c)) = n0 + 3).
  { rewrite currentChunk_emitBytes. destruct (write_bytes_ok [instruction; 255; 255] _ Hok) as [_ [H _]].
    rewrite H. reflexivity. }
  rewrite Hcnt3.
  set (c2 := fold_left Cmp.emitByte all c) in *.
  fold n0 in Hn, Hq. rewrite Hlen in Hn.
  set (jump := count (Cmp.currentChunk c2) - (n0 + 3 - 2) - 2).
  assert (Hjump : jump = Z.of_nat (length bs)) by (unfold jump; lia).
  unfold Cmp.patchJump. fold jump. cbn [Cmp.currentChunk Cmp.set_function Cmp.set_chunk Cmp.function chunk code].
  set (ch := Cmp.currentChunk c2) in *.
  set (code2 := <[Z.to_nat (n0 + 3 - 2 + 1) := Z.land jump 255]>
                  (<[Z.to_nat (n0 + 3 - 2) := Z.land (Z.shiftr jump 8) 255]> (code ch))).
  assert (HL : (Z.to_nat (n0 + 3) <= length (code ch))%nat) by lia.
  assert (Hc_at : forall k, (k < Z.to_nat (n0 + 1) \/ Z.to_nat (n0 + 3) <= k)%nat -> code2 !! k = code ch !! k).
  { intros k Hk. unfold code2. rewrite !list_lookup_insert_ne by lia. reflexivity. }
  refine (conj _ (conj _ (conj _ _))).
  - rewrite Hc_at by lia. replace (Z.to_nat (n0 + 3 - 2 - 1)) with (Z.to_nat n0 + 0)%nat by lia.
    apply Hq. rewrite Hlen. lia.
  - intros j Hj. rewrite Hc_at by lia.
    replace (Z.to_nat (n0 + 3 - 2 + 2) + j)%nat with (Z.to_nat n0 + (3 + j))%nat by lia.
    rewrite Hq by (rewrite Hlen; lia). reflexivity.
  - intros Hle. destruct (UINT16_MAX <? jump) eqn:E; [apply Z.ltb_lt in E; unfold UINT16_MAX in *; lia|].
    split; [reflexivity|].
    intros s fi f Hf Hcode Hip.
    assert (Hhi : code (chunk f) !! Z.to_nat (ip (frames s fi)) = Some (Z.land (Z.shiftr jump 8) 255)).
    { rewrite Hcode, Hip. cbn [code]. unfold code2.
      rewrite list_lookup_insert_ne by lia. apply list_lookup_insert_eq. lia. }
    assert (Hlo : code (chunk f) !! Z.to_nat (ip (frames s fi) + 1) = Some (Z.land jump 255)).
    { rewrite Hcode, Hip. cbn [code]. unfold code2.
      replace (Z.to_nat (n0 + 3 - 2 + 1)) with (Z.to_nat (n0 + 3 - 2 + 1)) by reflexivity.
      apply list_lookup_insert_eq. rewrite length_insert. lia. }
    destruct (execute_JUMP_at s fi f jump Hf ltac:(lia) ltac:(unfold UINT16_MAX in *; lia) Hhi Hlo)
      as [[s1 [E1 I1]] [[s2 [E2 I2]] _]].
    split.
    + exists s1. split; [exact E1|]. rewrite I1, Hip. unfold jump. lia.
    + exists s2. split; [exact E2|]. rewrite I2, Hip. destruct (isFalsey (peek s 0)); unfold jump; lia.
  - intros Hgt. destruct (UINT16_MAX <? jump) eqn:E; [reflexivity|apply Z.ltb_ge in E; lia].
Qed.

(** X3: [emitLoop] appends [OP_LOOP] and two operand bytes; when the
    offset fits in 16 bits, executing that [OP_LOOP] moves [ip] back to
    [loopStart], otherwise "Loop body too large." is reported. *)
Theorem emitLoop_jumps_back (p : Cmp.Parser) (c : Cmp.Compiler) (loopStart : Z)
  (Hok : chunk_ok (Cmp.currentChunk c)) (Hls : 0 <= loopStart <= count (Cmp.currentChunk c)) :
  let here := count (Cmp.currentChunk c) in
  let '(p', c') := Cmp.emitLoop p c loopStart in
  count (Cmp.currentChunk c') = here + 3 /\
  code (Cmp.currentChunk c') !! Z.to_nat here = Some (opbyte OP_LOOP) /\
  (here - loopStart + 3 <= UINT16_MAX ->
     p' = p /\
     forall s fi f, frame_function s (frames s fi) = Some f -> code (chunk f) = code (Cmp.currentChunk c') ->
       ip (frames s fi) = here + 1 ->
       exists s', execute s fi OP_LOOP = Some (Continue s' fi) /\ ip (frames s' fi) = loopStart) /\
  (UINT16_MAX < here - loopStart + 3 -> p' = Cmp.error p "Loop body too large.").
Proof.
  cbn zeta. set (n0 := count (Cmp.currentChunk c)) in *.
  assert (Hn0 : 0 <= n0) by (unfold n0; destruct Hok; lia).
  unfold Cmp.emitLoop.
  set (c1 := Cmp.emitByte c (opbyte OP_LOOP)).
  assert (Hc1 : count (Cmp.currentChunk c1) = n0 + 1)
    by (unfold c1; cbn [Cmp.emitByte Cmp.currentChunk Cmp.set_function Cmp.set_chunk Cmp.function chunk];
        exact (proj1 (proj2 (writeChunk_ok _ _ Hok)))).
  rewrite Hc1.
  set (off := n0 + 1 - loopStart + 2).
  change (Cmp.emitByte (Cmp.emitByte c1 (Z.land (Z.shiftr off 8) 255)) (Z.land off 255))
    with (fold_left Cmp.emitByte [opbyte OP_LOOP; Z.land (Z.shiftr off 8) 255; Z.land off 255] c).
  rewrite currentChunk_emitBytes.
  destruct (write_bytes_ok [opbyte OP_LOOP; Z.land (Z.shiftr off 8) 255; Z.land off 255] _ Hok)
    as [_ [Hn [_ Hq]]].
  fold n0 in Hn, Hq.
  refine (conj _ (conj _ (conj _ _))).
  - rewrite Hn. reflexivity.
  - replace (Z.to_nat n0) with (Z.to_nat n0 + 0)%nat by lia. apply Hq. cbn. lia.
  - intros Hle. destruct (UINT16_MAX <? off) eqn:E; [apply Z.ltb_lt in E; unfold off in E; lia|].
    split; [reflexivity|].
    intros s fi f Hf Hcode Hip.
    assert (Hhi : code (chunk f) !! Z.to_nat (ip (frames s fi)) = Some (Z.land (Z.shiftr off 8) 255)).
    { rewrite Hcode, Hip. replace (Z.to_nat (n0 + 1)) with (Z.to_nat n0 + 1)%nat by lia.
      apply Hq. cbn. lia. }
    assert (Hlo : code (chunk f) !! Z.to_nat (ip (frames s fi) + 1) = Some (Z.land off 255)).
    { rewrite Hcode, Hip. replace (Z.to_nat (n0 + 1 + 1)) with (Z.to_nat n0 + 2)%nat by lia.
      apply Hq. cbn. lia. }
    destruct (execute_JUMP_at s fi f off Hf ltac:(lia) ltac:(unfold off, UINT16_MAX in *; lia) Hhi Hlo)
      as [_ [_ [s' [E' I']]]].
    exists s'. split; [exact E'|]. rewrite I', Hip. unfold off. lia.
  - intros Hgt. destruct (UINT16_MAX <? off) eqn:E; [reflexivity|apply Z.ltb_ge in E; unfold off in E; lia].
Qed.

Lemma rev_seqZ_S m :
  rev (seqZ 0 (Z.of_nat (S m))) = Z.of_nat m :: rev (seqZ 0 (Z.of_nat m)).
Proof. rewrite seqZ_S, rev_app_distr. reflexivity. Qed.

Lemma resolveLocal_loop_spec p c nm m :
  let '(p', r) := Cmp.resolveLocal_loop p c nm (rev (seqZ 0 (Z.of_nat m))) in
  (r = -1 /\ p' = p /\ forall i, 0 <= i < Z.of_nat m -> Cmp.identifiersEqual nm (Cmp.name (Cmp.locals c i)) = false) \/
  (0 <= r < Z.of_nat m /\ Cmp.identifiersEqual nm (Cmp.name (Cmp.locals c r)) = true /\
   (forall j, r < j < Z.of_nat m -> Cmp.identifiersEqual nm (Cmp.name (Cmp.locals c j)) = false) /\
   p' = if Cmp.depth (Cmp.locals c r) =? -1
        then Cmp.error p "Can't read local variable in its own initializer." else p).
Proof.
  induction m as [|m IH].
  - cbn. left. split; [reflexivity|]. split; [reflexivity|]. intros i Hi. lia.
  - rewrite rev_seqZ_S. cbn [Cmp.resolveLocal_loop].
    destruct (Cmp.identifiersEqual nm (Cmp.name (Cmp.locals c (Z.of_nat m)))) eqn:Heq.
    + right. refine (conj _ (conj Heq (conj _ eq_refl))); [lia|]. intros j Hj. lia.
    + destruct (Cmp.resolveLocal_loop p c nm (rev (seqZ 0 (Z.of_nat m)))) as [p' r].
      destruct IH as [[Hr [Hp Hall]]|[Hr [He [Hab Hp]]]].
      * left. refine (conj Hr (conj Hp _)). intros i Hi.
        destruct (decide (i = Z.of_nat m)) as [->|Hne]; [exact Heq|]. apply Hall. lia.
      * right. refine (conj _ (conj He (conj _ Hp))); [lia|]. intros j Hj.
        destruct (decide (j = Z.of_nat m)) as [->|Hne]; [exact Heq|]. apply Hab. lia.
Qed.

(** X4: [resolveLocal] returns -1 (no error) when no local has the name,
    and otherwise the highest slot holding it, reporting an error only
    when that local's depth is -1 (still uninitialised). *)
Theorem resolveLocal_innermost (p : Cmp.Parser) (c : Cmp.Compiler) (nm : Token) :
  let '(p', r) := Cmp.resolveLocal p c nm in
  (r = -1 /\ p' = p /\
   forall i, 0 <= i < Cmp.localCount c -> Cmp.identifiersEqual nm (Cmp.name (Cmp.locals c i)) = false) \/
  (0 <= r < Cmp.localCount c /\ Cmp.identifiersEqual nm (Cmp.name (Cmp.locals c r)) = true /\
   (forall j, r < j < Cmp.localCount c -> Cmp.identifiersEqual nm (Cmp.name (Cmp.locals c j)) = false) /\
   p' = if Cmp.depth (Cmp.locals c r) =? -1
        then Cmp.error p "Can't read local variable in its own initializer." else p).
Proof.
  unfold Cmp.resolveLocal.
  destruct (Z_lt_le_dec (Cmp.localCount c) 0) as [Hneg|Hnn].
  - rewrite seqZ_nil by lia. cbn. left. split; [reflexivity|]. split; [reflexivity|]. intros i Hi. lia.
  - pose proof (resolveLocal_loop_spec p c nm (Z.to_nat (Cmp.localCount c))) as H.
    rewrite Z2Nat.id in H by lia. exact H.
Qed.

Lemma upvalue_match_true (u : Cmp.Upvalue) idx loc :
  (Cmp.index u =? idx) && Bool.eqb (Cmp.isLocal u) loc = true <-> u = Cmp.mkUpvalue idx loc.
Proof.
  destruct u as [i l]. cbn. rewrite andb_true_iff, Z.eqb_eq, Bool.eqb_true_iff.
  split; [intros [-> ->]; reflexivity|intros H; inversion H; auto].
Qed.

(** X5: [addUpvalue] keeps the upvalue array free of duplicates: an
    existing [(index, isLocal)] pair gives back its slot, a new one is
    appended at [upvalueCount], and with 256 upvalues the error "Too many
    closure variables in function." is reported and 0 returned. *)
Theorem addUpvalue_no_duplicates (p : Cmp.Parser) (c : Cmp.Compiler) (idx : Z) (loc : bool)
  (Hn : 0 <= upvalueCount (Cmp.function c) <= UINT8_COUNT) (Hd : upvalues_distinct c) :
  let n := upvalueCount (Cmp.function c) in
  let '(p', c', r) := Cmp.addUpvalue p c idx loc in
  upvalues_distinct c' /\ 0 <= upvalueCount (Cmp.function c') <= UINT8_COUNT /\
  ((0 <= r < n /\ Cmp.upvalues c r = Cmp.mkUpvalue idx loc /\ c' = c /\ p' = p) \/
   (n < UINT8_COUNT /\ r = n /\ upvalueCount (Cmp.function c') = n + 1 /\
    Cmp.upvalues c' r = Cmp.mkUpvalue idx loc /\
    (forall i, 0 <= i < n -> Cmp.upvalues c' i = Cmp.upvalues c i /\ Cmp.upvalues c i <> Cmp.mkUpvalue idx loc) /\
    p' = p) \/
   (n = UINT8_COUNT /\ r = 0 /\ c' = c /\ p' = Cmp.error p "Too many closure variables in function." /\
    forall i, 0 <= i < n -> Cmp.upvalues c i <> Cmp.mkUpvalue idx loc)).
Proof.
  cbn zeta. unfold Cmp.addUpvalue.
  set (n := upvalueCount (Cmp.function c)) in *.
  destruct (List.find _ (seqZ 0 n)) as [i|] eqn:Hf.
  - apply find_some in Hf as [Hin Hm]. apply upvalue_match_true in Hm.
    apply list_elem_of_In, elem_of_seqZ in Hin.
    refine (conj Hd (conj Hn _)). left. refine (conj _ (conj Hm (conj eq_refl eq_refl))). lia.
  - assert (Hnone : forall i, 0 <= i < n -> Cmp.upvalues c i <> Cmp.mkUpvalue idx loc).
    { intros i Hi Heq.
      pose proof (find_none _ _ Hf i ltac:(apply list_elem_of_In, elem_of_seqZ; lia)) as H.
      cbv beta in H. rewrite (proj2 (upvalue_match_true _ _ _) Heq) in H. discriminate H. }
    destruct (n =? UINT8_COUNT) eqn:Hfull.
    + apply Z.eqb_eq in Hfull. refine (conj Hd (conj Hn _)). right. right.
      exact (conj Hfull (conj eq_refl (conj eq_refl (conj eq_refl Hnone)))).
    + apply Z.eqb_neq in Hfull.
      unfold upvalues_distinct, upd. cbn [Cmp.function Cmp.upvalues Cmp.set_upvalueCount upvalueCount].
      refine (conj _ (conj _ _)).
      * intros i j Hij Hj. fold n in Hj.
        destruct (Z.eqb_spec i n) as [Hi|Hi]; [lia|].
        destruct (Z.eqb_spec j n) as [Hj'|Hj'].
        -- intros Heq. apply (Hnone i); [lia|exact Heq].
        -- apply Hd; [lia|unfold n in Hj; lia].
      * lia.
      * right. left. refine (conj _ (conj eq_refl (conj eq_refl (conj _ (conj _ eq_refl))))); [lia| |].
        -- rewrite Z.eqb_refl. reflexivity.
        -- intros i Hi. destruct (Z.eqb_spec i n) as [Hin|Hin]; [lia|].
           split; [reflexivity|]. apply Hnone. exact Hi.
Qed.

Lemma errorAt_fresh p tok msg : Cmp.panicMode p = false ->
  Cmp.errorAt p tok msg = Cmp.mkParser (Cmp.current p) (Cmp.previous p) true true
                            (Cmp.errors p ++ [Cmp.error_line tok msg]).
Proof. intros H. unfold Cmp.errorAt. rewrite H. reflexivity. Qed.

Lemma errorAt_panic p tok msg : Cmp.panicMode p = true -> Cmp.errorAt p tok msg = p.
Proof. intros H. unfold Cmp.errorAt. rewrite H. reflexivity. Qed.

Lemma declare_scan_panic p c nm is : Cmp.panicMode p = true -> Cmp.declare_scan p c nm is = p.
Proof.
  revert p. induction is as [|i is IH]; intros p H; [reflexivity|].
  cbn. destruct (_ && _); [reflexivity|].
  destruct (Cmp.identifiersEqual _ _).
  - unfold Cmp.error. rewrite errorAt_panic by exact H. apply IH. exact H.
  - apply IH. exact H.
Qed.

(** X6: [declareVariable] reports "Already a variable with this name in
    this scope." for a name held by a local of depth 1, also when the
    current scope is deeper, because its loop only stops at locals with
    [depth != 1 && depth < scopeDepth]. *)
Theorem declareVariable_rejects_depth1_name (p : Cmp.Parser) (c : Cmp.Compiler) (perm : bool) (i : Z)
  (Hd : 1 <= Cmp.scopeDepth c) (Hi : 0 <= i < Cmp.localCount c)
  (Hname : Cmp.identifiersEqual (Cmp.previous p) (Cmp.name (Cmp.locals c i)) = true)
  (Hdepth : Cmp.depth (Cmp.locals c i) = 1)
  (Habove : forall j, i < j < Cmp.localCount c ->
     Cmp.depth (Cmp.locals c j) = 1 \/ Cmp.scopeDepth c <= Cmp.depth (Cmp.locals c j))
  (Hpanic : Cmp.panicMode p = false) :
  fst (Cmp.declareVariable p c perm) =
    Cmp.error p "Already a variable with this name in this scope." /\
  Cmp.hadError (fst (Cmp.declareVariable p c perm)) = true /\
  Cmp.errors (fst (Cmp.declareVariable p c perm)) =
    Cmp.errors p ++ [Cmp.error_line (Cmp.previous p) "Already a variable with this name in this scope."].
Proof.
  set (E := Cmp.error p "Already a variable with this name in this scope.").
  assert (HE : E = Cmp.mkParser (Cmp.current p) (Cmp.previous p) true true
                   (Cmp.errors p ++ [Cmp.error_line (Cmp.previous p) "Already a variable with this name in this scope."]))
    by (unfold E, Cmp.error; apply errorAt_fresh; exact Hpanic).
  assert (HEp : Cmp.panicMode E = true) by (rewrite HE; reflexivity).
  assert (Hscan : forall m, i < Z.of_nat m <= Cmp.localCount c ->
            Cmp.declare_scan p c (Cmp.previous p) (rev (seqZ 0 (Z.of_nat m))) = E).
  { induction m as [|m IH]; intros Hm; [lia|].
    rewrite rev_seqZ_S. cbn [Cmp.declare_scan].
    assert (Hnb : negb (Cmp.depth (Cmp.locals c (Z.of_nat m)) =? 1) &&
                  (Cmp.depth (Cmp.locals c (Z.of_nat m)) <? Cmp.scopeDepth c) = false).
    { destruct (decide (Z.of_nat m = i)) as [->|Hne].
      - rewrite Hdepth. reflexivity.
      - destruct (Habove (Z.of_nat m) ltac:(lia)) as [H1|H1].
        + rewrite H1. reflexivity.
        + apply andb_false_intro2. apply Z.ltb_ge. exact H1. }
    rewrite Hnb.
    destruct (decide (Z.of_nat m = i)) as [->|Hne].
    - rewrite Hname. fold E. apply declare_scan_panic. exact HEp.
    - destruct (Cmp.identifiersEqual (Cmp.previous p) (Cmp.name (Cmp.locals c (Z.of_nat m)))).
      + fold E. apply declare_scan_panic. exact HEp.
      + apply IH. lia. }
  unfold Cmp.declareVariable.
  destruct (Cmp.scopeDepth c =? 0) eqn:Hz; [apply Z.eqb_eq in Hz; lia|].
  rewrite <- (Z2Nat.id (Cmp.localCount c)) by lia.
  rewrite (Hscan (Z.to_nat (Cmp.localCount c)) ltac:(lia)).
  assert (Hadd : fst (Cmp.addLocal E c (Cmp.previous p) perm) = E).
  { unfold Cmp.addLocal. destruct (_ =? UINT8_COUNT); [|reflexivity].
    cbn. unfold Cmp.error. apply errorAt_panic. exact HEp. }
  rewrite Hadd. rewrite HE. split; [reflexivity|]. split; reflexivity.
Qed.

Lemma patchJump_lands_after_body_witness :
  chunk_ok (Cmp.currentChunk (sample_compiler [1] sample_locals 0)) /\
  let '(c1, off) := Cmp.emitJump (sample_compiler [1] sample_locals 0) (opbyte OP_JUMP_IF_FALSE) in
  let c2 := fold_left Cmp.emitByte [opbyte OP_NIL; opbyte OP_POP] c1 in
  let '(p3, c3) := Cmp.patchJump (sample_parser "a") c2 off in
  let target := count (Cmp.currentChunk c2) in
  code (Cmp.currentChunk c3) !! Z.to_nat (off - 1) = Some (opbyte OP_JUMP_IF_FALSE) /\
  (forall j, (j < length [opbyte OP_NIL; opbyte OP_POP])%nat ->
     code (Cmp.currentChunk c3) !! (Z.to_nat (off + 2) + j)%nat = [opbyte OP_NIL; opbyte OP_POP] !! j) /\
  (target - off - 2 <= UINT16_MAX ->
     p3 = sample_parser "a" /\
     forall s fi f, frame_function s (frames s fi) = Some f -> code (chunk f) = code (Cmp.currentChunk c3) ->
       ip (frames s fi) = off ->
       (exists s', execute s fi OP_JUMP = Some (Continue s' fi) /\ ip (frames s' fi) = target) /\
       (exists s', execute s fi OP_JUMP_IF_FALSE = Some (Continue s' fi) /\
          ip (frames s' fi) = if isFalsey (peek s 0) then target else off + 2)) /\
  (UINT16_MAX < target - off - 2 -> p3 = Cmp.error (sample_parser "a") "Too much code to jump over.").
Proof.
  assert (Hok : chunk_ok (Cmp.currentChunk (sample_compiler [1] sample_locals 0)))
    by (unfold chunk_ok; cbn; lia).
  split; [exact Hok|].
  exact (patchJump_lands_after_body (sample_parser "a") (sample_compiler [1] sample_locals 0)
           (opbyte OP_JUMP_IF_FALSE) [opbyte OP_NIL; opbyte OP_POP] Hok).
Defined.

Lemma emitLoop_jumps_back_witness :
  chunk_ok (Cmp.currentChunk (sample_compiler [1; 4] sample_locals 0)) /\
  0 <= 0 <= count (Cmp.currentChunk (sample_compiler [1; 4] sample_locals 0)) /\
  let here := count (Cmp.currentChunk (sample_compiler [1; 4] sample_locals 0)) in
  let '(p', c') := Cmp.emitLoop (sample_parser "a") (sample_compiler [1; 4] sample_locals 0) 0 in
  count (Cmp.currentChunk c') = here + 3 /\
  code (Cmp.currentChunk c') !! Z.to_nat here = Some (opbyte OP_LOOP) /\
  (here - 0 + 3 <= UINT16_MAX ->
     p' = sample_parser "a" /\
     forall s fi f, frame_function s (frames s fi) = Some f -> code (chunk f) = code (Cmp.currentChunk c') ->
       ip (frames s fi) = here + 1 ->
       exists s', execute s fi OP_LOOP = Some (Continue s' fi) /\ ip (frames s' fi) = 0) /\
  (UINT16_MAX < here - 0 + 3 -> p' = Cmp.error (sample_parser "a") "Loop body too large.").
Proof.
  assert (Hok : chunk_ok (Cmp.currentChunk (sample_compiler [1; 4] sample_locals 0)))
    by (unfold chunk_ok; cbn; lia).
  assert (Hls : 0 <= 0 <= count (Cmp.currentChunk (sample_compiler [1; 4] sample_locals 0)))
    by (cbn; lia).
  split; [exact Hok|]. split; [exact Hls|].
  exact (emitLoop_jumps_back (sample_parser "a") (sample_compiler [1; 4] sample_locals 0) 0 Hok Hls).
Defined.

Lemma addUpvalue_no_duplicates_witness :
  0 <= upvalueCount (Cmp.function (sample_compiler [] sample_locals 1)) <= UINT8_COUNT /\
  upvalues_distinct (sample_compiler [] sample_locals 1) /\
  let '(p', c', r) := Cmp.addUpvalue (sample_parser "a") (sample_compiler [] sample_locals 1) 1 true in
  upvalues_distinct c' /\ 0 <= upvalueCount (Cmp.function c') <= UINT8_COUNT.
Proof.
  assert (Hn : 0 <= upvalueCount (Cmp.function (sample_compiler [] sample_locals 1)) <= UINT8_COUNT)
    by (cbn; unfold UINT8_COUNT; lia).
  assert (Hd : upvalues_distinct (sample_compiler [] sample_locals 1))
    by (intros i j Hij Hj; cbn in Hj; lia).
  split; [exact Hn|]. split; [exact Hd|].
  pose proof (addUpvalue_no_duplicates (sample_parser "a") (sample_compiler [] sample_locals 1) 1 true Hn Hd) as H.
  cbv zeta in H |- *.
  destruct (Cmp.addUpvalue (sample_parser "a") (sample_compiler [] sample_locals 1) 1 true) as [[p' c'] r].
  exact (conj (proj1 H) (proj1 (proj2 H))).
Defined.

Lemma declareVariable_rejects_depth1_name_witness :
  Cmp.identifiersEqual (Cmp.previous (sample_parser "a")) (Cmp.name (Cmp.locals (sample_compiler [] sample_locals 2) 1)) = true /\
  Cmp.hadError (fst (Cmp.declareVariable (sample_parser "a") (sample_compiler [] sample_locals 2) false)) = true.
Proof.
  assert (Hname : Cmp.identifiersEqual (Cmp.previous (sample_parser "a"))
                    (Cmp.name (Cmp.locals (sample_compiler [] sample_locals 2) 1)) = true)
    by (vm_compute; reflexivity).
  split; [exact Hname|].
  exact (proj1 (proj2 (declareVariable_rejects_depth1_name (sample_parser "a") (sample_compiler [] sample_locals 2) false 1
    ltac:(cbn; lia) ltac:(cbn; lia) Hname eq_refl ltac:(cbn; intros j Hj; lia) eq_refl))).
Defined.

Lemma trace_line_frames_heap s t i : frames s = frames t -> heap s = heap t ->
  trace_line s i = trace_line t i.
Proof. intros Hf Hh. unfold trace_line, frame_function, AS_STRING. rewrite Hf, Hh. reflexivity. Qed.

Lemma runtimeError_trace_fold (s : VM) (l : list Z) (s0 : VM) :
  frames s0 = frames s -> heap s0 = heap s ->
  let r := fold_left (fun s i => emit s (trace_line s i)) l s0 in
  output r = output s0 ++ map (trace_line s) l /\ frames r = frames s /\ heap r = heap s /\
  stack r = stack s0 /\ stackTop r = stackTop s0 /\ frameCount r = frameCount s0 /\
  globals r = globals s0 /\ openUpvalues r = openUpvalues s0.
Proof.
  revert s0. induction l as [|i l IH]; intros s0 Hf Hh; cbn.
  - rewrite app_nil_r. auto 10.
  - destruct (IH (emit s0 (trace_line s0 i)) Hf Hh) as [Ho Hrest]. cbn in Ho.
    rewrite (trace_line_frames_heap s0 s i Hf Hh) in Ho, Hrest |- *.
    rewrite Ho, <- app_assoc. split; [reflexivity|]. exact Hrest.
Qed.

Lemma runtimeError_output_and_reset (s : VM) (msg : string) :
  output (runtimeError s msg) =
    output s ++ OUT_ERROR msg :: map (trace_line s) (rev (seqZ 0 (frameCount s))) /\
  stackTop (runtimeError s msg) = 0 /\ frameCount (runtimeError s msg) = 0 /\
  openUpvalues (runtimeError s msg) = [] /\
  heap (runtimeError s msg) = heap s /\ globals (runtimeError s msg) = globals s /\
  stack (runtimeError s msg) = stack s.
Proof.
  unfold runtimeError.
  destruct (runtimeError_trace_fold s (rev (seqZ 0 (frameCount s))) (emit s (OUT_ERROR msg))
              eq_refl eq_refl) as [Ho [_ [Hh [Hs [_ [_ [Hg _]]]]]]].
  cbn [resetStack set_openUpvalues set_frames set_stack output stackTop frameCount openUpvalues heap globals stack].
  rewrite Ho, Hh, Hg, Hs. cbn. rewrite <- app_assoc. repeat split.
Qed.

(** X7: [runtimeError] outputs the message, then one trace line per call
    frame from the innermost to the outermost, then empties the value
    stack, the frame stack and the open-upvalue list; heap, globals and the
    stack's contents are unchanged. *)
Theorem runtimeError_message_then_trace (s : VM) (msg : string) :
  output (runtimeError s msg) =
    output s ++ OUT_ERROR msg :: map (trace_line s) (rev (seqZ 0 (frameCount s))) /\
  stackTop (runtimeError s msg) = 0 /\ frameCount (runtimeError s msg) = 0 /\
  openUpvalues (runtimeError s msg) = [] /\
  heap (runtimeError s msg) = heap s /\ globals (runtimeError s msg) = globals s /\
  stack (runtimeError s msg) = stack s.
Proof. exact (runtimeError_output_and_reset s msg). Qed.

(** Stack effects *)

Lemma set_ip_shape s fi x :
  stackTop (set_ip s fi x) = stackTop s /\ frameCount (set_ip s fi x) = frameCount s.
Proof. split; reflexivity. Qed.

Lemma READ_BYTE_shape s fi b s1 : READ_BYTE s fi = Some (b, s1) ->
  stackTop s1 = stackTop s /\ frameCount s1 = frameCount s.
Proof. intros H. rewrite (READ_BYTE_state _ _ _ _ H). apply set_ip_shape. Qed.

Lemma READ_CONSTANT_shape s fi v s1 : READ_CONSTANT s fi = Some (v, s1) ->
  stackTop s1 = stackTop s /\ frameCount s1 = frameCount s.
Proof.
  unfold READ_CONSTANT, mbind, option_bind.
  destruct (READ_BYTE s fi) as [[i s0]|] eqn:E; [|discriminate].
  destruct (frame_function _ _); [|discriminate].
  destruct (_ !! _); [|discriminate]. intros [= _ <-]. exact (READ_BYTE_shape _ _ _ _ E).
Qed.

Lemma READ_STRING_shape s fi nm s1 : READ_STRING s fi = Some (nm, s1) ->
  stackTop s1 = stackTop s /\ frameCount s1 = frameCount s.
Proof.
  unfold READ_STRING, mbind, option_bind.
  destruct (READ_CONSTANT s fi) as [[v s0]|] eqn:E; [|discriminate].
  destruct (AS_STRING _ _); [|discriminate]. intros [= _ <-]. exact (READ_CONSTANT_shape _ _ _ _ E).
Qed.

Lemma READ_SHORT_shape s fi x s1 : READ_SHORT s fi = Some (x, s1) ->
  stackTop s1 = stackTop s /\ frameCount s1 = frameCount s.
Proof.
  unfold READ_SHORT, mbind, option_bind.
  destruct (READ_BYTE s fi) as [[hi s0]|] eqn:E0; [|discriminate].
  destruct (READ_BYTE s0 fi) as [[lo s2]|] eqn:E1; [|discriminate].
  intros [= _ <-]. destruct (READ_BYTE_shape _ _ _ _ E0), (READ_BYTE_shape _ _ _ _ E1). split; congruence.
Qed.

Lemma takeString_shape s cs len :
  stackTop (fst (takeString s cs len)) = stackTop s /\ frameCount (fst (takeString s cs len)) = frameCount s.
Proof.
  unfold takeString, reallocate, DEBUG_STRESS_GC. rewrite andb_false_r.
  destruct (Tbl.tableFindString _ _ _ _); [split; reflexivity|].
  unfold allocateString, allocateObject, reallocate, DEBUG_STRESS_GC. rewrite andb_false_r.
  cbn. split; [lia | reflexivity].
Qed.

Lemma concatenate_shape s s' : concatenate s = Some s' ->
  stackTop s' = stackTop s - 1 /\ frameCount s' = frameCount s.
Proof.
  unfold concatenate, mbind, option_bind. cbn [pop fst snd].
  destruct (AS_STRING _ _) as [a|]; [|discriminate].
  destruct (AS_STRING _ _) as [b|]; [|discriminate].
  unfold reallocate, DEBUG_STRESS_GC. rewrite andb_false_r.
  match goal with |- context[takeString ?x ?y ?z] =>
    pose proof (takeString_shape x y z) as [H1 H2]; destruct (takeString x y z) as [s4 r] eqn:E end.
  intros [= <-].
  cbn in H1, H2 |- *. split; lia.
Qed.

Lemma BINARY_OP_shape s op : 0 < frameCount s ->
  frameCount (BINARY_OP s op) = frameCount s -> stackTop (BINARY_OP s op) = stackTop s - 1.
Proof.
  intros Hf. unfold BINARY_OP.
  destruct (negb _ || negb _).
  - destruct (runtimeError_output_and_reset s "Operands must be numbers.") as [_ [_ [Hc _]]].
    unfold push, pop, set_stack. cbn [fst snd stackTop frameCount]. rewrite Hc. lia.
  - unfold push, pop, set_stack. cbn [fst snd stackTop frameCount]. lia.
Qed.

Lemma closeUpvalues_loop_shape s l last :
  stackTop (closeUpvalues_loop s l last) = stackTop s /\ frameCount (closeUpvalues_loop s l last) = frameCount s.
Proof.
  revert s. induction l as [|u l IH]; intros s; [split; reflexivity|]. cbn.
  repeat match goal with |- context[match ?x with _ => _ end] => destruct x end;
    try (split; reflexivity).
  exact (IH _).
Qed.

Lemma allocateObject_shape s size mk :
  stackTop (fst (allocateObject s size mk)) = stackTop s /\ frameCount (fst (allocateObject s size mk)) = frameCount s.
Proof. unfold allocateObject. rewrite reallocate_id. split; reflexivity. Qed.

Lemma captureUpvalue_shape s local :
  stackTop (fst (captureUpvalue s local)) = stackTop s /\ frameCount (fst (captureUpvalue s local)) = frameCount s.
Proof.
  unfold captureUpvalue, newUpvalue.
  destruct (split_open s (openUpvalues s) local) as [p r].
  pose proof (allocateObject_shape s OBJ_SIZE (fun _ => OBJ_UPVALUE (LOC_STACK local) NIL_VAL)) as Ha.
  destruct (allocateObject s OBJ_SIZE _) as [s1 c]. cbn [fst] in Ha.
  destruct r as [|u rest]; [exact Ha|]. destruct (bool_decide _); [split; reflexivity | exact Ha].
Qed.

Lemma closure_upvalues_shape n : forall s fi cl i s', closure_upvalues n s fi cl i = Some s' ->
  stackTop s' = stackTop s /\ frameCount s' = frameCount s.
Proof.
  induction n as [|n IH]; intros s fi cl i s' Hc; cbn [closure_upvalues] in Hc.
  - injection Hc as <-. split; reflexivity.
  - unfold mbind, option_bind in Hc.
    destruct (READ_BYTE s fi) as [[isLocal s1]|] eqn:E1; [|discriminate].
    destruct (READ_BYTE s1 fi) as [[index s2]|] eqn:E2; [|discriminate].
    destruct (READ_BYTE_shape _ _ _ _ E1), (READ_BYTE_shape _ _ _ _ E2).
    assert (H3 : forall s3 u, (if negb (isLocal =? 0)
                       then let '(s3, u) := captureUpvalue s2 (slots (frames s2 fi) + index) in Some (s3, Some u)
                       else match heap s2 !! closure (frames s2 fi) with
                            | Some (mkObj _ (OBJ_CLOSURE _ ups _)) => u ← ups !! Z.to_nat index; Some (s2, u)
                            | _ => None end) = Some (s3, u) -> stackTop s3 = stackTop s2 /\ frameCount s3 = frameCount s2).
    { intros s3 u. destruct (negb _).
      - pose proof (captureUpvalue_shape s2 (slots (frames s2 fi) + index)) as Hs.
        destruct (captureUpvalue s2 _) as [s3' u']. intros [= <- _]. exact Hs.
      - destruct (heap s2 !! _) as [[m [| | | | | | | | ]]|]; try discriminate.
        unfold mbind, option_bind. destruct (_ !! Z.to_nat index); [|discriminate].
        intros [= <- _]. split; reflexivity. }
    destruct (if negb (isLocal =? 0) then _ else _) as [[s3 u]|] eqn:E3; [|discriminate].
    destruct (H3 s3 u eq_refl).
    destruct (heap s3 !! cl) as [[m [| |fid ups cnt| | | | | | ]]|]; try discriminate.
    destruct (IH _ _ _ _ _ Hc) as [A B]. cbn in A, B. split; congruence.
Qed.

Lemma newClosure_shape s fid s1 cl : newClosure s fid = Some (s1, cl) ->
  stackTop s1 = stackTop s /\ frameCount s1 = frameCount s.
Proof.
  unfold newClosure. destruct (heap s !! fid) as [[m [| | |f| | | | | ]]|]; try discriminate.
  rewrite reallocate_id. intros [= <- _]. unfold allocateObject. rewrite reallocate_id. split; reflexivity.
Qed.

Lemma upvalue_set_shape s u v s1 : upvalue_set s u v = Some s1 ->
  stackTop s1 = stackTop s /\ frameCount s1 = frameCount s.
Proof.
  unfold upvalue_set. destruct (heap s !! u) as [[m [| | | | | | | |[slot|] x]]|]; try discriminate;
    intros [= <-]; split; reflexivity.
Qed.

(** X9: every instruction of [run] other than [OP_CALL] and [OP_RETURN]
    that continues in the same frame stack changes [stackTop] by its fixed
    stack effect and stays in the same frame. *)
Theorem execute_stack_effect (s : VM) (fi : Z) (op : OpCode) (d : Z) (s' : VM) (fi' : Z)
  (Hd : stack_effect op = Some d) (Hf : 0 < frameCount s)
  (Hx : execute s fi op = Some (Continue s' fi')) (Hc : frameCount s' = frameCount s) :
  stackTop s' = stackTop s + d /\ fi' = fi.
Proof.
  destruct op; cbn in Hd; try discriminate Hd; injection Hd as <-; cbn [execute] in Hx;
    unfold mbind, option_bind in Hx.
  - destruct (READ_CONSTANT s fi) as [[v s1]|] eqn:E; [|discriminate].
    injection Hx as <- <-. destruct (READ_CONSTANT_shape _ _ _ _ E). cbn. split; [lia|reflexivity].
  - injection Hx as <- <-. cbn. split; [lia|reflexivity].
  - injection Hx as <- <-. cbn. split; [lia|reflexivity].
  - injection Hx as <- <-. cbn. split; [lia|reflexivity].
  - injection Hx as <- <-. cbn. split; [lia|reflexivity].
  - destruct (READ_BYTE s fi) as [[v s1]|] eqn:E; [|discriminate].
    injection Hx as <- <-. destruct (READ_BYTE_shape _ _ _ _ E). cbn. split; [lia|reflexivity].
  - destruct (READ_BYTE s fi) as [[v s1]|] eqn:E; [|discriminate].
    injection Hx as <- <-. destruct (READ_BYTE_shape _ _ _ _ E). cbn. split; [lia|reflexivity].
  - destruct (READ_STRING s fi) as [[nm s1]|] eqn:E; [|discriminate].
    destruct (Tbl.tableGet _ _); [|discriminate].
    injection Hx as <- <-. destruct (READ_STRING_shape _ _ _ _ E). cbn. split; [lia|reflexivity].
  - destruct (READ_STRING s fi) as [[nm s1]|] eqn:E; [|discriminate].
    injection Hx as <- <-. destruct (READ_STRING_shape _ _ _ _ E). cbn. split; [lia|reflexivity].
  - destruct (READ_STRING s fi) as [[nm s1]|] eqn:E; [|discriminate].
    destruct (Tbl.tableSet _ _ _) as [g []]; [discriminate|].
    injection Hx as <- <-. destruct (READ_STRING_shape _ _ _ _ E). cbn. split; [lia|reflexivity].
  - injection Hx as <- <-. cbn. split; [lia|reflexivity].
  - injection Hx as <- <-. split; [|reflexivity]. rewrite (BINARY_OP_shape s _ Hf Hc). lia.
  - injection Hx as <- <-. split; [|reflexivity]. rewrite (BINARY_OP_shape s _ Hf Hc). lia.
  - destruct (IS_STRING s (peek s 0) && IS_STRING s (peek s 1)).
    + destruct (concatenate s) as [s1|] eqn:E; [|discriminate].
      injection Hx as <- <-. destruct (concatenate_shape _ _ E). split; [lia|reflexivity].
    + destruct (IS_NUMBER (peek s 0) && IS_NUMBER (peek s 1)); [|discriminate].
      injection Hx as <- <-. cbn. split; [lia|reflexivity].
  - injection Hx as <- <-. split; [|reflexivity]. rewrite (BINARY_OP_shape s _ Hf Hc). lia.
  - injection Hx as <- <-. split; [|reflexivity]. rewrite (BINARY_OP_shape s _ Hf Hc). lia.
  - injection Hx as <- <-. split; [|reflexivity]. rewrite (BINARY_OP_shape s _ Hf Hc). lia.
  - injection Hx as <- <-. cbn. split; [lia|reflexivity].
  - destruct (negb (IS_NUMBER (peek s 0))); [discriminate|].
    injection Hx as <- <-. cbn. split; [lia|reflexivity].
  - injection Hx as <- <-. cbn. split; [lia|reflexivity].
  - destruct (READ_SHORT s fi) as [[x s1]|] eqn:E; [|discriminate].
    injection Hx as <- <-. destruct (READ_SHORT_shape _ _ _ _ E). cbn. split; [lia|reflexivity].
  - destruct (READ_SHORT s fi) as [[x s1]|] eqn:E; [|discriminate].
    destruct (READ_SHORT_shape _ _ _ _ E).
    destruct (isFalsey _); injection Hx as <- <-; cbn; split; (lia || reflexivity).
  - destruct (READ_SHORT s fi) as [[x s1]|] eqn:E; [|discriminate].
    injection Hx as <- <-. destruct (READ_SHORT_shape _ _ _ _ E). cbn. split; [lia|reflexivity].
  - destruct (READ_BYTE s fi) as [[v s1]|] eqn:E; [|discriminate].
    destruct (frame_upvalue s1 fi v) as [u|]; [|discriminate].
    destruct (upvalue_get s1 u) as [x|]; [|discriminate].
    injection Hx as <- <-. destruct (READ_BYTE_shape _ _ _ _ E). cbn. split; [lia|reflexivity].
  - destruct (READ_BYTE s fi) as [[v s1]|] eqn:E; [|discriminate].
    destruct (frame_upvalue s1 fi v) as [u|]; [|discriminate].
    destruct (upvalue_set s1 u _) as [s2|] eqn:E2; [|discriminate].
    injection Hx as <- <-. destruct (READ_BYTE_shape _ _ _ _ E), (upvalue_set_shape _ _ _ _ E2).
    split; [lia|reflexivity].
  - destruct (READ_CONSTANT s fi) as [[v s1]|] eqn:E; [|discriminate].
    destruct (READ_CONSTANT_shape _ _ _ _ E).
    destruct v as [| | |o]; try discriminate.
    destruct (newClosure s1 o) as [[s2 cl]|] eqn:E2; [|discriminate].
    destruct (newClosure_shape _ _ _ _ E2).
    destruct (heap (push s2 (OBJ_VAL cl)) !! cl) as [[m [| |fid ups cnt| | | | | | ]]|]; try discriminate.
    destruct (closure_upvalues _ _ fi cl 0) as [s4|] eqn:E4; [|discriminate].
    injection Hx as <- <-. destruct (closure_upvalues_shape _ _ _ _ _ _ E4) as [A _].
    cbn in A. split; [lia|reflexivity].
  - injection Hx as <- <-. unfold closeUpvalues.
    destruct (closeUpvalues_loop_shape s (openUpvalues s) (stackTop s - 1)) as [A _].
    cbn. split; [lia|reflexivity].
Qed.

(** Halting *)

Lemma closeUpvalues_loop_frameCount s l last :
  frameCount (closeUpvalues_loop s l last) = frameCount s.
Proof.
  revert s. induction l as [|u l IH]; intros s; [reflexivity|]. cbn.
  repeat match goal with |- context[match ?x with _ => _ end] => destruct x end;
    try reflexivity.
  rewrite IH. reflexivity.
Qed.

Lemma call_fails s cl n s2 : call s cl n = Some (s2, false) -> exists msg, s2 = runtimeError s msg.
Proof.
  unfold call.
  repeat match goal with |- context[match ?x with _ => _ end] => destruct x end;
    try discriminate; intros [= <-]; eauto.
Qed.

Lemma callValue_fails s v n s2 : callValue s v n = Some (s2, false) ->
  exists s0 msg, s2 = runtimeError s0 msg.
Proof.
  unfold callValue. cbv zeta.
  destruct v as [| | |o]; try (intros [= <-]; eauto; fail).
  destruct (heap s !! o) as [[m []]|]; try (intros [= <-]; eauto; fail).
  intros H. destruct (call_fails _ _ _ _ H) as [msg ->]. eauto.
Qed.

Lemma execute_halts s fi op r s' : execute s fi op = Some (Halt r s') ->
  (r = INTERPRET_OK /\ frameCount s' = 0) \/
  (r = INTERPRET_RUNTIME_ERROR /\ exists s0 msg, s' = runtimeError s0 msg).
Proof.
  destruct op; cbn [execute]; unfold mbind, option_bind;
    repeat match goal with
    | |- context[match ?x with _ => _ end] => destruct x eqn:?
    | |- context[let '(_, _) := ?x in _] => destruct x eqn:?
    end; try discriminate;
    try (intros [= <- <-]; right; split; [reflexivity|]; eauto; fail).
  - intros [= <- <-]. right. split; [reflexivity|]. eapply callValue_fails; eassumption.
  - intros [= <- <-]. left. split; [reflexivity|].
    match goal with H : (_ =? 0) = true |- _ => apply Z.eqb_eq in H; exact H end.
Qed.

(** X10: whenever [run] halts, the frame stack is empty; the result is
    [INTERPRET_OK] or a runtime error, and after a runtime error the value
    stack and the open-upvalue list are empty and the output ends with the
    error message and a stack trace. *)
Theorem run_halts_without_frames (fuel : nat) (s : VM) (fi : Z) (r : InterpretResult) (s' : VM)
  (H : run fuel s fi = Halt r s') :
  frameCount s' = 0 /\
  (r = INTERPRET_OK \/
   (r = INTERPRET_RUNTIME_ERROR /\ stackTop s' = 0 /\ openUpvalues s' = [] /\
    exists s0 msg, output s' = output s0 ++ OUT_ERROR msg :: map (trace_line s0) (rev (seqZ 0 (frameCount s0))))).
Proof.
  revert s fi H. induction fuel as [|n IH]; intros s fi H; [discriminate|].
  cbn in H. unfold step in H.
  destruct (READ_BYTE s fi) as [[b s1]|]; [|discriminate].
  destruct (decode b) as [op|]; [|exact (IH _ _ H)].
  destruct (execute s1 fi op) as [[s2 fi2|r2 s2|s2]|] eqn:E; try discriminate.
  - exact (IH _ _ H).
  - injection H as <- <-. destruct (execute_halts _ _ _ _ _ E) as [[-> Hc]|[-> [s0 [msg ->]]]].
    + split; [exact Hc|left; reflexivity].
    + destruct (runtimeError_output_and_reset s0 msg) as [Ho [Ht [Hc [Hu _]]]].
      split; [exact Hc|]. right. split; [reflexivity|]. split; [exact Ht|]. split; [exact Hu|].
      exists s0, msg. exact Ho.
Qed.

Lemma run_halts_without_frames_witness :
  exists s', run 2 (script_state negate_nil_program [] ∅) 0 = Halt INTERPRET_RUNTIME_ERROR s' /\
  frameCount s' = 0 /\
  (INTERPRET_RUNTIME_ERROR = INTERPRET_OK \/
   (INTERPRET_RUNTIME_ERROR = INTERPRET_RUNTIME_ERROR /\ stackTop s' = 0 /\ openUpvalues s' = [] /\
    exists s0 msg, output s' = output s0 ++ OUT_ERROR msg :: map (trace_line s0) (rev (seqZ 0 (frameCount s0))))).
Proof.
  eexists. split; [vm_compute; reflexivity|].
  apply (run_halts_without_frames 2 (script_state negate_nil_program [] ∅) 0). vm_compute. reflexivity.
Defined.

Lemma execute_stack_effect_witness :
  exists s' fi', stack_effect OP_NIL = Some 1 /\ 0 < frameCount (script_state negate_nil_program [] ∅) /\
  execute (script_state negate_nil_program [] ∅) 0 OP_NIL = Some (Continue s' fi') /\
  frameCount s' = frameCount (script_state negate_nil_program [] ∅) /\
  stackTop s' = stackTop (script_state negate_nil_program [] ∅) + 1 /\ fi' = 0.
Proof.
  do 2 eexists. split; [reflexivity|]. split; [vm_compute; reflexivity|].
  split; [vm_compute; reflexivity|]. split; [vm_compute; reflexivity|].
  apply (execute_stack_effect (script_state negate_nil_program [] ∅) 0 OP_NIL 1); vm_compute; reflexivity.
Defined.

Lemma substring_substring s st n a b : (a + b <= n)%nat ->
  substring a b (substring st n s) = substring (st + a) b s.
Proof.
  intros Hab. apply get_correct. intros p.
  destruct (Nat.lt_ge_cases p b).
  - rewrite !substring_correct1 by lia. f_equal; lia.
  - rewrite !substring_correct2 by lia. reflexivity.
Qed.

Lemma substring_length s st n : (st + n <= String.length s)%nat ->
  String.length (substring st n s) = n.
Proof.
  revert st n. induction s as [|c s IH]; intros st n H; cbn in H.
  - assert (st = 0%nat /\ n = 0%nat) as [-> ->] by lia. reflexivity.
  - destruct st as [|st]; [destruct n as [|n]; cbn; [reflexivity|]|].
    + f_equal. apply IH. lia.
    + apply IH. lia.
Qed.

Lemma substring_full s : substring 0 (String.length s) s = s.
Proof. induction s as [|c s IH]; [reflexivity|]. cbn. f_equal. exact IH. Qed.

(** A length test followed by a comparison of the whole. *)
Lemma check_whole w k r : String.length r = k ->
  (Nat.eqb (String.length w) k && String.eqb (substring 0 k w) r)%bool = String.eqb w r.
Proof.
  intros <-. destruct (Nat.eqb_spec (String.length w) (String.length r)) as [E|E].
  - rewrite <- E, substring_full. reflexivity.
  - symmetry. apply String.eqb_neq. intros ->. apply E. reflexivity.
Qed.

Lemma get_some_lt n w c : String.get n w = Some c -> (n < String.length w)%nat.
Proof.
  revert w. induction n as [|n IH]; intros [|c' w] G; cbn in *; try discriminate; [lia|].
  specialize (IH _ G). lia.
Qed.

Lemma substring_split w a b : String.length w = (a + b)%nat ->
  w = String.append (substring 0 a w) (substring a b w).
Proof.
  intros Hl. apply get_correct. intros p.
  destruct (Nat.lt_ge_cases p a) as [Hp|Hp].
  - rewrite <- append_correct1 by (rewrite substring_length; lia).
    rewrite substring_correct1 by lia. f_equal; lia.
  - replace p with ((p - a) + String.length (substring 0 a w))%nat
      by (rewrite substring_length; lia).
    rewrite <- append_correct2. rewrite substring_length by lia.
    destruct (Nat.lt_ge_cases (p - a) b).
    + rewrite substring_correct1 by lia. f_equal; lia.
    + rewrite substring_correct2 by lia.
      destruct (get (p - a + a) w) eqn:G; [|reflexivity].
      pose proof (get_some_lt _ _ _ G). lia.
Qed.

Lemma checkKeyword_w_ident w l st len rest ty : 0 <= st -> 0 <= len ->
  w <> String.append (substring 0 (Z.to_nat st) w) rest ->
  checkKeyword w (mkScanner 0 (Z.of_nat (String.length w)) l) st len rest ty = TOKEN_IDENTIFIER.
Proof.
  intros Hst Hlen Hne. unfold checkKeyword. cbn [current start].
  destruct (Z.of_nat (String.length w) - 0 =? st + len) eqn:E; [|reflexivity].
  destruct (String.eqb_spec (substring (Z.to_nat (0 + st)) (Z.to_nat len) w) rest) as [Er|]; [|reflexivity].
  exfalso. apply Hne. apply Z.eqb_eq in E. rewrite <- Er. replace (Z.to_nat (0 + st)) with (Z.to_nat st) by lia.
  apply substring_split. lia.
Qed.

Lemma prefix1 w a : char_at w 0 = a -> a <> "000"%char -> substring 0 1 w = String a EmptyString.
Proof.
  intros H Ha. unfold char_at in H. change (Z.to_nat 0) with 0%nat in H. cbn in H.
  destruct w as [|c w']; cbn in H |- *; subst; [contradiction|destruct w'; reflexivity].
Qed.

Lemma prefix2 w a b : char_at w 0 = a -> char_at w 1 = b -> b <> "000"%char ->
  substring 0 2 w = String a (String b EmptyString).
Proof.
  intros H0 H1 Hb. unfold char_at in H0, H1.
  change (Z.to_nat 0) with 0%nat in H0. change (Z.to_nat 1) with 1%nat in H1. cbn in H0, H1.
  destruct w as [|c [|c' w']]; cbn in H0, H1 |- *; subst; [contradiction|contradiction|destruct w'; reflexivity].
Qed.

Ltac keyword_leaf w :=
  first
  [ reflexivity
  | apply checkKeyword_w_ident; [lia | lia |];
    let Hw := fresh "Hw" in
    intros Hw; change (Z.to_nat 1) with 1%nat in Hw; change (Z.to_nat 2) with 2%nat in Hw;
    match goal with
    | H0 : char_at w 0 = ?a, H1 : char_at w 1 = ?b , Hw : context[substring 0 2 w] |- _ =>
        rewrite (prefix2 w a b H0 H1 ltac:(discriminate)) in Hw
    | H0 : char_at w 0 = ?a, Hw : context[substring 0 1 w] |- _ =>
        rewrite (prefix1 w a H0 ltac:(discriminate)) in Hw
    end;
    cbn in Hw; subst w; vm_compute in *; congruence ].

Lemma identifierType_keywordType_lexeme (w : string) (l : Z) :
  identifierType w (mkScanner 0 (Z.of_nat (String.length w)) l) = keywordType w.
Proof.
  unfold keywordType.
  repeat match goal with
  | |- context[String.eqb w ?k] =>
      destruct (String.eqb_spec w k) as [->|?]; [vm_compute; reflexivity|]
  end.
  unfold identifierType. cbv zeta. cbn [current start]. change (0 + 1) with 1.
  destruct (1 <? _ - _) eqn:L; cbn [andb];
  repeat (match goal with
  | |- context[Ascii.eqb ?x ?k] => destruct (Ascii.eqb_spec x k)
  end; cbv beta iota); keyword_leaf w.
Qed.

Lemma char_at_lexeme src st n k : 0 <= st -> 0 <= k < n ->
  char_at src (st + k) = char_at (substring (Z.to_nat st) (Z.to_nat n) src) k.
Proof.
  intros Hst Hk. unfold char_at.
  destruct (st + k <? 0) eqn:E1; [lia|]. destruct (k <? 0) eqn:E2; [lia|].
  rewrite substring_correct1 by lia. replace (Z.to_nat k + Z.to_nat st)%nat with (Z.to_nat (st + k)) by lia.
  reflexivity.
Qed.

Lemma checkKeyword_lexeme src sc st len rest ty :
  0 <= start sc <= current sc -> current sc <= Z.of_nat (String.length src) -> 0 <= st -> 0 <= len ->
  checkKeyword src sc st len rest ty =
  checkKeyword (substring (Z.to_nat (start sc)) (Z.to_nat (current sc - start sc)) src)
    (mkScanner 0 (Z.of_nat (String.length
       (substring (Z.to_nat (start sc)) (Z.to_nat (current sc - start sc)) src))) (line sc))
    st len rest ty.
Proof.
  intros Hs Hc Hst Hlen. unfold checkKeyword. cbn [current start].
  rewrite substring_length by lia. rewrite Z2Nat.id by lia. rewrite Z.sub_0_r.
  destruct (current sc - start sc =? st + len) eqn:E; [|reflexivity]. apply Z.eqb_eq in E.
  cbn [andb]. rewrite substring_substring by lia.
  replace (Z.to_nat (start sc) + Z.to_nat (0 + st))%nat with (Z.to_nat (start sc + st)) by lia. reflexivity.
Qed.

Lemma identifierType_lexeme src sc :
  0 <= start sc < current sc -> current sc <= Z.of_nat (String.length src) ->
  identifierType src sc =
  identifierType (substring (Z.to_nat (start sc)) (Z.to_nat (current sc - start sc)) src)
    (mkScanner 0 (Z.of_nat (String.length
       (substring (Z.to_nat (start sc)) (Z.to_nat (current sc - start sc)) src))) (line sc)).
Proof.
  intros Hs Hc. unfold identifierType. cbv zeta.
  rewrite !(checkKeyword_lexeme src sc) by lia.
  cbn [start current]. change (0 + 1) with 1.
  rewrite <- (char_at_lexeme src (start sc) (current sc - start sc) 0) by lia. rewrite Z.add_0_r.
  rewrite substring_length by lia. rewrite Z2Nat.id by lia. rewrite Z.sub_0_r.
  destruct (1 <? current sc - start sc) eqn:L; cbn [andb]; [|reflexivity].
  rewrite <- (char_at_lexeme src (start sc) (current sc - start sc) 1) by lia. reflexivity.
Qed.

Lemma char_at_not_nul src i : char_at src i <> "000"%char -> 0 <= i < Z.of_nat (String.length src).
Proof.
  unfold char_at. destruct (i <? 0) eqn:E; [intros []; reflexivity|].
  destruct (String.get (Z.to_nat i) src) as [c|] eqn:G; [|intros []; reflexivity].
  intros _. apply get_some_lt in G. lia.
Qed.

Lemma advance_in_source src sc : char_at src (current sc) <> "000"%char ->
  in_source src (snd (advance src sc)).
Proof. intros H. apply char_at_not_nul in H. unfold in_source. cbn. lia. Qed.

Lemma skipComment_in_source src n sc : in_source src sc -> in_source src (skipComment src n sc).
Proof.
  revert sc. induction n as [|n IH]; intros sc H; [exact H|]. cbn.
  destruct (negb _ && negb (isAtEnd src sc)) eqn:E; [|exact H].
  apply IH, advance_in_source. apply andb_prop in E as [_ E].
  unfold isAtEnd in E. intros C. rewrite C in E. discriminate.
Qed.

Lemma skipWhitespace_in_source src n sc : in_source src sc -> in_source src (skipWhitespace src n sc).
Proof.
  revert sc. induction n as [|n IH]; intros sc H; [exact H|]. cbn [skipWhitespace]. cbv zeta.
  unfold peek_char.
  destruct (Ascii.eqb (char_at src (current sc)) " " || _ || _) eqn:E.
  - apply IH, advance_in_source. intros C. rewrite C in E. discriminate.
  - destruct (Ascii.eqb (char_at src (current sc)) "010") eqn:E2.
    + apply IH, advance_in_source. cbn. intros C. rewrite C in E2. discriminate.
    + destruct (Ascii.eqb _ "/"); [|exact H].
      destruct (Ascii.eqb (peekNext _ _) "/"); [|exact H].
      apply IH, skipComment_in_source, H.
Qed.

Lemma skipWhile_in_source src p n sc : p "000"%char = false -> in_source src sc ->
  in_source src (skipWhile src p n sc) /\ start (skipWhile src p n sc) = start sc /\
  current sc <= current (skipWhile src p n sc).
Proof.
  intros Hp. revert sc. induction n as [|n IH]; intros sc H; cbn [skipWhile]; [split; [exact H|split; [reflexivity|lia]]|].
  unfold peek_char. destruct (p (char_at src (current sc))) eqn:E; [|split; [exact H|split; [reflexivity|lia]]].
  destruct (IH (snd (advance src sc))) as [H1 [H2 H3]].
  - apply advance_in_source. intros C. rewrite C in E. congruence.
  - cbn [advance snd start current] in H1, H2, H3 |- *. split; [exact H1|split; [exact H2|lia]].
Qed.

Lemma identifier_keywordType src sc : 0 <= start sc < current sc -> in_source src sc ->
  type (fst (identifier src sc)) = keywordType (lexeme (fst (identifier src sc))).
Proof.
  intros Hs Hin. unfold identifier. cbn [fst type lexeme]. unfold makeToken. cbn [type lexeme].
  destruct (skipWhile_in_source src (fun c => isAlpha c || isDigit c) (fuel src) sc eq_refl Hin)
    as [[H0 H1] [H2 H3]].
  rewrite identifierType_lexeme by lia. apply identifierType_keywordType_lexeme.
Qed.

(** X11: an identifier-like token from [scanToken] has the kind of its
    lexeme in the flat keyword table: the fall-throughs of the
    [identifierType] switch never give a wrong keyword. *)
Theorem scanToken_keywords (src : string) (sc : Scanner) (Hin : in_source src sc)
  (Hw : is_word (type (fst (scanToken src sc))) = true) :
  type (fst (scanToken src sc)) = keywordType (lexeme (fst (scanToken src sc))).
Proof.
  revert Hw. unfold scanToken. cbv zeta.
  pose proof (skipWhitespace_in_source src (fuel src) sc Hin) as H1.
  set (sc1 := skipWhitespace src (fuel src) sc) in *.
  destruct (isAtEnd src _) eqn:End; [discriminate|].
  assert (Hc : in_source src (snd (advance src (mkScanner (current sc1) (current sc1) (line sc1))))).
  { apply advance_in_source. cbn. unfold isAtEnd in End. cbn in End. intros C. rewrite C in End. discriminate. }
  cbn [advance fst snd] in Hc |- *.
  destruct (isAlpha _) eqn:A.
  - intros _. apply identifier_keywordType; [unfold in_source in H1; cbn [start current]; lia|exact Hc].
  - unfold number, string_lit, errorToken, makeToken.
    repeat match goal with
    | |- context[if ?b then _ else _] => destruct b
    | |- context[let '(_, _) := ?x in _] => destruct x
    end; cbn; discriminate.
Qed.

Lemma scanToken_keywords_witness :
  in_source "var" initScanner /\ is_word (type (fst (scanToken "var" initScanner))) = true /\
  type (fst (scanToken "var" initScanner)) = keywordType (lexeme (fst (scanToken "var" initScanner))).
Proof.
  split; [unfold in_source; cbn; lia|]. split; [vm_compute; reflexivity|].
  apply scanToken_keywords; [unfold in_source; cbn; lia | vm_compute; reflexivity].
Defined.

(** String literals *)

Lemma newlines_between_step src a b : a < b ->
  newlines_between src a b =
  (if Ascii.eqb (char_at src a) "010" then 1 else 0) + newlines_between src (a + 1) b.
Proof.
  intros H. unfold newlines_between.
  replace (b - a) with (Z.succ (b - (a + 1))) by lia. rewrite seqZ_cons by lia.
  replace (Z.pred (Z.succ (b - (a + 1)))) with (b - (a + 1)) by lia.
  replace (Z.succ a) with (a + 1) by lia.
  cbn [List.filter]. destruct (Ascii.eqb _ _); cbn [List.length]; lia.
Qed.

Lemma newlines_between_nil src a : newlines_between src a a = 0.
Proof. unfold newlines_between. rewrite Z.sub_diag. reflexivity. Qed.

Lemma string_body_run src n sc j : current sc <= j ->
  (forall i, current sc <= i < j ->
     char_at src i <> "034"%char /\ char_at src i <> "\"%char /\ char_at src i <> "000"%char) ->
  (char_at src j = "034"%char \/ char_at src j = "000"%char) ->
  (Z.to_nat (j - current sc) < n)%nat ->
  string_body src n sc = mkScanner (start sc) j (line sc + newlines_between src (current sc) j).
Proof.
  revert sc. induction n as [|n IH]; intros sc Hj Hmid Hend Hn; [lia|].
  cbn [string_body]. unfold peek_char, isAtEnd.
  destruct (Z.eq_dec (current sc) j) as [E0|Hne].
  - subst j. rewrite newlines_between_nil, Z.add_0_r.
    destruct Hend as [E|E]; rewrite E; cbn; destruct sc; reflexivity.
  - destruct (Hmid (current sc) ltac:(lia)) as [Nq [Nb Nz]].
    rewrite (proj2 (Ascii.eqb_neq _ _) Nq), (proj2 (Ascii.eqb_neq _ _) Nz). cbn [negb andb].
    destruct (Ascii.eqb (char_at src (current sc)) "010") eqn:Enl.
    + cbn [start current line]. rewrite (proj2 (Ascii.eqb_neq _ _) Nb).
      cbn [advance snd start current line].
      rewrite IH; cbn [start current line]; [|lia| |exact Hend|lia].
      * rewrite (newlines_between_step src (current sc) j) by lia. rewrite Enl.
        f_equal; lia.
      * intros i Hi. apply Hmid. lia.
    + rewrite (proj2 (Ascii.eqb_neq _ _) Nb). cbn [advance snd start current line].
      rewrite IH; cbn [start current line]; [|lia| |exact Hend|lia].
      * rewrite (newlines_between_step src (current sc) j) by lia. rewrite Enl. f_equal; lia.
      * intros i Hi. apply Hmid. lia.
Qed.

Lemma char_at_end src : char_at src (Z.of_nat (String.length src)) = "000"%char.
Proof.
  unfold char_at. destruct (_ <? 0) eqn:E; [reflexivity|].
  rewrite Nat2Z.id. destruct (String.get (String.length src) src) eqn:G; [|reflexivity].
  apply get_some_lt in G. lia.
Qed.

(** X12: a string literal without backslash or NUL is scanned up to the
    next quote into a [TOKEN_STRING] whose lexeme includes both quotes,
    counting the newlines it spans; with no closing quote the result is
    "Unterminated string.". *)
Theorem string_lit_reads_to_quote (src : string) (sc : Scanner) (j : Z)
  (Hj : 0 <= current sc <= j) (Hlen : j <= Z.of_nat (String.length src))
  (Hmid : forall i, current sc <= i < j ->
     char_at src i <> "034"%char /\ char_at src i <> "\"%char /\ char_at src i <> "000"%char) :
  let ln := line sc + newlines_between src (current sc) j in
  (char_at src j = "034"%char ->
   string_lit src sc =
     (mkToken TOKEN_STRING (substring (Z.to_nat (start sc)) (Z.to_nat (j + 1 - start sc)) src) ln,
      mkScanner (start sc) (j + 1) ln)) /\
  (j = Z.of_nat (String.length src) ->
   string_lit src sc = (mkToken TOKEN_ERROR "Unterminated string." ln, mkScanner (start sc) j ln)).
Proof.
  cbv zeta. split.
  - intros Eq. unfold string_lit, fuel.
    rewrite (string_body_run src _ sc j); [| lia | exact Hmid | left; exact Eq | lia].
    unfold isAtEnd. cbn [current]. rewrite Eq. cbn. reflexivity.
  - intros ->. unfold string_lit, fuel.
    rewrite (string_body_run src _ sc (Z.of_nat (String.length src))); [| lia | exact Hmid | right; apply char_at_end | lia].
    unfold isAtEnd. cbn [current]. rewrite char_at_end. reflexivity.
Qed.

Lemma string_lit_reads_to_quote_witness :
  (0 <= current (mkScanner 0 1 1) <= 3 /\ 3 <= Z.of_nat (String.length quoted_ab)) /\
  string_lit quoted_ab (mkScanner 0 1 1) = (mkToken TOKEN_STRING quoted_ab 1, mkScanner 0 4 1).
Proof.
  split; [cbn; lia|].
  apply (string_lit_reads_to_quote quoted_ab (mkScanner 0 1 1) 3); [cbn; lia|cbn; lia| |vm_compute; reflexivity].
  intros i Hi. cbn in Hi. assert (i = 1 \/ i = 2) as [-> | ->] by lia; vm_compute; repeat split; discriminate.
Defined.

Lemma char_at_past src i : Z.of_nat (String.length src) <= i -> char_at src i = "000"%char.
Proof.
  intros H. unfold char_at. destruct (i <? 0) eqn:E; [reflexivity|].
  destruct (String.get (Z.to_nat i) src) eqn:G; [|reflexivity].
  apply get_some_lt in G. lia.
Qed.

Lemma substring_zero n s : substring n 0 s = EmptyString.
Proof. revert n. induction s as [|c s IH]; intros [|n]; cbn; auto. Qed.

(** X13: at the end of the source [scanToken] returns [TOKEN_EOF] with an
    empty lexeme and leaves the scanner where it is. *)
Theorem scanToken_at_end (src : string) (sc : Scanner)
  (Hend : Z.of_nat (String.length src) <= current sc) :
  scanToken src sc = (mkToken TOKEN_EOF EmptyString (line sc), mkScanner (current sc) (current sc) (line sc)).
Proof.
  assert (Hs : skipWhitespace src (fuel src) sc = sc).
  { unfold fuel. cbn [skipWhitespace]. cbv zeta. unfold peek_char. rewrite char_at_past by exact Hend.
    reflexivity. }
  unfold scanToken. cbv zeta. rewrite Hs. unfold isAtEnd. cbn [current].
  rewrite char_at_past by exact Hend. cbn [Ascii.eqb]. unfold makeToken. cbn [start current line].
  rewrite Z.sub_diag, substring_zero. reflexivity.
Qed.

Lemma scanToken_at_end_witness :
  Z.of_nat (String.length "x") <= current (mkScanner 0 1 1) /\
  scanToken "x" (mkScanner 0 1 1) = (mkToken TOKEN_EOF EmptyString 1, mkScanner 1 1 1).
Proof. split; [cbn; lia|]. apply (scanToken_at_end "x" (mkScanner 0 1 1)). cbn. lia. Defined.

(** ** The open-upvalue list at every instruction *)

Lemma upvalues_ok_ext s s' : upvalues_ok s ->
  heap s' = heap s -> openUpvalues s' = openUpvalues s -> nextId s' = nextId s -> upvalues_ok s'.
Proof.
  intros [Hf [b Hd]] Hh Ho Hn. split.
  - intros o Hle. rewrite Hh. apply Hf. lia.
  - exists b. rewrite Ho. apply (dec_transport s); [exact Hd|].
    intros u _. unfold upvalue_slot. rewrite Hh. reflexivity.
Qed.

Ltac up_same :=
  match goal with
  | H : upvalues_ok ?s |- upvalues_ok ?t =>
      apply (upvalues_ok_ext s t H); reflexivity
  end.

Lemma dec_mono s b b' l : decreasing_from s b l -> b <= b' -> decreasing_from s b' l.
Proof.
  destruct l as [|u l]; [auto|]. intros [z [Hz [Hzb Hr]]] Hb.
  exists z. split; [exact Hz|]. split; [lia|exact Hr].
Qed.

Lemma upvalues_ok_update s x ob : upvalues_ok s -> heap s !! x <> None -> upvalue_slot s x = None ->
  (forall slot v, body ob <> OBJ_UPVALUE (LOC_STACK slot) v) ->
  upvalues_ok (set_heap s (<[x := ob]> (heap s))).
Proof.
  intros [Hf [b Hd]] Hx Hsx Hob. split.
  - intros o Ho. cbn in Ho |- *. rewrite lookup_insert. destruct (decide (x = o)) as [<-|].
    + exfalso. apply Hx, Hf, Ho.
    + apply Hf, Ho.
  - exists b. cbn [openUpvalues set_heap]. apply (dec_transport s); [exact Hd|].
    intros u Hu. destruct (dec_in _ _ _ _ Hd Hu) as [z [Hz _]].
    unfold upvalue_slot. cbn. rewrite lookup_insert.
    destruct (decide (x = u)) as [<-|]; [congruence | reflexivity].
Qed.

Lemma upvalues_ok_allocateObject s size mk : upvalues_ok s -> upvalues_ok (fst (allocateObject s size mk)).
Proof.
  intros [Hf [b Hd]]. unfold allocateObject. rewrite reallocate_id. cbn [fst]. split.
  - intros o Ho. cbn in Ho |- *. rewrite lookup_insert.
    destruct (decide (nextId s = o)); [lia|]. apply Hf. lia.
  - exists b. cbn. apply (dec_transport s); [exact Hd|]. intros u Hu.
    destruct (dec_in _ _ _ _ Hd Hu) as [z [Hz _]].
    unfold upvalue_slot. cbn. rewrite lookup_insert.
    destruct (decide (nextId s = u)) as [<-|]; [|reflexivity].
    exfalso. unfold upvalue_slot in Hz. rewrite (Hf (nextId s)) in Hz by lia. discriminate.
Qed.

Lemma upvalues_ok_runtimeError s msg : upvalues_ok s -> upvalues_ok (runtimeError s msg).
Proof.
  intros [Hf _]. destruct (runtimeError_output_and_reset s msg) as [_ [_ [_ [Ho [Hh _]]]]].
  destruct (same_strs_runtimeError s msg) as [_ [Hn _]].
  split; [|exists 0; rewrite Ho; exact I].
  intros o Hle. rewrite Hh. apply Hf. lia.
Qed.

Lemma upvalues_ok_READ_BYTE s fi x s1 : READ_BYTE s fi = Some (x, s1) -> upvalues_ok s -> upvalues_ok s1.
Proof. intros E H. rewrite (READ_BYTE_state _ _ _ _ E). up_same. Qed.

Lemma upvalues_ok_READ_CONSTANT s fi v s1 : READ_CONSTANT s fi = Some (v, s1) -> upvalues_ok s -> upvalues_ok s1.
Proof.
  unfold READ_CONSTANT, mbind, option_bind.
  destruct (READ_BYTE s fi) as [[i s0]|] eqn:E; [|discriminate].
  destruct (frame_function s0 _); [|discriminate].
  destruct (_ !! _); [|discriminate]. intros [= _ <-]. exact (upvalues_ok_READ_BYTE _ _ _ _ E).
Qed.

Lemma upvalues_ok_READ_STRING s fi v s1 : READ_STRING s fi = Some (v, s1) -> upvalues_ok s -> upvalues_ok s1.
Proof.
  unfold READ_STRING, mbind, option_bind.
  destruct (READ_CONSTANT s fi) as [[c s0]|] eqn:E; [|discriminate].
  destruct (AS_STRING s0 c); [|discriminate]. intros [= _ <-]. exact (upvalues_ok_READ_CONSTANT _ _ _ _ E).
Qed.

Lemma upvalues_ok_READ_SHORT s fi x s1 : READ_SHORT s fi = Some (x, s1) -> upvalues_ok s -> upvalues_ok s1.
Proof.
  unfold READ_SHORT, mbind, option_bind.
  destruct (READ_BYTE s fi) as [[hi s0]|] eqn:E; [|discriminate].
  destruct (READ_BYTE s0 fi) as [[lo s2]|] eqn:E2; [|discriminate].
  intros [= _ <-] H. exact (upvalues_ok_READ_BYTE _ _ _ _ E2 (upvalues_ok_READ_BYTE _ _ _ _ E H)).
Qed.

Lemma upvalues_ok_takeString s cs len : upvalues_ok s -> upvalues_ok (fst (takeString s cs len)).
Proof.
  intros H. unfold takeString. destruct (Tbl.tableFindString _ _ _ _).
  - cbn [fst]. rewrite reallocate_id. exact H.
  - unfold allocateString. destruct (allocateObject s _ _) as [s1 o] eqn:E. cbn [fst].
    assert (H1 : upvalues_ok s1).
    { change s1 with (fst (s1, o)). rewrite <- E. apply upvalues_ok_allocateObject. exact H. }
    up_same.
Qed.

Lemma upvalues_ok_concatenate s s' : concatenate s = Some s' -> upvalues_ok s -> upvalues_ok s'.
Proof.
  unfold concatenate, pop, mbind, option_bind. cbv beta iota zeta.
  destruct (AS_STRING _ _) as [a|]; [|discriminate].
  destruct (AS_STRING _ _) as [b|]; [|discriminate].
  rewrite reallocate_id.
  match goal with |- context [takeString ?x ?y ?z] =>
    pose proof (upvalues_ok_takeString x y z) as Ht; destruct (takeString x y z) as [s4 r] eqn:E end.
  intros [= <-] H. cbn [fst] in Ht.
  assert (H4 : upvalues_ok s4) by (apply Ht; up_same).
  up_same.
Qed.

Lemma upvalues_ok_call s cl n s' b : call s cl n = Some (s', b) -> upvalues_ok s -> upvalues_ok s'.
Proof.
  intros Hc H. unfold call in Hc.
  destruct (heap s !! cl) as [[? [| |fid ups cnt| | | | | | ]]|]; try discriminate.
  destruct (heap s !! fid) as [[? [| | |f| | | | | ]]|]; try discriminate.
  destruct (negb _); [injection Hc as <- _; apply upvalues_ok_runtimeError; exact H|].
  destruct (frameCount s =? FRAMES_MAX); [injection Hc as <- _; apply upvalues_ok_runtimeError; exact H|].
  injection Hc as <- _. up_same.
Qed.

Lemma upvalues_ok_callValue s v n s' b : callValue s v n = Some (s', b) -> upvalues_ok s -> upvalues_ok s'.
Proof.
  intros Hc H. unfold callValue in Hc. cbv zeta in Hc.
  destruct v as [| | |o]; try (injection Hc as <- _; apply upvalues_ok_runtimeError; exact H).
  destruct (heap s !! o) as [[? [| | | | |native| | | ]]|] eqn:Eo;
    try (injection Hc as <- _; apply upvalues_ok_runtimeError; exact H).
  - exact (upvalues_ok_call _ _ _ _ _ Hc H).
  - injection Hc as <- _. up_same.
Qed.

Lemma upvalues_ok_closeUpvalues s last : upvalues_ok s ->
  upvalues_ok (closeUpvalues s last) /\
  decreasing_from (closeUpvalues s last) last (openUpvalues (closeUpvalues s last)).
Proof.
  intros [Hf [b Hd]]. unfold closeUpvalues.
  destruct (closeUpvalues_loop_spec last (openUpvalues s) s b eq_refl Hd) as [H1 _].
  cbn zeta in H1.
  destruct (same_strs_closeUpvalues_loop (openUpvalues s) s last) as [_ [Hn [_ Hnone]]].
  split; [|exact H1]. split; [|exists last; exact H1].
  intros o Ho. apply Hnone. apply Hf. lia.
Qed.

Lemma upvalues_ok_captureUpvalue s local : upvalues_ok s -> upvalues_ok (fst (captureUpvalue s local)).
Proof.
  intros [Hf [b Hd]]. split.
  - exact (proj2 (proj2 (views_kept_captureUpvalue s local Hf))).
  - exists (Z.max b (local + 1)).
    apply (proj1 (captureUpvalue_spec s (Z.max b (local + 1)) local
                    (dec_mono s b (Z.max b (local + 1)) _ Hd ltac:(lia)) ltac:(apply Hf; lia) ltac:(lia))).
Qed.

Lemma upvalues_ok_upvalue_set s u v s' : upvalue_set s u v = Some s' -> upvalues_ok s -> upvalues_ok s'.
Proof.
  unfold upvalue_set.
  destruct (heap s !! u) as [[m [| | | | | | | |[slot|] x]]|] eqn:Hu; try discriminate; intros [= <-] H.
  - up_same.
  - apply upvalues_ok_update; [exact H | rewrite Hu; discriminate
                              | unfold upvalue_slot; rewrite Hu; reflexivity
                              | intros ? ? E; discriminate E].
Qed.

Lemma upvalues_ok_closure_upvalues n : forall s fi cl i s',
  upvalues_ok s -> closure_upvalues n s fi cl i = Some s' -> upvalues_ok s'.
Proof.
  induction n as [|n IH]; intros s fi cl i s' H Hc; cbn [closure_upvalues] in Hc.
  - injection Hc as <-. exact H.
  - unfold mbind, option_bind in Hc.
    destruct (READ_BYTE s fi) as [[isLocal s1]|] eqn:E1; [|discriminate].
    destruct (READ_BYTE s1 fi) as [[index s2]|] eqn:E2; [|discriminate].
    pose proof (upvalues_ok_READ_BYTE _ _ _ _ E2 (upvalues_ok_READ_BYTE _ _ _ _ E1 H)) as H2.
    assert (H3 : forall s3 u, (if negb (isLocal =? 0)
                       then let '(s3, u) := captureUpvalue s2 (slots (frames s2 fi) + index) in Some (s3, Some u)
                       else match heap s2 !! closure (frames s2 fi) with
                            | Some (mkObj _ (OBJ_CLOSURE _ ups _)) => u ← ups !! Z.to_nat index; Some (s2, u)
                            | _ => None end) = Some (s3, u) -> upvalues_ok s3).
    { intros s3 u. destruct (negb _).
      - destruct (captureUpvalue s2 _) as [s3' u'] eqn:Ec. intros [= <- _].
        change s3' with (fst (s3', u')). rewrite <- Ec. apply upvalues_ok_captureUpvalue. exact H2.
      - destruct (heap s2 !! _) as [[m [| | | | | | | | ]]|]; try discriminate.
        unfold mbind, option_bind. destruct (_ !! Z.to_nat index); [|discriminate].
        intros [= <- _]. exact H2. }
    destruct (if negb (isLocal =? 0) then _ else _) as [[s3 u]|] eqn:E3; [|discriminate].
    specialize (H3 s3 u eq_refl).
    destruct (heap s3 !! cl) as [[m [| |fid ups cnt| | | | | | ]]|] eqn:Ecl; try discriminate.
    eapply IH; [|exact Hc].
    apply upvalues_ok_update; [exact H3 | rewrite Ecl; discriminate
                              | unfold upvalue_slot; rewrite Ecl; reflexivity
                              | intros ? ? E; discriminate E].
Qed.

Lemma upvalues_ok_newClosure s fid s' cl : newClosure s fid = Some (s', cl) -> upvalues_ok s -> upvalues_ok s'.
Proof.
  unfold newClosure. destruct (heap s !! fid) as [[m [| | |f| | | | | ]]|]; try discriminate.
  rewrite reallocate_id. remember (allocateObject s _ _) as a eqn:Ea. intros Ha H.
  injection Ha as Ha. change s' with (fst (s', cl)). rewrite <- Ha, Ea.
  apply upvalues_ok_allocateObject. exact H.
Qed.

Lemma upvalues_ok_OP_CLOSURE s fi r : upvalues_ok s -> execute s fi OP_CLOSURE = Some r ->
  upvalues_ok (step_state r).
Proof.
  intros H Hex. cbn [execute] in Hex. unfold mbind, option_bind in Hex.
  destruct (READ_CONSTANT s fi) as [[v s1]|] eqn:E1; [|discriminate].
  pose proof (upvalues_ok_READ_CONSTANT _ _ _ _ E1 H) as H1.
  destruct v as [| | | o]; try discriminate.
  destruct (newClosure s1 o) as [[s2 cl]|] eqn:E2; [|discriminate].
  pose proof (upvalues_ok_newClosure _ _ _ _ E2 H1) as H2.
  assert (H3 : upvalues_ok (push s2 (OBJ_VAL cl))) by up_same.
  destruct (heap (push s2 (OBJ_VAL cl)) !! cl) as [[m [| |fid ups cnt| | | | | | ]]|]; try discriminate.
  destruct (closure_upvalues _ _ fi cl 0) as [s4|] eqn:E4; [|discriminate].
  injection Hex as <-. exact (upvalues_ok_closure_upvalues _ _ _ _ _ _ H3 E4).
Qed.

Lemma upvalues_ok_BINARY_OP s op : upvalues_ok s -> upvalues_ok (BINARY_OP s op).
Proof.
  intros H. unfold BINARY_OP, pop. cbv zeta.
  destruct (_ || _); [pose proof (upvalues_ok_runtimeError s "Operands must be numbers." H) as H'; clear H|];
    up_same.
Qed.

Lemma execute_upvalues_ok s fi op r : upvalues_ok s -> execute s fi op = Some r -> upvalues_ok (step_state r).
Proof.
  intros H Hex.
  destruct op;
    try (apply (upvalues_ok_OP_CLOSURE s fi r H Hex));
    cbn [execute] in Hex; unfold mbind, option_bind, pop in Hex; cbv beta iota zeta in Hex.
  all: try (injection Hex as <-; cbn [step_state];
            first [apply upvalues_ok_BINARY_OP; exact H | up_same | apply upvalues_ok_runtimeError; up_same]).
  all: try (destruct (READ_BYTE s fi) as [[x s1]|] eqn:E; [|discriminate];
            pose proof (upvalues_ok_READ_BYTE _ _ _ _ E H) as H1).
  all: try (destruct (READ_CONSTANT s fi) as [[x s1]|] eqn:E; [|discriminate];
            pose proof (upvalues_ok_READ_CONSTANT _ _ _ _ E H) as H1).
  all: try (destruct (READ_STRING s fi) as [[x s1]|] eqn:E; [|discriminate];
            pose proof (upvalues_ok_READ_STRING _ _ _ _ E H) as H1).
  all: try (destruct (READ_SHORT s fi) as [[x s1]|] eqn:E; [|discriminate];
            pose proof (upvalues_ok_READ_SHORT _ _ _ _ E H) as H1).
  all: try (injection Hex as <-; cbn [step_state]; clear H; up_same).
  - (* OP_GET_GLOBAL *)
    destruct (Tbl.tableGet _ _); injection Hex as <-; cbn [step_state]; clear H;
      [up_same | apply upvalues_ok_runtimeError; exact H1].
  - (* OP_SET_GLOBAL *)
    destruct (Tbl.tableSet _ _ _) as [g []]; injection Hex as <-; cbn [step_state]; clear H;
      [apply upvalues_ok_runtimeError|]; up_same.
  - (* OP_ADD *)
    destruct (IS_STRING s (peek s 0) && IS_STRING s (peek s 1)).
    + destruct (concatenate s) as [s1|] eqn:Ec; [|discriminate].
      injection Hex as <-. exact (upvalues_ok_concatenate _ _ Ec H).
    + destruct (IS_NUMBER (peek s 0) && IS_NUMBER (peek s 1)); injection Hex as <-;
        cbn [step_state]; [up_same | apply upvalues_ok_runtimeError; exact H].
  - (* OP_NEGATE *)
    destruct (negb _); injection Hex as <-; cbn [step_state];
      [apply upvalues_ok_runtimeError; exact H | up_same].
  - (* OP_JUMP_IF_FALSE *)
    destruct (isFalsey _); injection Hex as <-; cbn [step_state]; clear H; up_same.
  - (* OP_CALL *)
    destruct (callValue s1 _ _) as [[s2 ok]|] eqn:Ec; [|discriminate].
    pose proof (upvalues_ok_callValue _ _ _ _ _ Ec H1) as H2.
    destruct ok; injection Hex as <-; exact H2.
  - (* OP_RETURN *)
    match type of Hex with context [closeUpvalues ?x ?y] =>
      pose proof (proj1 (upvalues_ok_closeUpvalues x y ltac:(up_same))) as H2 end.
    destruct (_ =? 0); injection Hex as <-; cbn [step_state]; clear H; up_same.
  - (* OP_GET_UPVALUE *)
    destruct (frame_upvalue s1 fi x) as [u|]; [|discriminate].
    destruct (upvalue_get s1 u); [|discriminate].
    injection Hex as <-. cbn [step_state]. clear H. up_same.
  - (* OP_SET_UPVALUE *)
    destruct (frame_upvalue s1 fi x) as [u|]; [|discriminate].
    destruct (upvalue_set s1 u _) as [s2|] eqn:Eu; [|discriminate].
    injection Hex as <-. exact (upvalues_ok_upvalue_set _ _ _ _ Eu H1).
  - (* OP_CLOSE_UPVALUE *)
    injection Hex as <-. cbn [step_state].
    pose proof (proj1 (upvalues_ok_closeUpvalues s (stackTop s - 1) H)) as H2.
    clear H. up_same.
Qed.

Lemma step_upvalues_ok s fi : upvalues_ok s -> upvalues_ok (step_state (step s fi)).
Proof.
  intros H. unfold step.
  destruct (READ_BYTE s fi) as [[b s1]|] eqn:E; [|exact H].
  pose proof (upvalues_ok_READ_BYTE _ _ _ _ E H) as H1.
  destruct (decode b) as [op|]; [|exact H1].
  destruct (execute s1 fi op) as [r|] eqn:Ex; [|exact H1].
  exact (execute_upvalues_ok _ _ _ _ H1 Ex).
Qed.

Lemma run_upvalues_ok n : forall s fi, upvalues_ok s -> upvalues_ok (step_state (run n s fi)).
Proof.
  induction n as [|n IH]; intros s fi H; [exact H|]. cbn [run].
  pose proof (step_upvalues_ok s fi H) as H1.
  destruct (step s fi) as [s' fi'|r s'|s']; [exact (IH _ _ H1)|exact H1|exact H1].
Qed.

Lemma heap_fresh_of_list s :
  Forall (fun kv => (kv.1 < nextId s)%nat) (map_to_list (heap s)) -> heap_fresh s.
Proof.
  intros HF o Ho. destruct (heap s !! o) as [ob|] eqn:E; [|reflexivity]. exfalso.
  apply elem_of_map_to_list in E. rewrite Forall_forall in HF. specialize (HF _ E). cbn in HF. lia.
Qed.

(** C9: the open-upvalue list strictly decreases by stack slot: every
    entry is an open upvalue of the heap, below the entry before it.  Every
    instruction, and so every run of [run], keeps it so, with every address
    of the heap below [nextId].  [captureUpvalue] returns an upvalue for the
    slot asked for, and returns the listed one if the slot is already
    captured.  After an [OP_RETURN], the list lies below the returning
    frame's base and every upvalue that was on the list at or above that base
    is closed over the value its slot held.  Upvalues that are not on the
    list are left as they are. *)
Theorem open_upvalues_sorted_and_closed_on_return (s : VM) (b : Z)
    (Hf : heap_fresh s) (Hd : decreasing_from s b (openUpvalues s)) :
  (forall fi, upvalues_ok (step_state (step s fi))) /\
  (forall n fi, upvalues_ok (step_state (run n s fi))) /\
  (forall local, local < b ->
     decreasing_from (fst (captureUpvalue s local)) b (openUpvalues (fst (captureUpvalue s local))) /\
     upvalue_slot (fst (captureUpvalue s local)) (snd (captureUpvalue s local)) = Some local /\
     (forall u', In u' (openUpvalues s) -> upvalue_slot s u' = Some local ->
        captureUpvalue s local = (s, u'))) /\
  (forall fi r, execute s fi OP_RETURN = Some r ->
     let base := slots (frames s fi) in
     decreasing_from (step_state r) base (openUpvalues (step_state r)) /\
     (forall u m slot v, In u (openUpvalues s) ->
        heap s !! u = Some (mkObj m (OBJ_UPVALUE (LOC_STACK slot) v)) -> base <= slot ->
        heap (step_state r) !! u = Some (mkObj m (OBJ_UPVALUE LOC_CLOSED (stack s slot)))) /\
     (forall u, ~ In u (openUpvalues s) -> heap (step_state r) !! u = heap s !! u)).
Proof.
  assert (Hok : upvalues_ok s) by (split; [exact Hf | exists b; exact Hd]).
  split; [intros fi; exact (step_upvalues_ok s fi Hok)|].
  split; [intros n fi; exact (run_upvalues_ok n s fi Hok)|].
  split.
  { intros local Hl. apply captureUpvalue_spec; [exact Hd | apply Hf; lia | exact Hl]. }
  intros fi r Hr. cbn zeta. cbn [execute] in Hr.
  change (pop s) with (stack s (stackTop s - 1), set_stack s (stack s) (stackTop s - 1)) in Hr.
  cbv beta iota in Hr.
  set (s1 := set_stack s (stack s) (stackTop s - 1)) in Hr.
  assert (Hd1 : decreasing_from s1 b (openUpvalues s1))
    by (apply (dec_transport s); [exact Hd | reflexivity]).
  destruct (closeUpvalues_loop_spec (slots (frames s1 fi)) (openUpvalues s1) s1 b eq_refl Hd1)
    as [H1 [H2 [H3 H4]]].
  unfold closeUpvalues in Hr.
  set (s2 := closeUpvalues_loop s1 (openUpvalues s1) (slots (frames s1 fi))) in *.
  cbn zeta in *.
  assert (Hst : heap (step_state r) = heap s2 /\ openUpvalues (step_state r) = openUpvalues s2).
  { destruct (frameCount (set_frames s2 (frames s2) (frameCount s2 - 1)) =? 0);
      injection Hr as <-; cbn; auto. }
  destruct Hst as [Hh Ho]. rewrite Hh, Ho.
  split; [|split; [exact H2|exact H3]].
  apply (dec_transport s2); [exact H1|]. intros u _. unfold upvalue_slot. rewrite Hh. reflexivity.
Qed.

Lemma open_upvalues_sorted_and_closed_on_return_witness :
  heap_fresh capture_line_state /\
  decreasing_from capture_line_state 2 (openUpvalues capture_line_state) /\
  upvalues_ok (step_state (run 10%nat capture_line_state 0)).
Proof.
  assert (Hf : heap_fresh capture_line_state)
    by (apply heap_fresh_of_list; apply (bool_decide_unpack _); vm_compute; reflexivity).
  assert (Hd : decreasing_from capture_line_state 2 (openUpvalues capture_line_state)).
  { assert (Ho : openUpvalues capture_line_state = [8%nat]) by (vm_compute; reflexivity).
    rewrite Ho. cbn [decreasing_from]. exists 1.
    split; [vm_compute; reflexivity | split; [lia | exact I]]. }
  split; [exact Hf|]. split; [exact Hd|].
  exact (proj1 (proj2 (open_upvalues_sorted_and_closed_on_return capture_line_state 2 Hf Hd)) 10%nat 0).
Defined.

(** A runtime error empties the open-upvalue list without closing its
    upvalues.  In the REPL session [var h; { var a = true; fun g() { print a; }
    h = g; -nil; }] then [h();], the first line stops at [-nil] with the
    upvalue at address 8 still open on slot 1.  The second line calls [g] in
    a frame whose base is slot 1, where [h] itself now lies: [g] prints its
    own closure (address 7) instead of [true], and after its [OP_RETURN] the
    upvalue is still open on slot 1. *)
Lemma runtime_error_leaves_upvalue_open :
  let s1 := get_state (session1 compile_capture_line) in
  let s2 := step_state (run 9 s1 0) in
  let s3 := get_state (repl_line s2 compile_call_line) in
  let s4 := step_state (run 5 s3 0) in
  let s5 := step_state (run 6 s3 0) in
  run 9 s1 0 = Halt INTERPRET_RUNTIME_ERROR s2 /\
  openUpvalues s2 = [] /\
  heap s2 !! 8%nat = Some (mkObj false (OBJ_UPVALUE (LOC_STACK 1) NIL_VAL)) /\
  stack s2 1 = BOOL_VAL true /\
  run 5 s3 0 = Continue s4 1 /\
  slots (frames s4 1) = 1 /\
  option_map fst (READ_BYTE s4 1) = Some (opbyte OP_RETURN) /\
  output s4 = output s3 ++ [OUT_PRINT (OBJ_VAL 7)] /\
  run 6 s3 0 = Continue s5 0 /\
  heap s5 !! 8%nat = Some (mkObj false (OBJ_UPVALUE (LOC_STACK 1) NIL_VAL)).
Proof.
  cbv zeta. repeat match goal with |- _ /\ _ => split end; vm_compute; reflexivity.
Qed.

(** ** Assignment to an undefined global, in a session *)

Lemma SET_GLOBAL_undefined_keeps_bindings_witness :
  exists s2, execute assign_line_state 0 OP_SET_GLOBAL = Some (Halt INTERPRET_RUNTIME_ERROR s2) /\
    Permutation (bindings (Tbl.entries (globals s2))) [(clock_name, OBJ_VAL 1)].
Proof.
  assert (Hg : globals assign_line_state = fst (Tbl.tableSet Tbl.initTable clock_name (OBJ_VAL 1)))
    by (vm_compute; reflexivity).
  destruct (tableSet_new_wf Tbl.initTable clock_name (OBJ_VAL 1) initTable_wf) as [Hwf [_ Hp]].
  { intros kv []. }
  destruct (SET_GLOBAL_undefined_keeps_bindings assign_line_state 0 x_name
              (set_ip assign_line_state 0 (ip (frames assign_line_state 0) + 1)))
    as [s2 [H1 [_ [_ [H4 _]]]]].
  - vm_compute. reflexivity.
  - rewrite Hg. exact Hwf.
  - rewrite Hg. intros kv Hin. apply (Permutation_in _ Hp) in Hin.
    destruct Hin as [<-|[]]. cbn. discriminate.
  - exists s2. split; [exact H1|]. rewrite Hg in H4.
    etransitivity; [exact H4|]. etransitivity; [exact Hp|]. reflexivity.
Defined.

(** The table is not restored.  After [initVM] has bound [clock], the
    REPL line [{ var y = 1; x = nil; }] fails on [x = nil]: the globals
    table had capacity 8 and count 1, and is left with capacity 8 and count
    2 (the tombstone), [clock] still its only binding. *)
Lemma SET_GLOBAL_undefined_changes_table :
  let s0 := get_state (session1 compile_assign_line) in
  let s1 := step_state (run 2 s0 0) in
  let s2 := step_state (run 3 s0 0) in
  run 3 s0 0 = Halt INTERPRET_RUNTIME_ERROR s2 /\
  Tbl.count (globals s1) = 1 /\ Tbl.capacity (globals s1) = 8 /\
  bindings (Tbl.entries (globals s1)) = [(clock_name, OBJ_VAL 1)] /\
  globals s2 <> globals s1 /\
  Tbl.count (globals s2) = 2 /\ Tbl.capacity (globals s2) = 8 /\
  bindings (Tbl.entries (globals s2)) = [(clock_name, OBJ_VAL 1)] /\
  In (OUT_ERROR "Undefined variable 'x'.") (output s2).
Proof.
  cbv zeta. repeat match goal with |- _ /\ _ => split end.
  all: vm_compute; first [reflexivity | discriminate | repeat (first [left; reflexivity | right])].
Qed.

(** ** Assignment to a permanent local through an upvalue *)

Lemma addUpvalue_locals p c idx loc p' c' j : Cmp.addUpvalue p c idx loc = (p', c', j) ->
  Cmp.locals c' = Cmp.locals c.
Proof.
  unfold Cmp.addUpvalue. destruct (List.find _ _); [intros [= _ <- _]; reflexivity|].
  destruct (_ =? UINT8_COUNT); intros [= _ <- _]; reflexivity.
Qed.

(** C5: an assignment in a function to a local of the enclosing function
    resolves to an upvalue.  [namedVariable] then checks [isPerm] on the
    current compiler's local whose index is the upvalue's index, not on the
    enclosing local: when the enclosing local is permanent and the current
    compiler's local at that index is not, the parser goes on to the
    assigned expression with no error added, and [OP_SET_UPVALUE] is
    emitted. *)
Theorem perm_upvalue_assignment_accepted
    (advance : Cmp.Parser -> Cmp.Parser)
    (expression : Cmp.Parser -> list Cmp.Compiler -> Cmp.Parser * list Cmp.Compiler)
    (identifierConstant : Cmp.Parser -> list Cmp.Compiler -> Token -> Cmp.Parser * list Cmp.Compiler * Z)
    (p : Cmp.Parser) (c e : Cmp.Compiler) (rest : list Cmp.Compiler) (nm : Token)
    (p1 p2 p3 : Cmp.Parser) (k j : Z) (c1 : Cmp.Compiler)
    (H1 : Cmp.resolveLocal p c nm = (p1, -1))
    (H2 : Cmp.resolveLocal p1 e nm = (p2, k)) (Hk : k <> -1)
    (Hperm : Cmp.isPerm (Cmp.locals e k) = true)
    (H3 : Cmp.addUpvalue p2 c (Z.land k 255) true = (p3, c1, j)) (Hj : j <> -1)
    (Hj' : Cmp.isPerm (Cmp.locals c j) = false)
    (Heq : type (Cmp.current p3) = TOKEN_EQUAL) :
  Cmp.namedVariable advance expression identifierConstant p (c :: e :: rest) nm true =
    (let '(p5, cs5) := expression (advance p3) (c1 :: Cmp.set_captured e k :: rest) in
     (p5, Cmp.emit_current cs5 (opbyte OP_SET_UPVALUE) (Z.land j 255))).
Proof.
  pose proof (addUpvalue_locals _ _ _ _ _ _ _ H3) as Hl.
  assert (Ek : negb (k =? -1) = true) by (apply negb_true_iff, Z.eqb_neq; exact Hk).
  assert (Ej : negb (j =? -1) = true) by (apply negb_true_iff, Z.eqb_neq; exact Hj).
  unfold Cmp.namedVariable. rewrite H1. change (negb (-1 =? -1)) with false.
  cbv beta iota zeta. cbn [Cmp.resolveUpvalue]. rewrite H2, Ek. cbv beta iota zeta.
  rewrite H3. cbv beta iota zeta. rewrite Ej. cbv beta iota zeta.
  unfold Cmp.match_token, Cmp.check. rewrite (bool_decide_eq_true_2 _ Heq). cbv beta iota zeta.
  rewrite Hl, Hj', Ej. reflexivity.
Qed.

Lemma perm_upvalue_assignment_accepted_witness :
  Cmp.isPerm (Cmp.locals perm_example_block 1) = true /\
  Cmp.errors (fst (Cmp.namedVariable (fun p => p) pair (fun p cs _ => (p, cs, 0))
                     perm_example_parser [perm_example_f; perm_example_block]
                     (perm_tok TOKEN_IDENTIFIER "a") true)) = [].
Proof.
  split; [reflexivity|].
  rewrite (perm_upvalue_assignment_accepted (fun p => p) pair (fun p cs _ => (p, cs, 0))
             perm_example_parser perm_example_f perm_example_block [] (perm_tok TOKEN_IDENTIFIER "a")
             perm_example_parser perm_example_parser perm_example_parser 1 1
             (snd (fst (Cmp.addUpvalue perm_example_parser perm_example_f 1 true))));
    [vm_compute; reflexivity | vm_compute; reflexivity | vm_compute; reflexivity | discriminate
    | vm_compute; reflexivity | vm_compute; reflexivity | discriminate
    | vm_compute; reflexivity | vm_compute; reflexivity].
Defined.

(** ** The allocation counters *)

Lemma counters_runtimeError s msg : counters (runtimeError s msg) = counters s.
Proof.
  unfold runtimeError. cbv zeta.
  assert (H : forall l s0, counters (fold_left (fun s i => emit s (trace_line s i)) l s0) = counters s0).
  { induction l as [|i l IH]; intros s0; [reflexivity|]. cbn. exact (IH _). }
  exact (H _ _).
Qed.

Ltac cn_fin :=
  cbn [step_state]; rewrite ?counters_runtimeError;
  first [ reflexivity
        | match goal with H : counters ?a = counters ?b |- counters _ = counters ?b => exact H end ].

Lemma counters_allocateObject s size mk : counters (fst (allocateObject s size mk)) = counters s.
Proof. unfold allocateObject. rewrite reallocate_id. reflexivity. Qed.

Lemma counters_READ_BYTE s fi x s1 : READ_BYTE s fi = Some (x, s1) -> counters s1 = counters s.
Proof. intros E. rewrite (READ_BYTE_state _ _ _ _ E). reflexivity. Qed.

Lemma counters_READ_CONSTANT s fi v s1 : READ_CONSTANT s fi = Some (v, s1) -> counters s1 = counters s.
Proof.
  unfold READ_CONSTANT, mbind, option_bind.
  destruct (READ_BYTE s fi) as [[i s0]|] eqn:E; [|discriminate].
  destruct (frame_function s0 _); [|discriminate].
  destruct (_ !! _); [|discriminate]. intros [= _ <-]. exact (counters_READ_BYTE _ _ _ _ E).
Qed.

Lemma counters_READ_STRING s fi v s1 : READ_STRING s fi = Some (v, s1) -> counters s1 = counters s.
Proof.
  unfold READ_STRING, mbind, option_bind.
  destruct (READ_CONSTANT s fi) as [[c s0]|] eqn:E; [|discriminate].
  destruct (AS_STRING s0 c); [|discriminate]. intros [= _ <-]. exact (counters_READ_CONSTANT _ _ _ _ E).
Qed.

Lemma counters_READ_SHORT s fi x s1 : READ_SHORT s fi = Some (x, s1) -> counters s1 = counters s.
Proof.
  unfold READ_SHORT, mbind, option_bind.
  destruct (READ_BYTE s fi) as [[hi s0]|] eqn:E; [|discriminate].
  destruct (READ_BYTE s0 fi) as [[lo s2]|] eqn:E2; [|discriminate].
  intros [= _ <-]. rewrite (counters_READ_BYTE _ _ _ _ E2). exact (counters_READ_BYTE _ _ _ _ E).
Qed.

Lemma counters_takeString s cs len : counters (fst (takeString s cs len)) = counters s.
Proof.
  unfold takeString. destruct (Tbl.tableFindString _ _ _ _).
  - cbn [fst]. rewrite reallocate_id. reflexivity.
  - unfold allocateString. destruct (allocateObject s _ _) as [s1 o] eqn:E. cbn [fst].
    transitivity (counters s1); [reflexivity|].
    change (counters s1) with (counters (fst (s1, o))). rewrite <- E. apply counters_allocateObject.
Qed.

Lemma counters_concatenate s s' : concatenate s = Some s' -> counters s' = counters s.
Proof.
  unfold concatenate, pop, mbind, option_bind. cbv beta iota zeta.
  destruct (AS_STRING _ _) as [a|]; [|discriminate].
  destruct (AS_STRING _ _) as [b|]; [|discriminate].
  rewrite reallocate_id.
  match goal with |- context [takeString ?x ?y ?z] =>
    pose proof (counters_takeString x y z) as Ht; destruct (takeString x y z) as [s4 r] eqn:E end.
  intros [= <-]. exact Ht.
Qed.

Lemma counters_call s cl n s' b : call s cl n = Some (s', b) -> counters s' = counters s.
Proof.
  intros Hc. unfold call in Hc.
  destruct (heap s !! cl) as [[? [| |fid ups cnt| | | | | | ]]|]; try discriminate.
  destruct (heap s !! fid) as [[? [| | |f| | | | | ]]|]; try discriminate.
  destruct (negb _); [injection Hc as <- _; apply counters_runtimeError|].
  destruct (frameCount s =? FRAMES_MAX); [injection Hc as <- _; apply counters_runtimeError|].
  injection Hc as <- _. reflexivity.
Qed.

Lemma counters_callValue s v n s' b : callValue s v n = Some (s', b) -> counters s' = counters s.
Proof.
  intros Hc. unfold callValue in Hc. cbv zeta in Hc.
  destruct v as [| | |o]; try (injection Hc as <- _; apply counters_runtimeError).
  destruct (heap s !! o) as [[? [| | | | |native| | | ]]|] eqn:Eo;
    try (injection Hc as <- _; apply counters_runtimeError).
  - exact (counters_call _ _ _ _ _ Hc).
  - injection Hc as <- _. reflexivity.
Qed.

Lemma counters_closeUpvalues_loop l : forall s last, counters (closeUpvalues_loop s l last) = counters s.
Proof.
  induction l as [|u rest IH]; intros s last; cbn [closeUpvalues_loop]; [reflexivity|].
  destruct (heap s !! u) as [[m body]|]; [|reflexivity].
  destruct body; try reflexivity.
  destruct location; try reflexivity.
  destruct (last <=? slot); [|reflexivity].
  rewrite IH. reflexivity.
Qed.

Lemma counters_captureUpvalue s local : counters (fst (captureUpvalue s local)) = counters s.
Proof.
  unfold captureUpvalue. destruct (split_open s (openUpvalues s) local) as [p r].
  assert (Hc : counters (fst (let '(s1, created) := newUpvalue s local in
                 (set_openUpvalues s1 (p ++ created :: r), created))) = counters s).
  { unfold newUpvalue. pose proof (counters_allocateObject s OBJ_SIZE
      (fun _ => OBJ_UPVALUE (LOC_STACK local) NIL_VAL)) as Ha.
    destruct (allocateObject s OBJ_SIZE _) as [s1 c]. exact Ha. }
  destruct r as [|u rest]; [exact Hc|].
  destruct (bool_decide _); [reflexivity | exact Hc].
Qed.

Lemma counters_closure_upvalues n : forall s fi cl i s',
  closure_upvalues n s fi cl i = Some s' -> counters s' = counters s.
Proof.
  induction n as [|n IH]; intros s fi cl i s' Hc; cbn [closure_upvalues] in Hc.
  - injection Hc as <-. reflexivity.
  - unfold mbind, option_bind in Hc.
    destruct (READ_BYTE s fi) as [[isLocal s1]|] eqn:E1; [|discriminate].
    destruct (READ_BYTE s1 fi) as [[index s2]|] eqn:E2; [|discriminate].
    assert (H2 : counters s2 = counters s)
      by (rewrite (counters_READ_BYTE _ _ _ _ E2); exact (counters_READ_BYTE _ _ _ _ E1)).
    assert (H3 : forall s3 u, (if negb (isLocal =? 0)
                       then let '(s3, u) := captureUpvalue s2 (slots (frames s2 fi) + index) in Some (s3, Some u)
                       else match heap s2 !! closure (frames s2 fi) with
                            | Some (mkObj _ (OBJ_CLOSURE _ ups _)) => u ← ups !! Z.to_nat index; Some (s2, u)
                            | _ => None end) = Some (s3, u) -> counters s3 = counters s).
    { intros s3 u. destruct (negb _).
      - pose proof (counters_captureUpvalue s2 (slots (frames s2 fi) + index)) as Hc2.
        destruct (captureUpvalue s2 _) as [s3' u']. cbn [fst] in Hc2. intros [= <- _]. rewrite Hc2. exact H2.
      - destruct (heap s2 !! _) as [[m [| | | | | | | | ]]|]; try discriminate.
        unfold mbind, option_bind. destruct (_ !! Z.to_nat index); [|discriminate].
        intros [= <- _]. exact H2. }
    destruct (if negb (isLocal =? 0) then _ else _) as [[s3 u]|] eqn:E3; [|discriminate].
    specialize (H3 s3 u eq_refl).
    destruct (heap s3 !! cl) as [[m [| |fid ups cnt| | | | | | ]]|] eqn:Ecl; try discriminate.
    rewrite (IH _ _ _ _ _ Hc). exact H3.
Qed.

Lemma counters_newClosure s fid s' cl : newClosure s fid = Some (s', cl) -> counters s' = counters s.
Proof.
  unfold newClosure. destruct (heap s !! fid) as [[m [| | |f| | | | | ]]|]; try discriminate.
  rewrite reallocate_id. remember (allocateObject s _ _) as a eqn:Ea. intros Ha.
  injection Ha as Ha. change (counters s') with (counters (fst (s', cl))). rewrite <- Ha, Ea.
  apply counters_allocateObject.
Qed.

Lemma counters_upvalue_set s u v s' : upvalue_set s u v = Some s' -> counters s' = counters s.
Proof.
  unfold upvalue_set.
  destruct (heap s !! u) as [[m [| | | | | | | |[slot|] x]]|]; try discriminate; intros [= <-]; reflexivity.
Qed.

Lemma counters_OP_CLOSURE s fi r : execute s fi OP_CLOSURE = Some r -> counters (step_state r) = counters s.
Proof.
  intros Hex. cbn [execute] in Hex. unfold mbind, option_bind in Hex.
  destruct (READ_CONSTANT s fi) as [[v s1]|] eqn:E1; [|discriminate].
  destruct v as [| | | o]; try discriminate.
  destruct (newClosure s1 o) as [[s2 cl]|] eqn:E2; [|discriminate].
  destruct (heap (push s2 (OBJ_VAL cl)) !! cl) as [[m [| |fid ups cnt| | | | | | ]]|]; try discriminate.
  destruct (closure_upvalues _ _ fi cl 0) as [s4|] eqn:E4; [|discriminate].
  injection Hex as <-. cbn [step_state].
  rewrite (counters_closure_upvalues _ _ _ _ _ _ E4).
  change (counters (push s2 (OBJ_VAL cl))) with (counters s2).
  rewrite (counters_newClosure _ _ _ _ E2). exact (counters_READ_CONSTANT _ _ _ _ E1).
Qed.

Lemma counters_BINARY_OP s op : counters (BINARY_OP s op) = counters s.
Proof.
  unfold BINARY_OP, pop. cbv zeta.
  destruct (_ || _); [exact (counters_runtimeError s _) | reflexivity].
Qed.

Lemma execute_counters s fi op r : execute s fi op = Some r -> counters (step_state r) = counters s.
Proof.
  intros Hex.
  destruct op;
    try (apply (counters_OP_CLOSURE s fi r Hex));
    cbn [execute] in Hex; unfold mbind, option_bind, pop in Hex; cbv beta iota zeta in Hex.
  all: try (injection Hex as <-; cbn [step_state];
            first [apply counters_BINARY_OP | reflexivity | apply counters_runtimeError]).
  all: try (destruct (READ_BYTE s fi) as [[x s1]|] eqn:E; [|discriminate];
            pose proof (counters_READ_BYTE _ _ _ _ E) as H1).
  all: try (destruct (READ_CONSTANT s fi) as [[x s1]|] eqn:E; [|discriminate];
            pose proof (counters_READ_CONSTANT _ _ _ _ E) as H1).
  all: try (destruct (READ_STRING s fi) as [[x s1]|] eqn:E; [|discriminate];
            pose proof (counters_READ_STRING _ _ _ _ E) as H1).
  all: try (destruct (READ_SHORT s fi) as [[x s1]|] eqn:E; [|discriminate];
            pose proof (counters_READ_SHORT _ _ _ _ E) as H1).
  all: try (injection Hex as <-; cn_fin).
  - (* OP_GET_GLOBAL *)
    destruct (Tbl.tableGet _ _); injection Hex as <-; cn_fin.
  - (* OP_SET_GLOBAL *)
    destruct (Tbl.tableSet _ _ _) as [g []]; injection Hex as <-; cn_fin.
  - (* OP_ADD *)
    destruct (IS_STRING s (peek s 0) && IS_STRING s (peek s 1)).
    + destruct (concatenate s) as [s1|] eqn:Ec; [|discriminate].
      injection Hex as <-. exact (counters_concatenate _ _ Ec).
    + destruct (IS_NUMBER (peek s 0) && IS_NUMBER (peek s 1)); injection Hex as <-; cn_fin.
  - (* OP_NEGATE *)
    destruct (negb _); injection Hex as <-; cn_fin.
  - (* OP_JUMP_IF_FALSE *)
    destruct (isFalsey _); injection Hex as <-; cn_fin.
  - (* OP_CALL *)
    destruct (callValue s1 _ _) as [[s2 ok]|] eqn:Ec; [|discriminate].
    pose proof (counters_callValue _ _ _ _ _ Ec) as H2.
    destruct ok; injection Hex as <-; cbn [step_state]; rewrite H2; exact H1.
  - (* OP_RETURN *)
    destruct (_ =? 0); injection Hex as <-; cbn [step_state]; unfold closeUpvalues;
      match goal with |- context [closeUpvalues_loop ?a ?b ?c] =>
        transitivity (counters (closeUpvalues_loop a b c));
        [reflexivity | rewrite counters_closeUpvalues_loop; reflexivity] end.
  - (* OP_GET_UPVALUE *)
    destruct (frame_upvalue s1 fi x) as [u|]; [|discriminate].
    destruct (upvalue_get s1 u); [|discriminate].
    injection Hex as <-. cn_fin.
  - (* OP_SET_UPVALUE *)
    destruct (frame_upvalue s1 fi x) as [u|]; [|discriminate].
    destruct (upvalue_set s1 u _) as [s2|] eqn:Eu; [|discriminate].
    injection Hex as <-. cbn [step_state]. rewrite (counters_upvalue_set _ _ _ _ Eu). exact H1.
  - (* OP_CLOSE_UPVALUE *)
    injection Hex as <-. cbn [step_state]. unfold closeUpvalues.
    match goal with |- context [closeUpvalues_loop ?a ?b ?c] =>
      transitivity (counters (closeUpvalues_loop a b c));
      [reflexivity | rewrite counters_closeUpvalues_loop; reflexivity] end.
Qed.

Lemma run_counters n : forall s fi, counters (step_state (run n s fi)) = counters s.
Proof.
  induction n as [|n IH]; intros s fi; [reflexivity|]. cbn [run].
  assert (H1 : counters (step_state (step s fi)) = counters s).
  { unfold step. destruct (READ_BYTE s fi) as [[b s1]|] eqn:E; [|reflexivity].
    pose proof (counters_READ_BYTE _ _ _ _ E) as H1.
    destruct (decode b) as [op|]; [|exact H1].
    destruct (execute s1 fi op) as [r|] eqn:Ex; [|exact H1].
    rewrite (execute_counters _ _ _ _ Ex). exact H1. }
  destruct (step s fi) as [s' fi'|r s'|s']; [rewrite IH; exact H1|exact H1|exact H1].
Qed.

(** C2: a collection only marks.  It prints [-- gc begin], a mark line
    for every allocated root (the value stack, the frames' closures, the
    open upvalues, the keys and values of the globals table, the compiler
    roots) and [-- gc end]; it sets the mark bit of every allocated root
    and leaves every other object as it was; nothing else of the machine
    changes: no object is unlinked from the allocation list or freed, no
    mark bit is cleared, [bytesAllocated] and [nextGC] keep their values.
    [reallocate] never changes the machine state, so no allocation starts
    a collection.  No instruction changes [bytesAllocated] or [nextGC]
    either: every run of [run] leaves both as they were. *)
Theorem collectGarbage_only_marks (s : VM) :
  collectGarbage s =
    set_heap_output s (mark_heap (heap s) (gc_roots s))
      (OUT_GC_BEGIN :: mark_log (heap s) (gc_roots s) ++ [OUT_GC_END]) /\
  heap_le (heap s) (heap (collectGarbage s)) /\
  (forall o ob, In o (gc_roots s) -> heap s !! o = Some ob ->
     heap (collectGarbage s) !! o = Some (mkObj true (body ob))) /\
  (forall o, ~ In o (gc_roots s) -> heap (collectGarbage s) !! o = heap s !! o) /\
  objects (collectGarbage s) = objects s /\
  bytesAllocated (collectGarbage s) = bytesAllocated s /\ nextGC (collectGarbage s) = nextGC s /\
  (forall oldSize newSize, reallocate s oldSize newSize = s) /\
  (forall n fi, counters (step_state (run n s fi)) = counters s).
Proof.
  rewrite collectGarbage_log. cbn [heap objects bytesAllocated nextGC set_heap_output].
  split; [reflexivity|]. split; [apply mark_heap_le|]. split; [apply mark_heap_in|].
  split; [apply mark_heap_notin|]. split; [reflexivity|]. split; [reflexivity|]. split; [reflexivity|].
  split; [intros; unfold reallocate; rewrite andb_false_r; reflexivity|].
  intros n fi. apply run_counters.
Qed.
